(** * Depth-to-space block rearrangement (assets/depth2space.py)

    A shallow embedding of the two eager [forward] computations
    ([DepthToSpace_DCR.forward], [DepthToSpace_CRD.forward]) and of
    [create_model], together with the part of the tensor library they
    call: [size], [view], [permute] and [contiguous] on strided tensors.

    Integers are Python integers, hence [Z]; [//] is floor division and
    raises on a zero divisor.  A tensor is a flat storage with a list of
    sizes and a list of strides, as in the tensor library; elements are
    moved, never computed with, so the element type is a parameter.
    The tensor library holds sizes and strides in 64-bit integers: the
    model is the library within the range [within_int64] gives, and
    says nothing of what the library does beyond it.
    The graph export ([symbolic], [export_onnx]) is not part of the
    model. *)

From Stdlib Require Import ZArith Lia QArith Qabs Ascii String.
From stdpp Require Import base list strings.

Set Default Proof Using "Type".
Local Open Scope Z_scope.

(** ** Exceptions and the error monad *)

Inductive exn_class := ValueError | ZeroDivisionError | RuntimeError.

(** An exception is a class and a message.  The message of
    [create_model] is the one the source formats; the messages of the
    tensor library are shortened (they carry no numbers). *)
Record exn := Raise { exn_cls : exn_class; exn_msg : string }.

Definition result (A : Type) : Type := exn + A.

Definition ok {A} (x : A) : result A := inr x.
Definition raise {A} (c : exn_class) (msg : string) : result A :=
  inl (Raise c msg).

Definition bind {A B} (m : result A) (k : A -> result B) : result B :=
  match m with
  | inl e => inl e
  | inr x => k x
  end.

Notation "'let*' x ':=' m 'in' k" := (bind m (fun x => k))
  (at level 10, x name, m at level 100, k at level 200).
Notation "'let*' ' p ':=' m 'in' k" := (bind m (fun p => k))
  (at level 10, p pattern, m at level 100, k at level 200).

Definition is_ok {A} (r : result A) : bool :=
  match r with inr _ => true | inl _ => false end.

(** [a // b] *)
Definition floordiv (a b : Z) : result Z :=
  if b =? 0 then raise ZeroDivisionError "integer division or modulo by zero"
  else ok (a / b).

(** ** Shapes, strides and flat offsets *)

Definition numel (sizes : list Z) : Z := fold_right Z.mul 1 sizes.

(** Row-major strides of a freshly laid out tensor: the stride of a
    dimension is the product of the later sizes, a size 0 counting as 1. *)
Definition stride_prod (sizes : list Z) : Z :=
  fold_right (fun n acc => Z.max n 1 * acc) 1 sizes.

Fixpoint contiguous_strides (sizes : list Z) : list Z :=
  match sizes with
  | [] => []
  | _ :: rest => stride_prod rest :: contiguous_strides rest
  end.

(** ** The range of the model

    The tensor library holds sizes, strides and element counts in
    signed 64-bit integers, where the model has [Z].  A size that does
    not fit is refused when the call is made, and a product that
    overflows is refused or wraps around; none of this is modelled.
    On an input of sizes [sizes] and for a block size [s], every size
    the two transforms ask for and every stride and element count the
    library derives from them is a product of sizes of the input and of
    factors [s], a size 0 counting as 1, hence at most
    [stride_prod sizes * max(|s|, 1)^2] in absolute value.  Where that
    bound fits in 64 bits nothing overflows, and the integers of the
    library are those of the model. *)
Definition int64_max : Z := 2 ^ 63 - 1.

Definition within_int64 (sizes : list Z) (block_size : Z) : Prop :=
  stride_prod sizes * Z.max (Z.abs block_size) 1 ^ 2 <= int64_max.

(** Storage offset of a multi-index: the sum of index times stride. *)
Fixpoint offset_of (idx strides : list Z) : Z :=
  match idx, strides with
  | i :: idx', st :: strides' => i * st + offset_of idx' strides'
  | _, _ => 0
  end.

(** Row-major position of a multi-index in a tensor of the given sizes,
    and the multi-index of a row-major position. *)
Fixpoint ravel (sizes idx : list Z) : Z :=
  match sizes, idx with
  | _ :: rest, i :: idx' => i * numel rest + ravel rest idx'
  | _, _ => 0
  end.

Fixpoint unravel (sizes : list Z) (k : Z) : list Z :=
  match sizes with
  | [] => []
  | _ :: rest => k / numel rest :: unravel rest (k mod numel rest)
  end.

(** [idx] is a coordinate of a tensor of sizes [sizes]. *)
Definition in_range (sizes idx : list Z) : Prop :=
  Forall2 (fun n i => 0 <= i < n) sizes idx.

(** The contiguity test of the tensor library: scanning the dimensions
    from the last one, every dimension of size other than 1 must have
    the stride [z] accumulated so far.  [None] is "not contiguous". *)
Fixpoint contiguous_from (sizes strides : list Z) : option Z :=
  match sizes, strides with
  | [], [] => Some 1
  | n :: sizes', st :: strides' =>
      match contiguous_from sizes' strides' with
      | Some z =>
          if n =? 1 then Some z
          else if st =? z then Some (z * n) else None
      | None => None
      end
  | _, _ => None
  end.

(** Distinct entries of a dimension list. *)
Fixpoint distinct (l : list nat) : bool :=
  match l with
  | [] => true
  | d :: rest => negb (existsb (Nat.eqb d) rest) && distinct rest
  end.

(** Shape inference of [view]: one entry may be [-1] and is then
    computed from the number of elements; other negative entries are
    refused.  The scan stops at the first offending entry. *)
Fixpoint scan_shape (shape : list Z) (pos : nat) (newsize : Z)
    (infer_dim : option nat) : result (Z * option nat) :=
  match shape with
  | [] => ok (newsize, infer_dim)
  | d :: rest =>
      if d =? -1 then
        match infer_dim with
        | Some _ => raise RuntimeError "only one dimension can be inferred"
        | None => scan_shape rest (S pos) newsize (Some pos)
        end
      else if 0 <=? d then scan_shape rest (S pos) (newsize * d) infer_dim
      else raise RuntimeError "invalid shape dimension"
  end.

Definition infer_size (shape : list Z) (n : Z) : result (list Z) :=
  let* '(newsize, infer_dim) := scan_shape shape 0 1 None in
  match infer_dim with
  | None =>
      if n =? newsize then ok shape
      else raise RuntimeError "shape is invalid for input size"
  | Some d =>
      if (n =? newsize) || ((0 <? newsize) && (n mod newsize =? 0)) then
        if newsize =? 0 then
          raise RuntimeError "cannot reshape tensor of 0 elements: the unspecified dimension is ambiguous"
        else ok (<[d := n / newsize]> shape)
      else raise RuntimeError "shape is invalid for input size"
  end.

(** ** Tensors *)

Section Tensors.
Context {A : Type} `{!Inhabited A}.

Record Tensor := mkTensor {
  storage : list A;
  size : list Z;
  stride : list Z
}.

(** The element at a coordinate. *)
Definition get (t : Tensor) (idx : list Z) : A :=
  storage t !!! Z.to_nat (offset_of idx (stride t)).

Definition is_contiguous (t : Tensor) : bool :=
  (numel (size t) =? 0)
  || match contiguous_from (size t) (stride t) with
     | Some _ => true
     | None => false
     end.

(** A tensor as [torch.tensor] builds it from nested lists: row-major
    storage with as many elements as the sizes ask for. *)
Definition tensor_of (data : list A) (sizes : list Z) : Tensor :=
  mkTensor data sizes (contiguous_strides sizes).

(** The inputs of the transform: contiguous tensors whose storage has
    one element per coordinate, as [torch.tensor] builds them.  (A
    tensor that is not contiguous may be refused by [view].) *)
Definition well_formed (t : Tensor) : Prop :=
  Forall (fun n => 0 <= n) (size t) /\
  Z.of_nat (length (storage t)) = numel (size t) /\
  is_contiguous t = true.

(** [b, c, h, w = input.size()] *)
Definition unpack4 (l : list Z) : result (Z * Z * Z * Z) :=
  match l with
  | [b; c; h; w] => ok (b, c, h, w)
  | _ =>
      if (length l <? 4)%nat
      then raise ValueError "not enough values to unpack (expected 4)"
      else raise ValueError "too many values to unpack (expected 4)"
  end.

(** [t.view(shape)]: same storage, new sizes.  The tensor library
    also views some tensors that are not contiguous; both calls of
    [forward] view a contiguous one, and there [view] only checks the
    shape.  Sizes that leave the 64-bit range are not modelled, see
    [within_int64]. *)
Definition view (t : Tensor) (shape : list Z) : result Tensor :=
  let* sizes := infer_size shape (numel (size t)) in
  if is_contiguous t
  then ok (mkTensor (storage t) sizes (contiguous_strides sizes))
  else raise RuntimeError "view size is not compatible with input tensor's size and stride".

(** [t.permute(dims)]: same storage, sizes and strides reordered. *)
Definition permute (t : Tensor) (dims : list nat) : result Tensor :=
  if (length dims =? length (size t))%nat
     && forallb (fun d => d <? length (size t))%nat dims
     && distinct dims
  then ok (mkTensor (storage t)
             ((fun d => size t !!! d) <$> dims)
             ((fun d => stride t !!! d) <$> dims))
  else raise RuntimeError "permute: dims do not match the tensor or repeat".

(** The copy made by [contiguous()] of a tensor that is not
    contiguous: position [k] of the new storage holds the element at
    the [k]-th coordinate in row-major order. *)
Definition materialize (t : Tensor) : Tensor :=
  mkTensor
    ((fun k => storage t !!! Z.to_nat (offset_of (unravel (size t) k) (stride t)))
       <$> seqZ 0 (numel (size t)))
    (size t)
    (contiguous_strides (size t)).

(** [t.contiguous()]: the tensor itself when it is contiguous, a
    row-major copy otherwise. *)
Definition contiguous (t : Tensor) : Tensor :=
  if is_contiguous t then t else materialize t.

End Tensors.

Arguments Tensor : clear implicits.

(** ** The two transforms *)

Module DepthToSpace_DCR.
Definition forward {A} `{!Inhabited A} (ctx : unit) (input : Tensor A)
    (block_size : Z) (mode : string) : result (Tensor A) :=
  let* '(b, c, h, w) := unpack4 (size input) in
  let* q := floordiv c (block_size ^ 2) in
  let* tmp := view input [b; block_size; block_size; q; h; w] in
  let* tmp := permute tmp [0; 3; 4; 1; 5; 2]%nat in
  let tmp := contiguous tmp in
  let* q := floordiv c (block_size ^ 2) in
  let* y := view tmp [b; q; h * block_size; w * block_size] in
  ok y.
End DepthToSpace_DCR.

Module DepthToSpace_CRD.
Definition forward {A} `{!Inhabited A} (ctx : unit) (input : Tensor A)
    (block_size : Z) (mode : string) : result (Tensor A) :=
  let* '(b, c, h, w) := unpack4 (size input) in
  let* q := floordiv c (block_size ^ 2) in
  let* tmp := view input [b; q; block_size; block_size; h; w] in
  let* tmp := permute tmp [0; 1; 4; 2; 5; 3]%nat in
  let tmp := contiguous tmp in
  let* q := floordiv c (block_size ^ 2) in
  let* y := view tmp [b; q; h * block_size; w * block_size] in
  ok y.
End DepthToSpace_CRD.

(** ** The [nn.Module] wrappers and [create_model] *)

Inductive nn_Module :=
| DepthToSpace_DCR_Module (block_size : Z) (mode : string)
| DepthToSpace_CRD_Module (block_size : Z) (mode : string).

(** [Module.forward]: each module applies its own transform to the
    block size and mode it was built with. *)
Definition Module_forward {A} `{!Inhabited A} (m : nn_Module) (x : Tensor A)
    : result (Tensor A) :=
  match m with
  | DepthToSpace_DCR_Module block_size mode =>
      DepthToSpace_DCR.forward tt x block_size mode
  | DepthToSpace_CRD_Module block_size mode =>
      DepthToSpace_CRD.forward tt x block_size mode
  end.

(** The constructors are called without a mode, so each module gets its
    default one. *)
Definition create_model (block_size : Z) (mode : string) : result nn_Module :=
  if String.eqb mode "DCR" then ok (DepthToSpace_DCR_Module block_size "DCR")
  else if String.eqb mode "CRD" then ok (DepthToSpace_CRD_Module block_size "CRD")
  else raise ValueError ("Unknown mode: " +:+ mode).

(** The two spellings [create_model] accepts. *)
Inductive Mode := DCR | CRD.

Definition mode_name (md : Mode) : string :=
  match md with DCR => "DCR" | CRD => "CRD" end.

(** [create_model(block_size, mode)(x)], as [test_depth_to_space]
    builds and runs a model for each mode. *)
Definition transform {A} `{!Inhabited A} (x : Tensor A) (block_size : Z)
    (mode : string) : result (Tensor A) :=
  let* model := create_model block_size mode in
  Module_forward model x.

(** ** The input of [test_depth_to_space] *)

#[global] Instance Q_inhabited : Inhabited Q := populate 0%Q.

Definition Qz (l : list Z) : list Q := inject_Z <$> l.

Definition test_x : Tensor Q :=
  tensor_of
    (Qz [0; 2; 8; 10;  0; 2; 8; 10;  1; 3; 9; 11;  1; 3; 9; 11;
         4; 6; 12; 14; 4; 6; 12; 14; 5; 7; 13; 15; 5; 7; 13; 15])
    [1; 8; 2; 2].

(** ** The reference of the equivalence test *)

(** The canonical pixel shuffle, written from its defining equation
    [out[b, c, h*s + by, w*s + bx] = in[b, c*s*s + by*s + bx, h, w]]:
    the output coordinate [(bi, co, y, x)] reads the input at rows
    [y / s], [x / s] and block offsets [y mod s], [x mod s]. *)
Definition pixel_shuffle_element {A} `{!Inhabited A} (input : Tensor A)
    (s : Z) (o : list Z) : A :=
  match o with
  | [bi; co; y; x] =>
      get input [bi; co * s * s + (y mod s) * s + x mod s; y / s; x / s]
  | _ => inhabitant
  end.

Definition canonical_pixel_shuffle {A} `{!Inhabited A} (input : Tensor A)
    (s : Z) : result (Tensor A) :=
  let* '(b, c, h, w) := unpack4 (size input) in
  let sizes := [b; c / (s * s); h * s; w * s] in
  ok (tensor_of
        ((fun k => pixel_shuffle_element input s (unravel sizes k))
           <$> seqZ 0 (numel sizes))
        sizes).

(** [torch.allclose(input, other, rtol, atol)] on tensors of equal
    sizes: every pair of elements satisfies
    [|input - other| <= atol + rtol * |other|]. *)
Definition allclose (input other : Tensor Q) (rtol atol : Q) : bool :=
  bool_decide (size input = size other)
  && forallb
       (fun k =>
          let idx := unravel (size input) k in
          Qle_bool (Qabs (get input idx - get other idx))
                   (atol + rtol * Qabs (get other idx)))
       (seqZ 0 (numel (size input))).

(** The tolerances of the test: [atol=1e-6], and the default [rtol]. *)
Definition test_atol : Q := 1 # 1000000.
Definition default_rtol : Q := 1 # 100000.

(** The exception [create_model] raises for a mode it does not know. *)
Definition unknown_mode (mode : string) : exn :=
  Raise ValueError ("Unknown mode: " +:+ mode).

(** ** The index mapping *)

(** The input channel an output element is copied from, for output
    channel [co] and block offsets [by_] (row) and [bx] (column), with
    [C] output channels: in DCR the block offsets are the slow digits of
    the input channel, in CRD the output channel is. *)
Definition input_channel (md : Mode) (s C co by_ bx : Z) : Z :=
  match md with
  | DCR => by_ * s * C + bx * C + co
  | CRD => co * s * s + by_ * s + bx
  end.

(** The input coordinate an output coordinate is copied from. *)
Definition source_coord (md : Mode) (s C : Z) (o : list Z) : list Z :=
  match o with
  | [bi; co; y; x] => [bi; input_channel md s C co (y mod s) (x mod s); y / s; x / s]
  | _ => []
  end.


(** Every output position holds the element of one input position, and
    every input position is the source of exactly one output position. *)
Definition position_bijection {A} `{!Inhabited A} (md : Mode) (s C : Z)
    (x out : Tensor A) : Prop :=
  (forall o,
      in_range (size out) o ->
      in_range (size x) (source_coord md s C o) /\
      get out o = get x (source_coord md s C o)) /\
  (forall i,
      in_range (size x) i ->
      exists o,
        in_range (size out) o /\ source_coord md s C o = i /\
        forall o', in_range (size out) o' -> source_coord md s C o' = i -> o' = o).

(** ** Intermediate values of [forward] *)

(** The tensor [tmp.permute(0, 3, 4, 1, 5, 2)] of the DCR transform:
    the storage of the input seen with sizes [(b, C, h, s, w, s)]. *)
Definition DCR_permuted {A} (x : Tensor A) (b C h w s : Z) : Tensor A :=
  mkTensor (storage x) [b; C; h; s; w; s]
    [stride_prod [s; s; C; h; w]; stride_prod [h; w]; stride_prod [w];
     stride_prod [s; C; h; w]; stride_prod []; stride_prod [C; h; w]].

(** The tensor [tmp.permute(0, 1, 4, 2, 5, 3)] of the CRD transform. *)
Definition CRD_permuted {A} (x : Tensor A) (b C h w s : Z) : Tensor A :=
  mkTensor (storage x) [b; C; h; s; w; s]
    [stride_prod [C; s; s; h; w]; stride_prod [s; s; h; w]; stride_prod [w];
     stride_prod [s; h; w]; stride_prod []; stride_prod [h; w]].

(** The tensor [forward] returns: the storage of [tmp.contiguous()]
    viewed with sizes [(b, C, h*s, w*s)]. *)
Definition output_of {A} `{!Inhabited A} (tmp : Tensor A) (b C h w s : Z) : Tensor A :=
  mkTensor (storage (contiguous tmp)) [b; C; h * s; w * s]
    (contiguous_strides [b; C; h * s; w * s]).

Definition permuted {A} (md : Mode) : Tensor A -> Z -> Z -> Z -> Z -> Z -> Tensor A :=
  match md with
  | DCR => DCR_permuted
  | CRD => CRD_permuted
  end.


(** Strides that fit the sizes: every dimension of size other than 1
    has the row-major stride. *)
Fixpoint strides_fit (sizes strides : list Z) : Prop :=
  match sizes, strides with
  | [], [] => True
  | n :: sizes', st :: strides' =>
      (n = 1 \/ st = numel sizes') /\ strides_fit sizes' strides'
  | _, _ => False
  end.




(** What [forward] can raise: an error of the tensor library or of
    integer division, or the unpacking error of [input.size()]. *)
Definition forward_error (e : exn) : Prop :=
  exn_cls e = RuntimeError \/ exn_cls e = ZeroDivisionError \/
  e = Raise ValueError "not enough values to unpack (expected 4)" \/
  e = Raise ValueError "too many values to unpack (expected 4)".


(** The eager transform of a mode. *)
Definition forward_of {A} `{!Inhabited A} (md : Mode) (x : Tensor A)
    (block_size : Z) (mode : string) : result (Tensor A) :=
  match md with
  | DCR => DepthToSpace_DCR.forward tt x block_size mode
  | CRD => DepthToSpace_CRD.forward tt x block_size mode
  end.

(** * The path patcher (assets/fix_cmake_files.py)

    Text is a list of characters.  A file is read as UTF-8 and the
    patterns hold ASCII characters only, so matching on the characters
    of the text and on the bytes of its UTF-8 encoding agree; the
    characters are modelled as bytes. *)

Definition text : Type := list ascii.

Definition slash : ascii := "/"%char.
Definition dollar : ascii := "$"%char.
Definition backslash : ascii := "\"%char.
Definition newline : ascii := "010"%char.

(** The prefix the lookbehind of both patterns looks for, whatever the
    configured prefix is. *)
Definition sysroot_guard : text := list_ascii_of_string "${CMAKE_SYSROOT}".

Fixpoint starts_with (p l : text) : bool :=
  match p, l with
  | [], _ => true
  | a :: p', c :: l' => Ascii.eqb a c && starts_with p' l'
  | _ :: _, [] => false
  end.

(** [(?<!\$\{CMAKE_SYSROOT\})] at a position: the text before it, read
    backwards, does not start with the guard read backwards. *)
Definition lookbehind_guard (before_rev : text) : bool :=
  starts_with (rev sysroot_guard) before_rev.

(** [$]: the end of the text, or just before a newline that ends it. *)
Definition at_dollar (rest : text) : bool :=
  match rest with
  | [] => true
  | [c] => Ascii.eqb c newline
  | _ => false
  end.

(** [(?=/|$)] *)
Definition lookahead (rest : text) : bool :=
  starts_with [slash] rest || at_dollar rest.

(** A pattern [(?<!\$\{CMAKE_SYSROOT\})(lit)(?=/|$)] is given by its
    literal; it matches at a position when the guard does not precede
    it, the literal follows and the lookahead holds after the literal. *)
Definition pattern_usr : text := list_ascii_of_string "/usr".
Definition pattern_opt : text := list_ascii_of_string "/opt".

Definition matches_at (lit before_rev rest : text) : bool :=
  negb (lookbehind_guard before_rev)
  && starts_with lit rest
  && lookahead (drop (length lit) rest).

(** [re.search(pattern, text) is not None], from a position on. *)
Fixpoint has_match (lit before_rev rest : text) : bool :=
  match rest with
  | [] => false
  | c :: rest' =>
      matches_at lit before_rev rest || has_match lit (c :: before_rev) rest'
  end.

(** [re.subn(pattern, repl, text)] for such a pattern and an expanded
    replacement [repl]: the text is scanned from the left; at a match
    the replacement is written and the literal skipped, otherwise the
    character is copied.  The lookbehind reads the scanned text, not
    the output. *)
Fixpoint subn_scan (repl lit : text) (skip : nat) (before_rev rest : text)
    : text * nat :=
  match rest with
  | [] => ([], 0%nat)
  | c :: rest' =>
      match skip with
      | S k => subn_scan repl lit k (c :: before_rev) rest'
      | O =>
          if matches_at lit before_rev rest then
            let '(out, n) := subn_scan repl lit (length lit - 1) (c :: before_rev) rest' in
            (repl ++ out, S n)
          else
            let '(out, n) := subn_scan repl lit 0 (c :: before_rev) rest' in
            (c :: out, n)
      end
  end.

Definition subn (repl lit content : text) : text * nat :=
  subn_scan repl lit 0 [] content.

Record PathReplacer := mkPathReplacer {
  cmake_sysroot_var : text;
  patterns : list text
}.

(** [PathReplacer.__init__]: the patterns do not depend on the prefix. *)
Definition PathReplacer_init (cmake_sysroot_var : text) : PathReplacer :=
  mkPathReplacer cmake_sysroot_var [pattern_usr; pattern_opt].

Definition default_sysroot_var : text := list_ascii_of_string "${CMAKE_SYSROOT}".

Section ReplacePaths.

(** The replacement is the template [cmake_sysroot_var] followed by a
    reference to group 1.  A prefix without backslash stands for itself;
    what [re] makes of a prefix with backslashes (an escape, a group
    reference, or [re.error], here [None]) is a parameter.  The template
    is read before the scan, so its error is raised even without a
    match. *)
Variable template_escape : text -> text -> option text.

Definition expand_template (var group1 : text) : option text :=
  if existsb (Ascii.eqb backslash) var then template_escape var group1
  else Some (var ++ group1).

(** One turn of the loop of [replace_paths]. *)
Definition replace_pattern (var lit content : text) : option text :=
  match expand_template var lit with
  | None => None
  | Some repl =>
      let '(new_content, count) := subn repl lit content in
      if (0 <? count)%nat then Some new_content else Some content
  end.

Fixpoint replace_patterns (var : text) (pats : list text) (content : text)
    : option text :=
  match pats with
  | [] => Some content
  | lit :: pats' =>
      match replace_pattern var lit content with
      | None => None
      | Some content' => replace_patterns var pats' content'
      end
  end.

(** [PathReplacer.replace_paths]; [None] is an uncaught [re.error]. *)
Definition replace_paths (self : PathReplacer) (content : text) : option text :=
  replace_patterns (cmake_sysroot_var self) (patterns self) content.

End ReplacePaths.

(** The reading of the scan used in the proofs: the prefix [v] is
    inserted before every position where the pattern matches. *)
Fixpoint insert_scan (v lit before_rev rest : text) : text :=
  match rest with
  | [] => []
  | c :: rest' =>
      (if matches_at lit before_rev rest then v else [])
        ++ c :: insert_scan v lit (c :: before_rev) rest'
  end.

(** A literal of the two patterns: a slash, then characters that are
    neither a slash nor a dollar. *)
Definition plain_literal (lit : text) : Prop :=
  exists tail,
    lit = slash :: tail /\ Forall (fun c => c <> slash /\ c <> dollar) tail.

(** The scanned text and the output agree behind a position up to the
    last slash. *)
Definition agree_behind (b b' : text) : Prop :=
  forall p, Forall (fun c => c <> slash) p -> p `prefix_of` b -> p `prefix_of` b'.

(** Every match of [lit'] is a match of [lit], from a position on. *)
Fixpoint covered (lit lit' before_rev rest : text) : Prop :=
  match rest with
  | [] => True
  | c :: rest' =>
      (matches_at lit' before_rev rest = true -> matches_at lit before_rev rest = true)
      /\ covered lit lit' (c :: before_rev) rest'
  end.

(** * Paths ([posixpath], as both file tools use it)

    A path is a text.  The functions below follow the library's
    [posixpath]: [join] on two paths, [normpath], [abspath] and
    [relpath]; the current directory, which [abspath] asks the system
    for, is a parameter [cwd]. *)

Definition curdir : text := list_ascii_of_string ".".
Definition pardir : text := list_ascii_of_string "..".

(** [s.split('/')] *)
Fixpoint split_sep (s : text) : list text :=
  match s with
  | [] => [[]]
  | c :: s' =>
      if Ascii.eqb c slash then [] :: split_sep s'
      else match split_sep s' with
           | comp :: comps => (c :: comp) :: comps
           | [] => [[c]]
           end
  end.

(** ['/'.join(comps)] *)
Fixpoint join_sep (comps : list text) : text :=
  match comps with
  | [] => []
  | [comp] => comp
  | comp :: comps' => comp ++ slash :: join_sep comps'
  end.

Definition is_nil {X} (s : list X) : bool := match s with [] => true | _ => false end.

Definition text_eqb (s t : text) : bool := bool_decide (s = t).

Definition ends_with_sep (s : text) : bool :=
  match last s with Some c => Ascii.eqb c slash | None => false end.

Definition isabs (s : text) : bool := starts_with [slash] s.

(** [os.path.join(a, b)] *)
Definition path_join (a b : text) : text :=
  if starts_with [slash] b then b
  else if is_nil a || ends_with_sep a then a ++ b
  else a ++ slash :: b.

(** [os.path.join] of several components, the first given apart. *)
Definition path_join_all (a : text) (ps : list text) : text :=
  fold_left path_join ps a.

(** The number of leading slashes [normpath] keeps: two when the path
    starts with exactly two, one when it starts with any other number. *)
Definition initial_slashes (path : text) : nat :=
  if starts_with [slash] path then
    if starts_with [slash; slash] path && negb (starts_with [slash; slash; slash] path)
    then 2 else 1
  else 0.

(** One turn of the loop of [normpath] over the components. *)
Definition norm_step (initial : nat) (new_comps : list text) (comp : text)
    : list text :=
  if is_nil comp || text_eqb comp curdir then new_comps
  else if negb (text_eqb comp pardir)
          || ((initial =? 0)%nat && is_nil new_comps)
          || match last new_comps with
             | Some l => text_eqb l pardir
             | None => false
             end
  then new_comps ++ [comp]
  else removelast new_comps.

Definition normpath (path : text) : text :=
  if is_nil path then curdir
  else
    let initial := initial_slashes path in
    let comps := fold_left (norm_step initial) (split_sep path) [] in
    let path' := repeat slash initial ++ join_sep comps in
    if is_nil path' then curdir else path'.

Definition abspath (cwd path : text) : text :=
  if isabs path then normpath path else normpath (path_join cwd path).

(** [len(commonprefix([l1, l2]))] *)
Fixpoint common_prefix_length (l1 l2 : list text) : nat :=
  match l1, l2 with
  | a :: l1', b :: l2' =>
      if text_eqb a b then S (common_prefix_length l1' l2') else 0
  | _, _ => 0
  end.

Definition path_components (path : text) : list text :=
  filter (fun x => is_nil x = false) (split_sep path).

(** [os.path.relpath(path, start)]; [None] is its [ValueError] on an
    empty path. *)
Definition relpath (cwd path start : text) : option text :=
  if is_nil path then None
  else
    let start_list := path_components (abspath cwd start) in
    let path_list := path_components (abspath cwd path) in
    let i := common_prefix_length start_list path_list in
    let rel_list := repeat pardir (length start_list - i) ++ drop i path_list in
    match rel_list with
    | [] => Some curdir
    | a :: ps => Some (path_join_all a ps)
    end.

(** A component of a normalized absolute path: not empty, neither [.]
    nor [..], without slash. *)
Definition clean_component (comp : text) : Prop :=
  comp <> [] /\ comp <> curdir /\ comp <> pardir /\ Forall (fun c => c <> slash) comp.

(** The components [normpath] ends its loop with. *)
Definition norm_components (path : text) : list text :=
  fold_left (norm_step (initial_slashes path)) (split_sep path) [].

(** * The symlink tool (assets/fix_rootfs_softlink.py)

    The file system is seen through the calls the tool makes: reading a
    link, removing a file, creating a link and testing for a link, each
    of which may fail ([None] is the [OSError]).  What [os.walk] yields
    for the top directory is a list of directories with their files. *)

Record SymlinkConverter := mkSymlinkConverter { topdir : text }.

(** [SymlinkConverter.__init__] *)
Definition SymlinkConverter_init (cwd topdir : text) : SymlinkConverter :=
  mkSymlinkConverter (abspath cwd topdir).

Section SymlinkTool.
Context {FS : Type}.
Variable readlink : FS -> text -> option text.
Variable unlink : FS -> text -> option FS.
Variable symlink : FS -> text -> text -> option FS.
Variable islink : FS -> text -> bool.
Variable cwd : text.

(** [handle_link]: [None] is an exception that leaves the function (the
    [OSError] of [readlink], the [ValueError] of [relpath]); the errors
    of [unlink] and [symlink] are caught, so a failed [symlink] leaves
    the file removed. *)
Definition handle_link (self : SymlinkConverter) (fs : FS) (filep subdir : text)
    : option FS :=
  match readlink fs filep with
  | None => None
  | Some link =>
      if negb (starts_with [slash] link) || starts_with (topdir self) link
      then Some fs
      else
        match relpath cwd (topdir self ++ link) subdir with
        | None => None
        | Some new_link =>
            match unlink fs filep with
            | None => Some fs
            | Some fs1 =>
                match symlink fs1 new_link filep with
                | None => Some fs1
                | Some fs2 => Some fs2
                end
            end
        end
  end.

(** The loop of [convert_symlinks] over the files of one directory that
    [walk_directory] yields: the generator is lazy, so each file is
    tested for a link when its turn comes. *)
Fixpoint convert_files (self : SymlinkConverter) (subdir : text)
    (files : list text) (fs : FS) : option FS :=
  match files with
  | [] => Some fs
  | f :: files' =>
      let filep := path_join subdir f in
      if islink fs filep then
        match handle_link self fs filep subdir with
        | None => None
        | Some fs' => convert_files self subdir files' fs'
        end
      else convert_files self subdir files' fs
  end.

Fixpoint convert_symlinks (self : SymlinkConverter)
    (walk : list (text * list text)) (fs : FS) : option FS :=
  match walk with
  | [] => Some fs
  | (subdir, files) :: walk' =>
      match convert_files self subdir files fs with
      | None => None
      | Some fs' => convert_symlinks self walk' fs'
      end
  end.

(** What the tool is run for, at one path: a link there, if any, is
    relative or leads into [topdir]. *)
Definition stays_inside (self : SymlinkConverter) (fs : FS) (p : text) : Prop :=
  forall link, readlink fs p = Some link ->
    negb (starts_with [slash] link) || starts_with (topdir self) link = true.

End SymlinkTool.

(** The paths [walk_directory] joins from what [os.walk] yields. *)
Definition walked_paths (walk : list (text * list text)) : list text :=
  flat_map (fun '(subdir, files) => map (path_join subdir) files) walk.

(** ** Processing a file (assets/fix_cmake_files.py)

    The file system is seen through the calls [process_file] makes:
    reading the text of a file ([None] is the [IOError]), writing a text
    and copying a file, which return the file system they leave and
    whether they succeeded (a failed write or copy may have changed the
    file it was writing). *)

Record CMakeFileProcessor := mkCMakeFileProcessor {
  replacer : PathReplacer;
  backup : bool
}.

Definition bak_suffix : text := list_ascii_of_string ".bak".

Section ProcessFile.
Context {FS : Type}.
Variable read_text : FS -> text -> option text.
Variable write_text : FS -> text -> text -> FS * bool.
Variable copy2 : FS -> text -> text -> FS * bool.
Variable template_escape : text -> text -> option text.

(** [_create_backup]: the error of the copy is caught and logged. *)
Definition _create_backup (fs : FS) (file_path : text) : FS :=
  fst (copy2 fs file_path (file_path ++ bak_suffix)).

(** [process_file]: the result of the call with the file system it
    leaves; [None] is a [re.error], which is not caught. *)
Definition process_file (self : CMakeFileProcessor) (fs : FS) (file_path : text)
    : option (bool * FS) :=
  match read_text fs file_path with
  | None => Some (false, fs)
  | Some content =>
      match replace_paths template_escape (replacer self) content with
      | None => None
      | Some updated_content =>
          if negb (text_eqb updated_content content) then
            let fs1 := if backup self then _create_backup fs file_path else fs in
            let '(fs2, written) := write_text fs1 file_path updated_content in
            Some (written, fs2)
          else Some (false, fs)
      end
  end.

End ProcessFile.

Definition cr : ascii := "013"%char.
Definition lf : ascii := "010"%char.

(** ** The log and the run (assets/fix_cmake_files.py) *)

(** [str.endswith] *)
Definition endswith (suffix s : text) : bool := starts_with (rev suffix) (rev s).

Record LogWriter := mkLogWriter {
  rootfs_dir : text;
  log_file_path : text;
  modified_files : list text
}.

Definition LogWriter_init (rootfs_dir : text) : LogWriter :=
  mkLogWriter rootfs_dir
    (path_join rootfs_dir (list_ascii_of_string "fix_cmake_files.log")) [].

(** [log_modified_file]: [None] is the [ValueError] of [relpath]. *)
Definition log_modified_file (cwd : text) (self : LogWriter) (file_path : text)
    : option LogWriter :=
  match relpath cwd file_path (rootfs_dir self) with
  | None => None
  | Some relative_path =>
      Some (mkLogWriter (rootfs_dir self) (log_file_path self)
              (modified_files self ++ [relative_path]))
  end.

(** What [write_log] writes, call by call; [now] is the formatted
    time. *)
Definition log_chunks (now : text) (self : LogWriter) : list text :=
  (lf :: list_ascii_of_string "--- Run at " ++ now
      ++ list_ascii_of_string " ---" ++ [lf])
  :: map (fun file_path => list_ascii_of_string "Modified: " ++ file_path ++ [lf])
       (modified_files self).

Record FixCMakeFilesApp := mkFixCMakeFilesApp {
  app_rootfs_dir : text;
  app_replacer : PathReplacer;
  processor : CMakeFileProcessor;
  log_writer : LogWriter
}.

Definition FixCMakeFilesApp_init (cwd rootfs_dir : text) (backup : bool)
    : FixCMakeFilesApp :=
  let rootfs := abspath cwd rootfs_dir in
  let replacer := PathReplacer_init default_sysroot_var in
  mkFixCMakeFilesApp rootfs replacer (mkCMakeFileProcessor replacer backup)
    (LogWriter_init rootfs).

(** The application as [main] leaves it before the run: built with the
    default prefix, then given the replacer of the [--sysroot]
    argument. *)
Definition main_app (cwd directory : text) (no_backup : bool) (sysroot : text)
    : FixCMakeFilesApp :=
  let replacer := PathReplacer_init sysroot in
  let app := FixCMakeFilesApp_init cwd directory (negb no_backup) in
  mkFixCMakeFilesApp (app_rootfs_dir app) replacer
    (mkCMakeFileProcessor replacer (backup (processor app)))
    (log_writer app).

Definition cmake_or_pc (file : text) : bool :=
  endswith (list_ascii_of_string ".cmake") file
  || endswith (list_ascii_of_string ".pc") file.

(** The paths [run] hands to [process_file], from what [os.walk]
    yields. *)
Definition processed_paths (walk : list (text * list text)) : list text :=
  flat_map (fun '(subdir, files) =>
              map (path_join subdir) (List.filter cmake_or_pc files)) walk.

Section Run.
Context {FS : Type}.
Variable read_text : FS -> text -> option text.
Variable write_text : FS -> text -> text -> FS * bool.
Variable copy2 : FS -> text -> text -> FS * bool.
Variable append_text : FS -> text -> list text -> FS * bool.
Variable template_escape : text -> text -> option text.
Variable cwd : text.
Variable now : text.

(** [write_log]: the file is opened for appending and the chunks are
    written; the [IOError] is caught. *)
Definition write_log (self : LogWriter) (fs : FS) : FS :=
  fst (append_text fs (log_file_path self) (log_chunks now self)).

(** The inner loop of [run], over the files of one directory. *)
Fixpoint run_files (proc : CMakeFileProcessor) (subdir : text) (files : list text)
    (fs : FS) (lw : LogWriter) : option (FS * LogWriter) :=
  match files with
  | [] => Some (fs, lw)
  | file :: files' =>
      if cmake_or_pc file then
        let file_path := path_join subdir file in
        match process_file read_text write_text copy2 template_escape proc fs file_path with
        | None => None
        | Some (true, fs') =>
            match log_modified_file cwd lw file_path with
            | None => None
            | Some lw' => run_files proc subdir files' fs' lw'
            end
        | Some (false, fs') => run_files proc subdir files' fs' lw
        end
      else run_files proc subdir files' fs lw
  end.

Fixpoint run_walk (proc : CMakeFileProcessor) (walk : list (text * list text))
    (fs : FS) (lw : LogWriter) : option (FS * LogWriter) :=
  match walk with
  | [] => Some (fs, lw)
  | (subdir, files) :: walk' =>
      match run_files proc subdir files fs lw with
      | None => None
      | Some (fs', lw') => run_walk proc walk' fs' lw'
      end
  end.

(** [run]: the file system and the log writer it leaves. *)
Definition run (self : FixCMakeFilesApp) (walk : list (text * list text)) (fs : FS)
    : option (FS * LogWriter) :=
  match run_walk (processor self) walk fs (log_writer self) with
  | None => None
  | Some (fs', lw) => Some (write_log lw fs', lw)
  end.

(** A file at [p], if it can be read, has no path left to patch. *)
Definition patched (fs : FS) (p : text) : Prop :=
  forall t, read_text fs p = Some t ->
    has_match pattern_usr [] t = false /\ has_match pattern_opt [] t = false.

End Run.

(** ** Stores for the examples

    A store of texts by path, on which every call succeeds that can:
    reading needs the file, writing and copying need nothing more. *)

Definition store : Type := text -> option text.

Definition store_set (fs : store) (p : text) (v : option text) : store :=
  fun q => if text_eqb q p then v else fs q.

Definition store_read (fs : store) (p : text) : option text := fs p.

(** A file opened for reading in text mode has its line ends
    translated: a carriage return, with the line feed after it if there
    is one, is read as a line feed. *)
Fixpoint universal_newlines (t : text) : text :=
  match t with
  | [] => []
  | c :: t' =>
      if Ascii.eqb c cr then
        lf :: match t' with
              | d :: t'' =>
                  if Ascii.eqb d lf then universal_newlines t''
                  else universal_newlines t'
              | [] => []
              end
      else c :: universal_newlines t'
  end.

Definition store_read_text (fs : store) (p : text) : option text :=
  option_map universal_newlines (fs p).

Definition store_islink (fs : store) (p : text) : bool :=
  match fs p with
  | Some _ => true
  | None => false
  end.

Definition store_write (fs : store) (p t : text) : store * bool :=
  (store_set fs p (Some t), true).

Definition store_append (fs : store) (p : text) (chunks : list text) : store * bool :=
  (store_set fs p (Some (match fs p with Some t => t | None => [] end ++ concat chunks)),
   true).

Definition store_copy2 (fs : store) (src dst : text) : store * bool :=
  match fs src with
  | Some t => (store_set fs dst (Some t), true)
  | None => (fs, false)
  end.

(** Links by path: a link can be removed when it is there and created
    when nothing is. *)
Definition store_unlink (fs : store) (p : text) : option store :=
  match fs p with
  | Some _ => Some (store_set fs p None)
  | None => None
  end.

Definition store_symlink (fs : store) (target p : text) : option store :=
  match fs p with
  | Some _ => None
  | None => Some (store_set fs p (Some target))
  end.

Definition example_cmake_store : store :=
  store_set (fun _ => None) (list_ascii_of_string "/sysroot/usr/lib/cmake/Foo.cmake")
    (Some (list_ascii_of_string "set(FOO_INCLUDE_DIR /usr/include/foo)")).

Definition example_sysroot : SymlinkConverter :=
  mkSymlinkConverter (list_ascii_of_string "/sysroot").

Definition example_link : text := list_ascii_of_string "/sysroot/usr/lib/libc.so".

Definition example_link_store : store :=
  store_set (fun _ => None) example_link (Some (list_ascii_of_string "/lib/libc.so.6")).

Definition example_walk : list (text * list text) :=
  [(list_ascii_of_string "/sysroot/usr/lib", [list_ascii_of_string "libc.so"])].

Definition example_processor : CMakeFileProcessor :=
  mkCMakeFileProcessor (PathReplacer_init default_sysroot_var) true.

Definition example_cmake_file : text :=
  list_ascii_of_string "/sysroot/usr/lib/cmake/Foo.cmake".

Definition example_patched_store : store :=
  store_set (fun _ => None) (list_ascii_of_string "/sysroot/usr/lib/cmake/Foo.cmake")
    (Some (list_ascii_of_string "set(FOO_INCLUDE_DIR ${CMAKE_SYSROOT}/usr/include/foo)")).

Definition example_cmake_walk : list (text * list text) :=
  [(list_ascii_of_string "/sysroot/usr/lib/cmake",
    [list_ascii_of_string "Foo.cmake"; list_ascii_of_string "README"])].

(** * Index arithmetic *)

Section IndexArithmetic.

Lemma numel_cons n sizes : numel (n :: sizes) = n * numel sizes.
Proof. reflexivity. Qed.

Lemma numel_nonneg sizes : Forall (fun n => 0 <= n) sizes -> 0 <= numel sizes.
Proof.
  induction 1 as [|n sizes Hn _ IH]; simpl; [lia|].
  apply Z.mul_nonneg_nonneg; assumption.
Qed.

Lemma numel_pos sizes : Forall (fun n => 0 < n) sizes -> 0 < numel sizes.
Proof.
  induction 1 as [|n sizes Hn _ IH]; simpl; [lia|].
  apply Z.mul_pos_pos; assumption.
Qed.

(** Non-negative sizes with a non-zero product are all positive. *)
Lemma sizes_pos sizes :
  Forall (fun n => 0 <= n) sizes -> numel sizes <> 0 ->
  Forall (fun n => 0 < n) sizes.
Proof.
  induction 1 as [|n sizes Hn _ IH]; intros Hne; constructor.
  - rewrite numel_cons in Hne. destruct (Z.eq_dec n 0); [subst; lia | lia].
  - apply IH. rewrite numel_cons in Hne. intros E. rewrite E in Hne. lia.
Qed.

Lemma in_range_pos sizes idx :
  in_range sizes idx -> Forall (fun n => 0 < n) sizes.
Proof. induction 1; constructor; [lia | assumption]. Qed.

Lemma stride_prod_numel sizes :
  Forall (fun n => 0 < n) sizes -> stride_prod sizes = numel sizes.
Proof.
  induction 1 as [|n sizes Hn _ IH]; simpl; [reflexivity|].
  change (Z.max n 1 * stride_prod sizes = n * numel sizes).
  rewrite IH, Z.max_l by lia. reflexivity.
Qed.

(** Quotient and remainder of a two-digit number in base [p]. *)
Lemma div_digit i r p : 0 <= r < p -> (i * p + r) / p = i.
Proof. intros H. symmetry. apply Z.div_unique with r; lia. Qed.

Lemma mod_digit i r p : 0 <= r < p -> (i * p + r) mod p = r.
Proof. intros H. symmetry. apply Z.mod_unique with i; lia. Qed.

Lemma ravel_bounds sizes idx :
  in_range sizes idx -> 0 <= ravel sizes idx < numel sizes.
Proof.
  induction 1 as [|n i sizes idx Hi Hrest IH]; simpl; [lia|].
  pose proof (numel_pos _ (in_range_pos _ _ Hrest)). nia.
Qed.

Lemma unravel_ravel sizes idx :
  in_range sizes idx -> unravel sizes (ravel sizes idx) = idx.
Proof.
  induction 1 as [|n i sizes idx Hi Hrest IH]; simpl; [reflexivity|].
  pose proof (ravel_bounds _ _ Hrest) as Hb.
  rewrite div_digit, mod_digit, IH by assumption. reflexivity.
Qed.

Lemma unravel_in_range sizes k :
  Forall (fun n => 0 < n) sizes -> 0 <= k < numel sizes ->
  in_range sizes (unravel sizes k).
Proof.
  intros Hpos. revert k.
  induction Hpos as [|n sizes Hn Hpos IH]; intros k Hk; simpl.
  - constructor.
  - pose proof (numel_pos _ Hpos) as Hp. rewrite numel_cons in Hk.
    constructor.
    + split.
      * apply Z.div_pos; lia.
      * apply Z.div_lt_upper_bound; lia.
    + apply IH. apply Z.mod_pos_bound. assumption.
Qed.

Lemma ravel_unravel sizes k :
  Forall (fun n => 0 < n) sizes -> 0 <= k < numel sizes ->
  ravel sizes (unravel sizes k) = k.
Proof.
  intros Hpos. revert k.
  induction Hpos as [|n sizes Hn Hpos IH]; intros k Hk; simpl.
  - simpl in Hk. lia.
  - pose proof (numel_pos _ Hpos) as Hp.
    rewrite IH by (apply Z.mod_pos_bound; assumption).
    rewrite (Z.div_mod k (numel sizes)) at 3 by lia. lia.
Qed.

Lemma offset_contiguous_strides sizes idx :
  in_range sizes idx -> offset_of idx (contiguous_strides sizes) = ravel sizes idx.
Proof.
  induction 1 as [|n i sizes idx Hi Hrest IH]; simpl; [reflexivity|].
  rewrite IH, stride_prod_numel by (eapply in_range_pos; eassumption).
  reflexivity.
Qed.

Lemma contiguous_from_numel sizes strides z :
  contiguous_from sizes strides = Some z -> z = numel sizes.
Proof.
  revert strides z. induction sizes as [|n sizes IH]; intros [|st strides] z; simpl;
    try discriminate.
  - intros [= <-]. reflexivity.
  - destruct (contiguous_from sizes strides) as [z'|] eqn:E; [|discriminate].
    apply IH in E. subst z'.
    destruct (Z.eqb_spec n 1) as [->|_].
    + intros [= <-]. lia.
    + destruct (Z.eqb_spec st (numel sizes)); [|discriminate].
      intros [= <-]. lia.
Qed.

Lemma contiguous_from_offset sizes strides z idx :
  contiguous_from sizes strides = Some z -> in_range sizes idx ->
  offset_of idx strides = ravel sizes idx.
Proof.
  intros Hc Hr. revert strides z Hc.
  induction Hr as [|n i sizes idx Hi Hrest IH]; intros [|st strides] z; simpl;
    try discriminate; [reflexivity|].
  destruct (contiguous_from sizes strides) as [z'|] eqn:E; [|discriminate].
  rewrite (IH _ _ E). apply contiguous_from_numel in E. subst z'.
  destruct (Z.eqb_spec n 1) as [->|_].
  - intros _. replace i with 0 by lia. lia.
  - destruct (Z.eqb_spec st (numel sizes)) as [->|]; [|discriminate].
    reflexivity.
Qed.

(** Two digits [hi < n] and [lo < p] make a number below [n * p]. *)
Lemma two_digits_bound hi lo n p :
  0 <= hi < n -> 0 <= lo < p -> 0 <= hi * p + lo < n * p.
Proof. intros Hh Hl. nia. Qed.

Lemma DCR_channel_bounds s C co by_ bx :
  0 <= co < C -> 0 <= by_ < s -> 0 <= bx < s ->
  0 <= by_ * s * C + bx * C + co < s * s * C.
Proof.
  intros Hco Hby Hbx.
  pose proof (two_digits_bound by_ bx s s Hby Hbx) as H1.
  pose proof (two_digits_bound (by_ * s + bx) co (s * s) C H1 Hco) as H2.
  lia.
Qed.

Lemma CRD_channel_bounds s C co by_ bx :
  0 <= co < C -> 0 <= by_ < s -> 0 <= bx < s ->
  0 <= co * s * s + by_ * s + bx < s * s * C.
Proof.
  intros Hco Hby Hbx.
  pose proof (two_digits_bound by_ bx s s Hby Hbx) as H1.
  pose proof (two_digits_bound co (by_ * s + bx) C (s * s) Hco H1) as H2.
  lia.
Qed.

Lemma digits_unique hi lo hi' lo' p :
  0 <= lo < p -> 0 <= lo' < p -> hi * p + lo = hi' * p + lo' ->
  hi = hi' /\ lo = lo'.
Proof.
  intros Hl Hl' E. split.
  - rewrite <- (div_digit hi lo p Hl), <- (div_digit hi' lo' p Hl'), E. reflexivity.
  - rewrite <- (mod_digit hi lo p Hl), <- (mod_digit hi' lo' p Hl'), E. reflexivity.
Qed.

Lemma input_channel_bounds md s C co by_ bx :
  0 <= co < C -> 0 <= by_ < s -> 0 <= bx < s ->
  0 <= input_channel md s C co by_ bx < C * s * s.
Proof.
  intros Hco Hby Hbx. destruct md; simpl.
  - pose proof (DCR_channel_bounds s C co by_ bx Hco Hby Hbx). lia.
  - pose proof (CRD_channel_bounds s C co by_ bx Hco Hby Hbx). lia.
Qed.

Lemma input_channel_inj md s C co by_ bx co' by' bx' :
  0 <= co < C -> 0 <= by_ < s -> 0 <= bx < s ->
  0 <= co' < C -> 0 <= by' < s -> 0 <= bx' < s ->
  input_channel md s C co' by' bx' = input_channel md s C co by_ bx ->
  co' = co /\ by' = by_ /\ bx' = bx.
Proof.
  intros Hco Hby Hbx Hco' Hby' Hbx' E. destruct md; simpl in E.
  - destruct (digits_unique (by' * s + bx') co' (by_ * s + bx) co C) as [E1 E2];
      [lia | lia | lia |].
    destruct (digits_unique by' bx' by_ bx s) as [E3 E4]; [lia | lia | lia |].
    auto.
  - pose proof (two_digits_bound by_ bx s s Hby Hbx).
    pose proof (two_digits_bound by' bx' s s Hby' Hbx').
    destruct (digits_unique co' (by' * s + bx') co (by_ * s + bx) (s * s)) as [E1 E2];
      [lia | lia | lia |].
    destruct (digits_unique by' bx' by_ bx s) as [E3 E4]; [lia | lia | lia |].
    auto.
Qed.

Lemma input_channel_surj md s C ci :
  1 <= s -> 0 <= ci < C * s * s ->
  exists co by_ bx,
    (0 <= co < C /\ 0 <= by_ < s /\ 0 <= bx < s) /\
    input_channel md s C co by_ bx = ci.
Proof.
  intros Hs Hci.
  assert (0 < C) as HC by nia.
  assert (0 < s * s) as Hss by nia.
  destruct md; simpl.
  - exists (ci mod C), (ci / C / s), ((ci / C) mod s).
    pose proof (Z.mod_pos_bound ci C HC).
    pose proof (Z.mod_pos_bound (ci / C) s ltac:(lia)).
    assert (0 <= ci / C < s * s) as Hq
      by (split; [apply Z.div_pos; lia | apply Z.div_lt_upper_bound; lia]).
    assert (0 <= ci / C / s < s)
      by (split; [apply Z.div_pos; lia | apply Z.div_lt_upper_bound; lia]).
    split; [lia|].
    pose proof (Z.div_mod ci C ltac:(lia)) as E1.
    pose proof (Z.div_mod (ci / C) s ltac:(lia)) as E2.
    replace (ci / C / s * s * C + (ci / C) mod s * C + ci mod C)
      with ((s * (ci / C / s) + (ci / C) mod s) * C + ci mod C) by ring.
    rewrite <- E2. lia.
  - exists (ci / (s * s)), (ci mod (s * s) / s), ((ci mod (s * s)) mod s).
    pose proof (Z.mod_pos_bound ci (s * s) Hss).
    pose proof (Z.mod_pos_bound (ci mod (s * s)) s ltac:(lia)).
    assert (0 <= ci / (s * s) < C)
      by (split; [apply Z.div_pos; lia | apply Z.div_lt_upper_bound; lia]).
    assert (0 <= ci mod (s * s) / s < s)
      by (split; [apply Z.div_pos; lia | apply Z.div_lt_upper_bound; lia]).
    split; [lia|].
    pose proof (Z.div_mod ci (s * s) ltac:(lia)) as E1.
    pose proof (Z.div_mod (ci mod (s * s)) s ltac:(lia)) as E2.
    replace (ci / (s * s) * s * s + ci mod (s * s) / s * s + (ci mod (s * s)) mod s)
      with (s * s * (ci / (s * s))
            + (s * (ci mod (s * s) / s) + (ci mod (s * s)) mod s)) by ring.
    rewrite <- E2. lia.
Qed.


(** A number below [n * s] splits into a row digit and a block digit. *)
Lemma split_digit y n s :
  1 <= s -> 0 <= y < n * s ->
  0 <= y / s < n /\ 0 <= y mod s < s /\ y = y / s * s + y mod s.
Proof.
  intros Hs Hy.
  pose proof (Z.mod_pos_bound y s ltac:(lia)).
  pose proof (Z.div_mod y s ltac:(lia)).
  repeat split; try lia.
  - apply Z.div_pos; lia.
  - apply Z.div_lt_upper_bound; lia.
Qed.

Lemma contiguous_from_strides sizes :
  Forall (fun n => 0 < n) sizes ->
  contiguous_from sizes (contiguous_strides sizes) = Some (numel sizes).
Proof.
  induction 1 as [|n sizes Hn Hpos IH]; simpl; [reflexivity|].
  rewrite IH, stride_prod_numel, Z.eqb_refl by assumption.
  destruct (Z.eqb_spec n 1) as [->|_]; f_equal; lia.
Qed.

End IndexArithmetic.

(** * Tensor operations *)

Section TensorLemmas.
Context {A : Type} `{!Inhabited A}.
Implicit Types t x : Tensor A.

Lemma scan_shape_nonneg shape pos acc inf :
  Forall (fun n => 0 <= n) shape ->
  scan_shape shape pos acc inf = ok (acc * numel shape, inf).
Proof.
  intros H. revert pos acc.
  induction H as [|d shape Hd _ IH]; intros pos acc; simpl.
  - f_equal. f_equal. lia.
  - destruct (Z.eqb_spec d (-1)); [lia|].
    destruct (Z.leb_spec 0 d); [|lia].
    rewrite IH. f_equal. f_equal. lia.
Qed.

Lemma infer_size_nonneg shape n :
  Forall (fun d => 0 <= d) shape ->
  infer_size shape n =
    if n =? numel shape then ok shape
    else raise RuntimeError "shape is invalid for input size".
Proof.
  intros H. unfold infer_size. rewrite scan_shape_nonneg by assumption.
  simpl. rewrite Z.mul_1_l. reflexivity.
Qed.

(** A view with explicit non-negative sizes succeeds exactly when the
    number of elements is kept. *)
Lemma view_nonneg t shape :
  Forall (fun d => 0 <= d) shape -> is_contiguous t = true ->
  view t shape =
    if numel (size t) =? numel shape
    then ok (mkTensor (storage t) shape (contiguous_strides shape))
    else raise RuntimeError "shape is invalid for input size".
Proof.
  intros Hs Hc. unfold view. rewrite infer_size_nonneg by assumption.
  destruct (numel (size t) =? numel shape); simpl; [|reflexivity].
  rewrite Hc. reflexivity.
Qed.

Lemma is_contiguous_offset t idx :
  is_contiguous t = true -> in_range (size t) idx ->
  offset_of idx (stride t) = ravel (size t) idx.
Proof.
  unfold is_contiguous. intros Hc Hr.
  pose proof (numel_pos _ (in_range_pos _ _ Hr)) as Hp.
  destruct (Z.eqb_spec (numel (size t)) 0); [lia|]. simpl in Hc.
  destruct (contiguous_from (size t) (stride t)) as [z|] eqn:E; [|discriminate].
  eapply contiguous_from_offset; eassumption.
Qed.

Lemma get_contiguous t idx :
  is_contiguous t = true -> in_range (size t) idx ->
  get t idx = storage t !!! Z.to_nat (ravel (size t) idx).
Proof. intros Hc Hr. unfold get. rewrite is_contiguous_offset; auto. Qed.

Lemma tensor_of_contiguous (data : list A) sizes :
  Forall (fun n => 0 <= n) sizes -> is_contiguous (tensor_of data sizes) = true.
Proof.
  intros Hs. unfold is_contiguous, tensor_of. simpl.
  destruct (Z.eqb_spec (numel sizes) 0); [reflexivity|]. simpl.
  rewrite contiguous_from_strides by (apply sizes_pos; assumption).
  reflexivity.
Qed.

Lemma get_tensor_of (data : list A) sizes idx :
  in_range sizes idx ->
  get (tensor_of data sizes) idx = data !!! Z.to_nat (ravel sizes idx).
Proof.
  intros Hr. unfold get, tensor_of. cbn [storage stride].
  rewrite offset_contiguous_strides by assumption. reflexivity.
Qed.

Lemma materialize_lookup t k :
  0 <= k < numel (size t) ->
  storage (materialize t) !!! Z.to_nat k =
  storage t !!! Z.to_nat (offset_of (unravel (size t) k) (stride t)).
Proof.
  intros Hk. unfold materialize. cbn [storage].
  rewrite (@list_lookup_total_fmap Z A _ _ _) by (rewrite length_seqZ; lia).
  rewrite lookup_total_seqZ_lt by lia.
  rewrite Z2Nat.id, Z.add_0_l by lia. reflexivity.
Qed.

Lemma size_contiguous t : size (contiguous t) = size t.
Proof. unfold contiguous. destruct (is_contiguous t); reflexivity. Qed.

Lemma is_contiguous_contiguous t :
  Forall (fun n => 0 <= n) (size t) -> is_contiguous (contiguous t) = true.
Proof.
  intros Hs. unfold contiguous.
  destruct (is_contiguous t) eqn:E; [assumption|].
  apply (tensor_of_contiguous _ (size t) Hs).
Qed.

(** The row-major storage of [contiguous t] holds, at the row-major
    position of a coordinate, the element [t] has at that coordinate. *)
Lemma contiguous_lookup t idx :
  in_range (size t) idx ->
  storage (contiguous t) !!! Z.to_nat (ravel (size t) idx) = get t idx.
Proof.
  intros Hr. unfold contiguous.
  destruct (is_contiguous t) eqn:E.
  - symmetry. apply get_contiguous; assumption.
  - rewrite materialize_lookup by (apply ravel_bounds; assumption).
    rewrite unravel_ravel by assumption. reflexivity.
Qed.

Lemma length_storage_contiguous t :
  Forall (fun n => 0 <= n) (size t) ->
  Z.of_nat (length (storage t)) = numel (size t) ->
  Z.of_nat (length (storage (contiguous t))) = numel (size t).
Proof.
  intros Hs Hl. unfold contiguous.
  destruct (is_contiguous t); [assumption|]. simpl.
  rewrite length_fmap, length_seqZ, Z2Nat.id; [reflexivity|].
  apply numel_nonneg; assumption.
Qed.

(** ** Strides that differ only on dimensions of size 1 *)




End TensorLemmas.

(** * The value of [forward] on valid inputs *)

Section ForwardValue.
Context {A : Type} `{!Inhabited A}.
Implicit Types x tmp : Tensor A.

Lemma well_formed_sizes x b c h w :
  well_formed x -> size x = [b; c; h; w] ->
  0 <= b /\ 0 <= c /\ 0 <= h /\ 0 <= w.
Proof.
  intros (Hs & _ & _) E. rewrite E in Hs.
  repeat match goal with H : Forall _ (_ :: _) |- _ => inversion H; subst; clear H end.
  auto.
Qed.

Lemma floordiv_square c s :
  s <> 0 -> floordiv c (s ^ 2) = ok (c / (s * s)).
Proof.
  intros Hs. unfold floordiv. rewrite Z.pow_2_r.
  destruct (Z.eqb_spec (s * s) 0); [nia | reflexivity].
Qed.

Lemma channel_split c s :
  1 <= s -> c mod (s * s) = 0 -> c = s * s * (c / (s * s)).
Proof. intros Hs Hm. apply Z.div_exact; [nia | assumption]. Qed.

Ltac nonneg_shape :=
  repeat (constructor; [first [lia | nia] |]); constructor.

Ltac forward_value permuted :=
  match goal with
  | Hwf : well_formed ?x, Hsz : size ?x = [?b; ?c; ?h; ?w],
    Hs : 1 <= ?s, Hm : ?c mod (?s * ?s) = 0 |- _ =>
      destruct (well_formed_sizes _ _ _ _ _ Hwf Hsz) as (Hb & Hc & Hh & Hw);
      pose proof (channel_split c s Hs Hm) as Hsplit;
      assert (0 <= c / (s * s)) as HC by (apply Z.div_pos; nia);
      rewrite Hsz; cbn [unpack4 bind ok];
      rewrite floordiv_square by lia; cbn [bind ok];
      rewrite view_nonneg; [| nonneg_shape | apply Hwf];
      match goal with
      | |- context [numel (size x) =? ?n] =>
          replace (numel (size x) =? n) with true; cycle 1;
          [ symmetry; apply Z.eqb_eq; rewrite Hsz; unfold numel; simpl;
            rewrite Hsplit at 1; ring |]
      end;
      cbn [bind ok];
      change (permute _ _) with (ok (permuted x b (c / (s * s)) h w s));
      cbn [bind ok];
      rewrite view_nonneg;
        [| nonneg_shape | apply is_contiguous_contiguous; simpl; nonneg_shape];
      rewrite size_contiguous;
      match goal with
      | |- context [numel ?m =? ?n] =>
          replace (numel m =? n) with true; cycle 1;
          [ symmetry; apply Z.eqb_eq; unfold numel; simpl; ring |]
      end;
      reflexivity
  end.

Lemma DCR_forward_value x b c h w s mode :
  well_formed x -> size x = [b; c; h; w] -> 1 <= s -> c mod (s * s) = 0 ->
  DepthToSpace_DCR.forward tt x s mode =
    ok (output_of (DCR_permuted x b (c / (s * s)) h w s) b (c / (s * s)) h w s).
Proof.
  intros Hwf Hsz Hs Hm. unfold DepthToSpace_DCR.forward.
  forward_value (@DCR_permuted A).
Qed.

Lemma CRD_forward_value x b c h w s mode :
  well_formed x -> size x = [b; c; h; w] -> 1 <= s -> c mod (s * s) = 0 ->
  DepthToSpace_CRD.forward tt x s mode =
    ok (output_of (CRD_permuted x b (c / (s * s)) h w s) b (c / (s * s)) h w s).
Proof.
  intros Hwf Hsz Hs Hm. unfold DepthToSpace_CRD.forward.
  forward_value (@CRD_permuted A).
Qed.

(** ** Elements of the output *)

Ltac range_list := repeat (constructor; [first [lia | nia] |]); constructor.

Ltac strides_to_numel :=
  unfold stride_prod, numel; simpl; rewrite ?Z.max_l by lia.

(** An element of the output is the element of the permuted tensor at
    the coordinate that splits the two spatial indices. *)
Lemma output_of_get (tmp : Tensor A) b C h w s bi co hi wi by_ bx :
  size tmp = [b; C; h; s; w; s] ->
  0 <= bi < b -> 0 <= co < C -> 0 <= hi < h -> 0 <= wi < w ->
  0 <= by_ < s -> 0 <= bx < s ->
  get (output_of tmp b C h w s) [bi; co; hi * s + by_; wi * s + bx] =
  get tmp [bi; co; hi; by_; wi; bx].
Proof.
  intros Hsz Hbi Hco Hhi Hwi Hby Hbx.
  assert (in_range (size tmp) [bi; co; hi; by_; wi; bx]) as Hr
    by (rewrite Hsz; range_list).
  rewrite <- (contiguous_lookup tmp _ Hr).
  unfold get, output_of. cbn [storage stride].
  rewrite offset_contiguous_strides by range_list.
  f_equal. f_equal. rewrite Hsz. unfold numel; simpl. ring.
Qed.

Lemma DCR_permuted_get x b C h w s bi co hi wi by_ bx :
  is_contiguous x = true -> size x = [b; s * s * C; h; w] ->
  0 <= bi < b -> 0 <= co < C -> 0 <= hi < h -> 0 <= wi < w ->
  0 <= by_ < s -> 0 <= bx < s ->
  in_range (size x) [bi; by_ * s * C + bx * C + co; hi; wi] /\
  get (DCR_permuted x b C h w s) [bi; co; hi; by_; wi; bx] =
  get x [bi; by_ * s * C + bx * C + co; hi; wi].
Proof.
  intros Hc Hsz Hbi Hco Hhi Hwi Hby Hbx.
  pose proof (DCR_channel_bounds s C co by_ bx Hco Hby Hbx) as Hch.
  assert (in_range (size x) [bi; by_ * s * C + bx * C + co; hi; wi]) as Hr
    by (rewrite Hsz; range_list).
  split; [exact Hr|].
  rewrite (get_contiguous x _ Hc Hr). unfold get, DCR_permuted. cbn [storage stride].
  f_equal. f_equal. rewrite Hsz. simpl. strides_to_numel. ring.
Qed.

Lemma CRD_permuted_get x b C h w s bi co hi wi by_ bx :
  is_contiguous x = true -> size x = [b; s * s * C; h; w] ->
  0 <= bi < b -> 0 <= co < C -> 0 <= hi < h -> 0 <= wi < w ->
  0 <= by_ < s -> 0 <= bx < s ->
  in_range (size x) [bi; co * s * s + by_ * s + bx; hi; wi] /\
  get (CRD_permuted x b C h w s) [bi; co; hi; by_; wi; bx] =
  get x [bi; co * s * s + by_ * s + bx; hi; wi].
Proof.
  intros Hc Hsz Hbi Hco Hhi Hwi Hby Hbx.
  pose proof (CRD_channel_bounds s C co by_ bx Hco Hby Hbx) as Hch.
  assert (in_range (size x) [bi; co * s * s + by_ * s + bx; hi; wi]) as Hr
    by (rewrite Hsz; range_list).
  split; [exact Hr|].
  rewrite (get_contiguous x _ Hc Hr). unfold get, CRD_permuted. cbn [storage stride].
  f_equal. f_equal. rewrite Hsz. simpl. strides_to_numel. ring.
Qed.

(** ** Block size 1 *)

Lemma strides_fit_contiguous sizes strides :
  strides_fit sizes strides -> contiguous_from sizes strides = Some (numel sizes).
Proof.
  revert strides. induction sizes as [|n sizes IH]; intros [|st strides]; simpl;
    try contradiction; [reflexivity|].
  intros [Hn Hfit]. rewrite (IH _ Hfit).
  destruct (Z.eqb_spec n 1) as [->|Hne].
  - f_equal. lia.
  - destruct Hn as [?| ->]; [contradiction|].
    rewrite Z.eqb_refl. f_equal. lia.
Qed.

Lemma DCR_permuted_1_contiguous x b C h w :
  0 <= b -> 0 <= C -> 0 <= h -> 0 <= w ->
  is_contiguous (DCR_permuted x b C h w 1) = true.
Proof.
  intros Hb HC Hh Hw. unfold is_contiguous.
  destruct (Z.eqb_spec (numel (size (DCR_permuted x b C h w 1))) 0) as [|Hne];
    [reflexivity|]. cbn [orb].
  rewrite (strides_fit_contiguous _ _); [reflexivity|].
  assert (Forall (fun n => 0 < n) [b; C; h; 1; w; 1]) as Hpos
    by (apply sizes_pos; [range_list | exact Hne]).
  repeat match goal with H : Forall _ (_ :: _) |- _ => inversion H; subst; clear H end.
  cbn [DCR_permuted size stride strides_fit].
  repeat split; try (right; strides_to_numel; ring); left; reflexivity.
Qed.

Lemma CRD_permuted_1_contiguous x b C h w :
  0 <= b -> 0 <= C -> 0 <= h -> 0 <= w ->
  is_contiguous (CRD_permuted x b C h w 1) = true.
Proof.
  intros Hb HC Hh Hw. unfold is_contiguous.
  destruct (Z.eqb_spec (numel (size (CRD_permuted x b C h w 1))) 0) as [|Hne];
    [reflexivity|]. cbn [orb].
  rewrite (strides_fit_contiguous _ _); [reflexivity|].
  assert (Forall (fun n => 0 < n) [b; C; h; 1; w; 1]) as Hpos
    by (apply sizes_pos; [range_list | exact Hne]).
  repeat match goal with H : Forall _ (_ :: _) |- _ => inversion H; subst; clear H end.
  cbn [CRD_permuted size stride strides_fit].
  repeat split; try (right; strides_to_numel; ring); left; reflexivity.
Qed.

(** Two contiguous tensors with the same storage and sizes have the
    same elements. *)
Lemma get_same_layout (t t' : Tensor A) idx :
  storage t = storage t' -> size t = size t' ->
  is_contiguous t = true -> is_contiguous t' = true ->
  in_range (size t') idx -> get t idx = get t' idx.
Proof.
  intros Hst Hsz Hc Hc' Hr.
  rewrite (get_contiguous t idx Hc), (get_contiguous t' idx Hc' Hr), Hst, Hsz;
    [reflexivity|]. rewrite Hsz. exact Hr.
Qed.

Lemma output_of_contiguous tmp b C h w s :
  0 <= b -> 0 <= C -> 0 <= h -> 0 <= w -> 0 <= s ->
  is_contiguous (output_of tmp b C h w s) = true.
Proof.
  intros. apply (tensor_of_contiguous _ [b; C; h * s; w * s]). range_list.
Qed.

Lemma output_of_1 tmp x b c h w :
  well_formed x -> size x = [b; c; h; w] ->
  storage tmp = storage x -> is_contiguous tmp = true ->
  let y := output_of tmp b (c / (1 * 1)) h w 1 in
  size y = size x /\ storage y = storage x /\
  forall idx, in_range (size x) idx -> get y idx = get x idx.
Proof.
  intros Hwf Hsz Hst Hc y.
  destruct (well_formed_sizes _ _ _ _ _ Hwf Hsz) as (Hb & Hc' & Hh & Hw).
  assert (size y = size x) as Hsy.
  { unfold y, output_of. cbn [size]. rewrite Hsz, Z.div_1_r, !Z.mul_1_r. reflexivity. }
  assert (storage y = storage x) as Hsty.
  { unfold y, output_of, contiguous. cbn [storage]. rewrite Hc. exact Hst. }
  repeat split; [exact Hsy | exact Hsty |].
  intros idx Hr. apply get_same_layout; try assumption.
  - apply output_of_contiguous; try lia. apply Z.div_pos; lia.
  - apply Hwf.
Qed.

(** ** Both modes at once *)

Lemma size_permuted md x b C h w s :
  size (permuted md x b C h w s) = [b; C; h; s; w; s].
Proof. destruct md; reflexivity. Qed.

Lemma transform_value md x b C h w s :
  well_formed x -> size x = [b; C * s * s; h; w] -> 1 <= s -> 0 <= C ->
  transform x s (mode_name md) =
    ok (output_of (permuted md x b C h w s) b C h w s).
Proof.
  intros Hwf Hsz Hs HC.
  assert (C * s * s = C * (s * s)) as E by ring.
  assert ((C * s * s) mod (s * s) = 0) as Hm
    by (rewrite E; apply Z.mod_mul; nia).
  assert (C * s * s / (s * s) = C) as Hd
    by (rewrite E; apply Z.div_mul; nia).
  destruct md; unfold transform; simpl.
  - rewrite (DCR_forward_value x b (C * s * s) h w s) by assumption.
    rewrite Hd. reflexivity.
  - rewrite (CRD_forward_value x b (C * s * s) h w s) by assumption.
    rewrite Hd. reflexivity.
Qed.

Lemma permuted_get md x b C h w s bi co hi wi by_ bx :
  is_contiguous x = true -> size x = [b; C * s * s; h; w] ->
  0 <= bi < b -> 0 <= co < C -> 0 <= hi < h -> 0 <= wi < w ->
  0 <= by_ < s -> 0 <= bx < s ->
  in_range (size x) [bi; input_channel md s C co by_ bx; hi; wi] /\
  get (permuted md x b C h w s) [bi; co; hi; by_; wi; bx] =
  get x [bi; input_channel md s C co by_ bx; hi; wi].
Proof.
  intros Hc Hsz Hbi Hco Hhi Hwi Hby Hbx.
  assert (size x = [b; s * s * C; h; w]) as Hsz'
    by (rewrite Hsz; do 2 f_equal; ring).
  destruct md; simpl.
  - apply DCR_permuted_get; assumption.
  - apply CRD_permuted_get; assumption.
Qed.

Lemma position_bijection_holds md x b C h w s :
  is_contiguous x = true -> size x = [b; C * s * s; h; w] -> 1 <= s ->
  position_bijection md s C x (output_of (permuted md x b C h w s) b C h w s).
Proof.
  intros Hc Hsz Hs. split.
  - intros o Hr. cbn [output_of size] in Hr.
    repeat match goal with
           | H : in_range _ _ |- _ => inversion H; subst; clear H
           | H : Forall2 _ _ _ |- _ => inversion H; subst; clear H
           end.
    match goal with
    | |- context [source_coord md s C [?bi; ?co; ?y; ?x0]] =>
        destruct (split_digit y h s) as (Hy1 & Hy2 & Ey); [lia | lia |];
        destruct (split_digit x0 w s) as (Hx1 & Hx2 & Ex); [lia | lia |];
        cbn [source_coord];
        destruct (permuted_get md x b C h w s bi co (y / s) (x0 / s)
                    (y mod s) (x0 mod s)) as [Hin Hget];
          [assumption | assumption | lia | lia | lia | lia | lia | lia |];
        split; [exact Hin|];
        rewrite <- Hget;
        rewrite <- (output_of_get (permuted md x b C h w s) b C h w s)
          by (try apply size_permuted; lia);
        rewrite <- Ey, <- Ex; reflexivity
    end.
  - intros i Hr. rewrite Hsz in Hr.
    repeat match goal with
           | H : in_range _ _ |- _ => inversion H; subst; clear H
           | H : Forall2 _ _ _ |- _ => inversion H; subst; clear H
           end.
    match goal with
    | |- context [_ = [?bi; ?ci; ?hi; ?wi]] =>
        destruct (input_channel_surj md s C ci Hs) as (co & by_ & bx & Hrg & E);
          [lia|];
        exists [bi; co; hi * s + by_; wi * s + bx]
    end.
    cbn [output_of size source_coord].
    split; [repeat (constructor; [nia|]); constructor|].
    split.
    + rewrite !mod_digit, !div_digit by lia. rewrite E. reflexivity.
    + intros o' Hr' Eo'.
      repeat match goal with
             | H : in_range _ _ |- _ => inversion H; subst; clear H
             | H : Forall2 _ _ _ |- _ => inversion H; subst; clear H
             end.
      cbn [source_coord] in Eo'. injection Eo' as E1 E2 E3 E4.
      match goal with
      | |- [_; _; ?y; ?x0] = _ =>
          destruct (split_digit y h s) as (Hy1 & Hy2 & Ey); [lia | lia |];
          destruct (split_digit x0 w s) as (Hx1 & Hx2 & Ex); [lia | lia |];
          apply input_channel_inj in E2 as (-> & E5 & E6); try lia;
          rewrite Ey, Ex, E3, E4, E5, E6, E1; reflexivity
      end.
Qed.

(** The output has as many stored elements as the input. *)
Lemma length_output_of md x b C h w s :
  well_formed x -> size x = [b; C * s * s; h; w] -> 1 <= s -> 0 <= C ->
  length (storage (output_of (permuted md x b C h w s) b C h w s)) =
  length (storage x).
Proof.
  intros Hwf Hsz Hs HC.
  assert (0 <= b /\ 0 <= h /\ 0 <= w) as (Hb & Hh & Hw)
    by (destruct (well_formed_sizes _ _ _ _ _ Hwf Hsz); tauto).
  destruct Hwf as (_ & Hlen & _).
  apply Nat2Z.inj. cbn [output_of storage].
  rewrite length_storage_contiguous.
  - rewrite Hlen, Hsz, size_permuted. unfold numel; simpl. ring.
  - rewrite size_permuted. range_list.
  - rewrite size_permuted.
    replace (storage (permuted md x b C h w s)) with (storage x)
      by (destruct md; reflexivity).
    rewrite Hlen, Hsz. unfold numel; simpl. ring.
Qed.

(** ** The CRD transform is the canonical pixel shuffle *)

Lemma canonical_pixel_shuffle_value x b C h w s :
  size x = [b; C * s * s; h; w] -> 1 <= s ->
  canonical_pixel_shuffle x s =
    ok (tensor_of
          ((fun k => pixel_shuffle_element x s (unravel [b; C; h * s; w * s] k))
             <$> seqZ 0 (numel [b; C; h * s; w * s]))
          [b; C; h * s; w * s]).
Proof.
  intros Hsz Hs.
  assert (C * s * s / (s * s) = C) as Hd
    by (replace (C * s * s) with (C * (s * s)) by ring; apply Z.div_mul; nia).
  unfold canonical_pixel_shuffle. rewrite Hsz.
  cbv beta iota zeta delta [unpack4 bind ok]. rewrite Hd. reflexivity.
Qed.

Lemma pixel_shuffle_element_source x s C o :
  length o = 4%nat ->
  pixel_shuffle_element x s o = get x (source_coord CRD s C o).
Proof.
  destruct o as [|bi [|co [|y [|x0 [|? ?]]]]]; try discriminate. reflexivity.
Qed.

Lemma canonical_pixel_shuffle_get x b C h w s o :
  in_range [b; C; h * s; w * s] o ->
  get (tensor_of
         ((fun k => pixel_shuffle_element x s (unravel [b; C; h * s; w * s] k))
            <$> seqZ 0 (numel [b; C; h * s; w * s]))
         [b; C; h * s; w * s]) o =
  get x (source_coord CRD s C o).
Proof.
  intros Hr.
  rewrite get_tensor_of by assumption.
  pose proof (ravel_bounds _ _ Hr) as Hb.
  rewrite (@list_lookup_total_fmap Z A _ _ _) by (rewrite length_seqZ; lia).
  rewrite lookup_total_seqZ_lt by lia.
  rewrite Z2Nat.id, Z.add_0_l by lia.
  rewrite unravel_ravel by assumption.
  apply pixel_shuffle_element_source.
  symmetry. exact (Forall2_length _ _ _ Hr).
Qed.

(** On every valid input the CRD transform and the canonical pixel
    shuffle return tensors with the same sizes and the same elements. *)
Lemma CRD_forward_is_pixel_shuffle x b C h w s mode :
  well_formed x -> size x = [b; C * s * s; h; w] -> 1 <= s -> 0 <= C ->
  exists y ref,
    DepthToSpace_CRD.forward tt x s mode = ok y /\
    canonical_pixel_shuffle x s = ok ref /\
    size y = size ref /\
    forall o, in_range (size y) o -> get y o = get ref o.
Proof.
  intros Hwf Hsz Hs HC.
  pose proof (transform_value CRD x b C h w s Hwf Hsz Hs HC) as Hy.
  pose proof (position_bijection_holds CRD x b C h w s (proj2 (proj2 Hwf)) Hsz Hs)
    as [Hpos _].
  do 2 eexists. split; [exact Hy|].
  split; [apply canonical_pixel_shuffle_value; eassumption|].
  split; [reflexivity|].
  intros o Hr.
  rewrite canonical_pixel_shuffle_get by exact Hr.
  apply Hpos. exact Hr.
Qed.

(** ** Rejected inputs *)



End ForwardValue.

(** * Exceptions of the transforms *)

Section ForwardErrors.
Context {A : Type} `{!Inhabited A}.
Implicit Types t x : Tensor A.

Lemma bind_inl {X Y} (m : result X) (k : X -> result Y) e :
  bind m k = inl e -> m = inl e \/ exists a, m = inr a /\ k a = inl e.
Proof.
  destruct m as [e'|a]; simpl; intros H.
  - left. injection H as ->. reflexivity.
  - right. eauto.
Qed.

Lemma unpack4_error (l : list Z) e : unpack4 l = inl e -> forward_error e.
Proof.
  unfold unpack4, forward_error.
  destruct l as [|? [|? [|? [|? [|? ?]]]]]; simpl; intros [= <-]; auto.
Qed.

Lemma floordiv_error a b e : floordiv a b = inl e -> forward_error e.
Proof.
  unfold floordiv, forward_error. destruct (b =? 0); intros [= <-]; auto.
Qed.

Lemma scan_shape_error shape pos acc inf e :
  scan_shape shape pos acc inf = inl e -> exn_cls e = RuntimeError.
Proof.
  revert pos acc inf. induction shape as [|d shape IH]; intros pos acc inf; simpl.
  - discriminate.
  - destruct (d =? -1).
    + destruct inf; [intros [= <-]; reflexivity | apply IH].
    + destruct (0 <=? d); [apply IH | intros [= <-]; reflexivity].
Qed.

Lemma infer_size_error shape n e :
  infer_size shape n = inl e -> exn_cls e = RuntimeError.
Proof.
  unfold infer_size. intros H. apply bind_inl in H as [H|((newsize & inf) & _ & H)].
  - eapply scan_shape_error; eassumption.
  - destruct inf.
    + destruct ((n =? newsize) || (0 <? newsize) && (n mod newsize =? 0));
        [destruct (newsize =? 0)|]; inversion H; reflexivity.
    + destruct (n =? newsize); inversion H; reflexivity.
Qed.

Lemma view_error t shape e : view t shape = inl e -> forward_error e.
Proof.
  unfold view. intros H. left. apply bind_inl in H as [H|(sizes & _ & H)].
  - eapply infer_size_error; eassumption.
  - destruct (is_contiguous t); inversion H; reflexivity.
Qed.

Lemma permute_error t dims e : permute t dims = inl e -> forward_error e.
Proof.
  unfold permute. intros H. left.
  match type of H with (if ?c then _ else _) = _ => destruct c end;
    inversion H; reflexivity.
Qed.

Ltac forward_stage H :=
  apply bind_inl in H as [H|(? & _ & H)];
  [ first [ eapply unpack4_error; exact H | eapply floordiv_error; exact H
          | eapply view_error; exact H | eapply permute_error; exact H ] |].

Lemma DCR_forward_error x s mode e :
  DepthToSpace_DCR.forward tt x s mode = inl e -> forward_error e.
Proof.
  unfold DepthToSpace_DCR.forward. intros H.
  forward_stage H. destruct x0 as [[[b c] h] w].
  do 5 forward_stage H. discriminate.
Qed.

Lemma CRD_forward_error x s mode e :
  DepthToSpace_CRD.forward tt x s mode = inl e -> forward_error e.
Proof.
  unfold DepthToSpace_CRD.forward. intros H.
  forward_stage H. destruct x0 as [[[b c] h] w].
  do 5 forward_stage H. discriminate.
Qed.

Lemma unknown_mode_not_forward_error mode : ~ forward_error (unknown_mode mode).
Proof.
  unfold forward_error, unknown_mode. simpl.
  intros [H|[H|[H|H]]]; discriminate.
Qed.

End ForwardErrors.

(** * Properties of the transform *)

Lemma test_x_well_formed : well_formed test_x.
Proof.
  repeat split.
  - repeat constructor; lia.
Qed.

(** C1. In DCR mode, on a four-dimensional input whose channel count
    [c] is a multiple of [s * s], the output element at
    [(bi, co, hi*s + by, wi*s + bx)], with [by] and [bx] below [s], is
    the input element at [(bi, by*s*C + bx*C + co, hi, wi)], where
    [C = c / (s*s)] is the number of output channels. *)
Theorem DCR_forward_element {A} `{!Inhabited A} (x : Tensor A)
    (b c h w s : Z) (mode : string) (bi co hi wi by_ bx : Z) :
  well_formed x -> size x = [b; c; h; w] -> c mod (s * s) = 0 ->
  0 <= bi < b -> 0 <= co < c / (s * s) -> 0 <= hi < h -> 0 <= wi < w ->
  0 <= by_ < s -> 0 <= bx < s ->
  exists out,
    DepthToSpace_DCR.forward tt x s mode = ok out /\
    in_range (size out) [bi; co; hi * s + by_; wi * s + bx] /\
    in_range (size x)
      [bi; by_ * s * (c / (s * s)) + bx * (c / (s * s)) + co; hi; wi] /\
    get out [bi; co; hi * s + by_; wi * s + bx] =
    get x [bi; by_ * s * (c / (s * s)) + bx * (c / (s * s)) + co; hi; wi].
Proof.
  intros Hwf Hsz Hm Hbi Hco Hhi Hwi Hby Hbx.
  assert (1 <= s) as Hs by lia.
  pose proof (channel_split c s Hs Hm) as Hsplit.
  set (C := c / (s * s)) in *.
  eexists. split; [apply DCR_forward_value; eassumption|]. fold C.
  assert (size x = [b; s * s * C; h; w]) as Hsz' by congruence.
  destruct (DCR_permuted_get x b C h w s bi co hi wi by_ bx
              (proj2 (proj2 Hwf)) Hsz' Hbi Hco Hhi Hwi Hby Hbx) as [Hr Hg].
  split; [|split; [exact Hr|]].
  - cbn [output_of size]. repeat (constructor; [nia|]). constructor.
  - rewrite output_of_get by (try reflexivity; assumption). exact Hg.
Qed.

Lemma DCR_forward_element_witness :
  exists out,
    DepthToSpace_DCR.forward tt test_x 2 "DCR" = ok out /\
    in_range (size out) [0; 1; 1 * 2 + 1; 0 * 2 + 1] /\
    in_range (size test_x) [0; 1 * 2 * (8 / (2 * 2)) + 1 * (8 / (2 * 2)) + 1; 1; 0] /\
    get out [0; 1; 1 * 2 + 1; 0 * 2 + 1] =
    get test_x [0; 1 * 2 * (8 / (2 * 2)) + 1 * (8 / (2 * 2)) + 1; 1; 0].
Proof.
  apply (DCR_forward_element test_x 1 8 2 2 2 "DCR" 0 1 1 0 1 1).
  - exact test_x_well_formed.
  - reflexivity.
  - reflexivity.
  - lia.
  - change (8 / (2 * 2)) with 2. lia.
  - lia.
  - lia.
  - lia.
  - lia.
Defined.



(** C5. With block size 1 both transforms are the identity: on every
    four-dimensional input the output has the sizes, the storage and
    hence every element of the input. *)
Theorem forward_block_size_1 {A} `{!Inhabited A} (x : Tensor A)
    (b c h w : Z) (mode : string) :
  well_formed x -> size x = [b; c; h; w] ->
  exists yd yc,
    DepthToSpace_DCR.forward tt x 1 mode = ok yd /\
    DepthToSpace_CRD.forward tt x 1 mode = ok yc /\
    (size yd = size x /\ storage yd = storage x /\
     forall idx, in_range (size x) idx -> get yd idx = get x idx) /\
    (size yc = size x /\ storage yc = storage x /\
     forall idx, in_range (size x) idx -> get yc idx = get x idx).
Proof.
  intros Hwf Hsz.
  destruct (well_formed_sizes _ _ _ _ _ Hwf Hsz) as (Hb & Hc & Hh & Hw).
  assert (0 <= c / (1 * 1)) as HC by (apply Z.div_pos; lia).
  do 2 eexists.
  split; [apply DCR_forward_value; try eassumption; [lia | apply Z.mod_1_r]|].
  split; [apply CRD_forward_value; try eassumption; [lia | apply Z.mod_1_r]|].
  split.
  - apply output_of_1; try assumption; [reflexivity|].
    apply DCR_permuted_1_contiguous; assumption.
  - apply output_of_1; try assumption; [reflexivity|].
    apply CRD_permuted_1_contiguous; assumption.
Qed.

Lemma forward_block_size_1_witness :
  exists yd yc,
    DepthToSpace_DCR.forward tt test_x 1 "DCR" = ok yd /\
    DepthToSpace_CRD.forward tt test_x 1 "DCR" = ok yc /\
    (size yd = size test_x /\ storage yd = storage test_x /\
     forall idx, in_range (size test_x) idx -> get yd idx = get test_x idx) /\
    (size yc = size test_x /\ storage yc = storage test_x /\
     forall idx, in_range (size test_x) idx -> get yc idx = get test_x idx).
Proof.
  apply (forward_block_size_1 test_x 1 8 2 2 "DCR").
  - exact test_x_well_formed.
  - reflexivity.
Defined.

(** C2. On the input of the test and block size 2 the CRD transform
    returns the canonical pixel shuffle of that input: the two tensors
    are equal, so they pass [allclose] with [atol = 1e-6] and differ by
    at most [1e-6] at every coordinate. *)
Theorem CRD_is_pixel_shuffle_on_test_input :
  exists y ref,
    transform test_x 2 "CRD" = ok y /\
    canonical_pixel_shuffle test_x 2 = ok ref /\
    y = ref /\
    allclose ref y default_rtol test_atol = true /\
    forall idx, (Qabs (get ref idx - get y idx) <= test_atol)%Q.
Proof.
  eexists. eexists.
  split; [vm_compute; reflexivity|].
  split; [vm_compute; reflexivity|].
  split; [reflexivity|].
  split; [vm_compute; reflexivity|].
  intros idx. unfold Qminus. rewrite Qplus_opp_r. discriminate.
Qed.

(** C6. On the input of the test and block size 2 the DCR and CRD
    outputs are different tensors: they differ at coordinate
    [(0, 0, 0, 1)]. *)
Theorem DCR_differs_from_CRD_on_test_input :
  exists yd yc idx,
    transform test_x 2 "DCR" = ok yd /\
    transform test_x 2 "CRD" = ok yc /\
    in_range (size yd) idx /\ in_range (size yc) idx /\
    ~ (get yd idx == get yc idx)%Q.
Proof.
  eexists. eexists. exists [0; 0; 0; 1].
  split; [vm_compute; reflexivity|].
  split; [vm_compute; reflexivity|].
  split; [repeat constructor; lia|].
  split; [repeat constructor; lia|].
  vm_compute. discriminate.
Qed.

(** C9. Neither [forward] looks at its mode argument: any two modes,
    supported or not, give the same result, also through the modules
    that carry a mode. *)
Theorem forward_ignores_mode {A} `{!Inhabited A} (x : Tensor A)
    (block_size : Z) (m1 m2 : string) :
  DepthToSpace_DCR.forward tt x block_size m1 =
    DepthToSpace_DCR.forward tt x block_size m2 /\
  DepthToSpace_CRD.forward tt x block_size m1 =
    DepthToSpace_CRD.forward tt x block_size m2 /\
  Module_forward (DepthToSpace_DCR_Module block_size m1) x =
    Module_forward (DepthToSpace_DCR_Module block_size m2) x /\
  Module_forward (DepthToSpace_CRD_Module block_size m1) x =
    Module_forward (DepthToSpace_CRD_Module block_size m2) x.
Proof. repeat split; reflexivity. Qed.

(** C8. [create_model] raises its unknown-mode error exactly for the
    modes other than "DCR" and "CRD", and returns a model exactly for
    these two; running the selected model raises that error in the same
    cases and in no other. *)
Theorem create_model_mode {A} `{!Inhabited A} (x : Tensor A)
    (block_size : Z) (mode : string) :
  (create_model block_size mode = inl (unknown_mode mode)
     <-> ~ (mode = "DCR" \/ mode = "CRD")) /\
  (is_ok (create_model block_size mode) = true
     <-> mode = "DCR" \/ mode = "CRD") /\
  (transform x block_size mode = inl (unknown_mode mode)
     <-> ~ (mode = "DCR" \/ mode = "CRD")).
Proof.
  unfold transform, create_model.
  destruct (String.eqb_spec mode "DCR") as [->|Hd];
    [|destruct (String.eqb_spec mode "CRD") as [->|Hc]].
  - repeat split; try discriminate; try tauto; simpl; intros H.
    + apply DCR_forward_error in H.
      exfalso. exact (unknown_mode_not_forward_error _ H).
  - repeat split; try discriminate; try tauto; simpl; intros H.
    + apply CRD_forward_error in H.
      exfalso. exact (unknown_mode_not_forward_error _ H).
  - repeat split; try reflexivity; try tauto; try discriminate.
Qed.








(** * The range of the model

    Within [within_int64] every shape the two transforms ask for has
    its sizes, its strides and its number of elements in the 64-bit
    range: they are all bounded by [stride_prod] of the shape. *)

Lemma stride_prod_ge_1 sizes : 1 <= stride_prod sizes.
Proof.
  induction sizes as [|n sizes IH]; [reflexivity|].
  change (stride_prod (n :: sizes)) with (Z.max n 1 * stride_prod sizes). nia.
Qed.

Lemma size_le_stride_prod sizes : Forall (fun n => n <= stride_prod sizes) sizes.
Proof.
  induction sizes as [|n sizes IH]; constructor.
  - change (stride_prod (n :: sizes)) with (Z.max n 1 * stride_prod sizes).
    pose proof (stride_prod_ge_1 sizes). nia.
  - eapply Forall_impl; [exact IH|]. intros m Hm. cbv beta in Hm |- *.
    change (stride_prod (n :: sizes)) with (Z.max n 1 * stride_prod sizes).
    pose proof (stride_prod_ge_1 sizes). nia.
Qed.

Lemma numel_le_stride_prod sizes :
  Forall (fun n => 0 <= n) sizes -> 0 <= numel sizes <= stride_prod sizes.
Proof.
  induction 1 as [|n sizes Hn _ IH]; [unfold numel, stride_prod; simpl; lia|].
  change (numel (n :: sizes)) with (n * numel sizes).
  change (stride_prod (n :: sizes)) with (Z.max n 1 * stride_prod sizes). nia.
Qed.

Lemma contiguous_strides_le_stride_prod sizes :
  Forall (fun st => 1 <= st <= stride_prod sizes) (contiguous_strides sizes).
Proof.
  induction sizes as [|n sizes IH]; [constructor|].
  cbn [contiguous_strides].
  change (stride_prod (n :: sizes)) with (Z.max n 1 * stride_prod sizes).
  pose proof (stride_prod_ge_1 sizes). constructor; [nia|].
  eapply Forall_impl; [exact IH|]. intros st Hst. cbv beta in Hst |- *. nia.
Qed.

Lemma forward_shapes_within_int64 b c h w s :
  0 <= b -> 0 <= c -> 0 <= h -> 0 <= w -> 1 <= s ->
  within_int64 [b; c; h; w] s ->
  stride_prod [b; s; s; c / s ^ 2; h; w] <= int64_max /\
  stride_prod [b; c / s ^ 2; s; s; h; w] <= int64_max /\
  stride_prod [b; c / s ^ 2; h * s; w * s] <= int64_max.
Proof.
  intros Hb Hc Hh Hw Hs. unfold within_int64, stride_prod. cbn [fold_right].
  rewrite Z.abs_eq by lia. rewrite !(Z.max_l s 1) by lia. rewrite Z.pow_2_r.
  assert (1 <= s * s) as Hss by nia.
  assert (0 <= c / (s * s) <= c) as Hq.
  { split; [apply Z.div_pos; lia|]. apply Z.div_le_upper_bound; [lia|].
    rewrite <- (Z.mul_1_l c) at 1. apply Z.mul_le_mono_nonneg_r; lia. }
  set (q := c / (s * s)) in *.
  assert (Hq' : 1 <= Z.max q 1 <= Z.max c 1) by lia.
  assert (Hhs : 1 <= Z.max (h * s) 1 <= Z.max h 1 * s) by nia.
  assert (Hws : 1 <= Z.max (w * s) 1 <= Z.max w 1 * s) by nia.
  set (b' := Z.max b 1) in *. set (c' := Z.max c 1) in *.
  set (h' := Z.max h 1) in *. set (w' := Z.max w 1) in *.
  set (q' := Z.max q 1) in *.
  set (hs := Z.max (h * s) 1) in *. set (ws := Z.max (w * s) 1) in *.
  assert (1 <= b') by (unfold b'; lia). assert (1 <= h') by (unfold h'; lia).
  assert (1 <= w') by (unfold w'; lia).
  intros Hbound.
  assert (Hmain : b' * (q' * (h' * (w' * (s * s)))) <= b' * (c' * (h' * (w' * 1))) * (s * s)).
  { replace (b' * (c' * (h' * (w' * 1))) * (s * s))
      with (b' * (c' * (h' * (w' * (s * s))))) by ring.
    apply Z.mul_le_mono_nonneg_l; [lia|].
    apply Z.mul_le_mono_nonneg_r; [|lia]. nia. }
  repeat split.
  - replace (b' * (s * (s * (q' * (h' * (w' * 1))))))
      with (b' * (q' * (h' * (w' * (s * s))))) by ring. lia.
  - replace (b' * (q' * (s * (s * (h' * (w' * 1))))))
      with (b' * (q' * (h' * (w' * (s * s))))) by ring. lia.
  - transitivity (b' * (q' * (h' * (w' * (s * s))))); [|lia].
    replace (b' * (q' * (h' * (w' * (s * s)))))
      with (b' * (q' * ((h' * s) * ((w' * s) * 1)))) by ring.
    apply Z.mul_le_mono_nonneg_l; [lia|].
    apply Z.mul_le_mono_nonneg_l; [lia|].
    apply Z.mul_le_mono_nonneg; lia.
Qed.

(** * Further properties of the transforms *)

Section ForwardFurther.
Context {A : Type} `{!Inhabited A}.
Implicit Types x tmp : Tensor A.

Lemma permuted_storage md x b C h w s :
  storage (permuted md x b C h w s) = storage x.
Proof. destruct md; reflexivity. Qed.

Lemma numel_permuted md x b C h w s :
  numel (size (permuted md x b C h w s)) = numel [b; C * s * s; h; w].
Proof. rewrite size_permuted. unfold numel; simpl. ring. Qed.

(** The storage offset of a coordinate of the permuted tensor is the
    row-major position of its source coordinate in the input. *)
Lemma permuted_offset md x b C h w s bi co hi wi by_ bx :
  0 <= bi < b -> 0 <= co < C -> 0 <= hi < h -> 0 <= wi < w ->
  0 <= by_ < s -> 0 <= bx < s ->
  offset_of [bi; co; hi; by_; wi; bx] (stride (permuted md x b C h w s)) =
  ravel [b; C * s * s; h; w] [bi; input_channel md s C co by_ bx; hi; wi].
Proof.
  intros Hbi Hco Hhi Hwi Hby Hbx.
  destruct md; cbn [permuted DCR_permuted CRD_permuted stride input_channel];
    simpl; unfold stride_prod, numel; simpl; rewrite ?Z.max_l by lia; ring.
Qed.

Lemma output_of_well_formed md x b C h w s :
  well_formed x -> size x = [b; C * s * s; h; w] -> 1 <= s -> 0 <= C ->
  well_formed (output_of (permuted md x b C h w s) b C h w s).
Proof.
  intros Hwf Hsz Hs HC.
  assert (0 <= b /\ 0 <= h /\ 0 <= w) as (Hb & Hh & Hw)
    by (destruct (well_formed_sizes _ _ _ _ _ Hwf Hsz); tauto).
  split; [|split].
  - cbn [output_of size]. repeat (constructor; [nia|]). constructor.
  - pose proof (length_output_of md x b C h w s Hwf Hsz Hs HC) as Hlen.
    rewrite Hlen. destruct Hwf as (_ & -> & _). rewrite Hsz.
    cbn [output_of size]. unfold numel; simpl. ring.
  - apply output_of_contiguous; lia.
Qed.

(** ** The output stores a permutation of the input's elements *)

Lemma fmap_lookup_total_seqZ (l : list A) :
  (fun j => l !!! Z.to_nat j) <$> seqZ 0 (Z.of_nat (length l)) = l.
Proof.
  apply list_eq. intros i. rewrite list_lookup_fmap.
  destruct (decide (i < length l)%nat) as [Hi|Hi].
  - rewrite lookup_seqZ_lt by lia. simpl. rewrite Z.add_0_l, Nat2Z.id.
    symmetry. apply list_lookup_lookup_total_lt. exact Hi.
  - rewrite lookup_seqZ_ge by lia. simpl. symmetry.
    apply lookup_ge_None. lia.
Qed.

(** A function that maps [[0, n)] into itself without collision
    permutes the positions below [n]. *)
Lemma fmap_seqZ_Permutation (f : Z -> Z) n :
  (forall k, 0 <= k < n -> 0 <= f k < n) ->
  (forall k k', 0 <= k < n -> 0 <= k' < n -> f k = f k' -> k = k') ->
  f <$> seqZ 0 n ≡ₚ seqZ 0 n.
Proof.
  intros Hrange Hinj. apply NoDup_Permutation_bis.
  - apply NoDup_ListNoDup. apply NoDup_fmap_2_strong; [|apply NoDup_seqZ].
    intros k k' Hk Hk' E. apply elem_of_seqZ in Hk, Hk'. apply Hinj; [lia | lia | exact E].
  - rewrite length_fmap. reflexivity.
  - intros a Ha. apply list_elem_of_In in Ha. apply list_elem_of_In.
    apply list_elem_of_fmap in Ha as (k & -> & Hk).
    apply elem_of_seqZ in Hk. apply elem_of_seqZ.
    pose proof (Hrange k ltac:(lia)). lia.
Qed.

Lemma materialize_Permutation (t : Tensor A) :
  Z.of_nat (length (storage t)) = numel (size t) ->
  (forall k, 0 <= k < numel (size t) ->
     0 <= offset_of (unravel (size t) k) (stride t) < numel (size t)) ->
  (forall k k', 0 <= k < numel (size t) -> 0 <= k' < numel (size t) ->
     offset_of (unravel (size t) k) (stride t) =
     offset_of (unravel (size t) k') (stride t) -> k = k') ->
  storage (materialize t) ≡ₚ storage t.
Proof.
  intros Hlen Hrange Hinj. unfold materialize. cbn [storage].
  set (src := fun k => offset_of (unravel (size t) k) (stride t)).
  replace ((fun k => storage t !!! Z.to_nat (offset_of (unravel (size t) k) (stride t)))
             <$> seqZ 0 (numel (size t)))
    with ((fun j => storage t !!! Z.to_nat j) <$> (src <$> seqZ 0 (numel (size t))))
    by (rewrite <- list_fmap_compose; reflexivity).
  rewrite (fmap_seqZ_Permutation src _ Hrange Hinj).
  rewrite <- Hlen. rewrite fmap_lookup_total_seqZ. reflexivity.
Qed.

Lemma in_range_six n0 n1 n2 n3 n4 n5 idx :
  in_range [n0; n1; n2; n3; n4; n5] idx ->
  exists i0 i1 i2 i3 i4 i5,
    idx = [i0; i1; i2; i3; i4; i5] /\
    0 <= i0 < n0 /\ 0 <= i1 < n1 /\ 0 <= i2 < n2 /\
    0 <= i3 < n3 /\ 0 <= i4 < n4 /\ 0 <= i5 < n5.
Proof.
  intros H.
  repeat match goal with
         | H : in_range _ _ |- _ => inversion H; subst; clear H
         | H : Forall2 _ _ _ |- _ => inversion H; subst; clear H
         end.
  do 6 eexists. split; [reflexivity|]. tauto.
Qed.

(** The source position of a row-major position of the permuted
    tensor, with the coordinate it comes from. *)
Lemma permuted_source md x b C h w s k :
  0 <= b -> 0 <= C -> 0 <= h -> 0 <= w -> 1 <= s ->
  0 <= k < numel (size (permuted md x b C h w s)) ->
  exists bi co hi by_ wi bx,
    unravel [b; C; h; s; w; s] k = [bi; co; hi; by_; wi; bx] /\
    (0 <= bi < b /\ 0 <= co < C /\ 0 <= hi < h /\
     0 <= by_ < s /\ 0 <= wi < w /\ 0 <= bx < s) /\
    offset_of (unravel (size (permuted md x b C h w s)) k)
      (stride (permuted md x b C h w s)) =
    ravel [b; C * s * s; h; w] [bi; input_channel md s C co by_ bx; hi; wi].
Proof.
  intros Hb HC Hh Hw Hs Hk. rewrite size_permuted in *.
  assert (Forall (fun n => 0 < n) [b; C; h; s; w; s]) as Hpos.
  { apply sizes_pos; [repeat (constructor; [lia|]); constructor | lia]. }
  destruct (in_range_six _ _ _ _ _ _ _ (unravel_in_range _ k Hpos Hk))
    as (bi & co & hi & by_ & wi & bx & E & Hbi & Hco & Hhi & Hby & Hwi & Hbx).
  exists bi, co, hi, by_, wi, bx. split; [exact E|]. split; [tauto|].
  rewrite E. apply permuted_offset; assumption.
Qed.

Lemma output_storage_Permutation md x b C h w s :
  well_formed x -> size x = [b; C * s * s; h; w] -> 1 <= s -> 0 <= C ->
  storage (output_of (permuted md x b C h w s) b C h w s) ≡ₚ storage x.
Proof.
  intros Hwf Hsz Hs HC.
  assert (0 <= b /\ 0 <= h /\ 0 <= w) as (Hb & Hh & Hw)
    by (destruct (well_formed_sizes _ _ _ _ _ Hwf Hsz); tauto).
  destruct Hwf as (_ & Hlen & _).
  cbn [output_of storage]. unfold contiguous.
  destruct (is_contiguous (permuted md x b C h w s));
    [rewrite permuted_storage; reflexivity|].
  rewrite <- (permuted_storage md x b C h w s).
  assert (forall bi co hi by_ wi bx,
            0 <= bi < b /\ 0 <= co < C /\ 0 <= hi < h /\
            0 <= by_ < s /\ 0 <= wi < w /\ 0 <= bx < s ->
            in_range [b; C * s * s; h; w]
              [bi; input_channel md s C co by_ bx; hi; wi]) as Hsrc.
  { intros bi co hi by_ wi bx Hr.
    pose proof (input_channel_bounds md s C co by_ bx) as Hch.
    repeat (constructor; [lia|]). constructor. }
  apply materialize_Permutation.
  - rewrite permuted_storage, numel_permuted, Hlen, Hsz. reflexivity.
  - intros k Hk.
    destruct (permuted_source md x b C h w s k Hb HC Hh Hw Hs Hk)
      as (bi & co & hi & by_ & wi & bx & _ & Hr & ->).
    rewrite numel_permuted. apply ravel_bounds. apply Hsrc. exact Hr.
  - intros k k' Hk Hk' E.
    destruct (permuted_source md x b C h w s k Hb HC Hh Hw Hs Hk)
      as (bi & co & hi & by_ & wi & bx & Eu & Hr & Eo).
    destruct (permuted_source md x b C h w s k' Hb HC Hh Hw Hs Hk')
      as (bi' & co' & hi' & by' & wi' & bx' & Eu' & Hr' & Eo').
    rewrite Eo, Eo' in E.
    apply (f_equal (unravel [b; C * s * s; h; w])) in E.
    rewrite !unravel_ravel in E by (apply Hsrc; assumption).
    injection E as -> Ech -> ->.
    apply input_channel_inj in Ech as (-> & -> & ->); try lia.
    rewrite size_permuted in Hk, Hk'.
    assert (Forall (fun n => 0 < n) [b; C; h; s; w; s]) as Hpos.
    { apply sizes_pos; [repeat (constructor; [lia|]); constructor | lia]. }
    rewrite <- (ravel_unravel _ k Hpos Hk), <- (ravel_unravel _ k' Hpos Hk').
    rewrite Eu, Eu'. reflexivity.
Qed.

(** ** Tensors with the same elements *)

Lemma tensor_of_ext (data data' : list A) sizes :
  Forall (fun n => 0 <= n) sizes ->
  Z.of_nat (length data) = numel sizes ->
  Z.of_nat (length data') = numel sizes ->
  (forall o, in_range sizes o ->
     get (tensor_of data sizes) o = get (tensor_of data' sizes) o) ->
  data = data'.
Proof.
  intros Hnn Hl Hl' Hget.
  apply (list_eq_same_length _ _ (length data)); [lia | reflexivity |].
  intros i a a' Hi Ha Ha'.
  assert (0 <= Z.of_nat i < numel sizes) as Hk by lia.
  assert (Forall (fun n => 0 < n) sizes) as Hpos by (apply sizes_pos; [assumption|lia]).
  pose proof (unravel_in_range sizes _ Hpos Hk) as Hr.
  specialize (Hget _ Hr).
  rewrite !get_tensor_of, ravel_unravel, Nat2Z.id in Hget by assumption.
  apply list_lookup_total_correct in Ha, Ha'. congruence.
Qed.

End ForwardFurther.

(** X1. On every valid input within the 64-bit range of the tensor
    library the CRD transform returns exactly the canonical pixel
    shuffle of the input: the same sizes, strides and storage, hence
    the same element at every coordinate. *)
Theorem CRD_forward_equals_pixel_shuffle {A} `{!Inhabited A} (x : Tensor A)
    (b C h w s : Z) (mode : string) :
  well_formed x -> size x = [b; C * s * s; h; w] -> 1 <= s -> 0 <= C ->
  within_int64 (size x) s ->
  exists y,
    DepthToSpace_CRD.forward tt x s mode = ok y /\
    canonical_pixel_shuffle x s = ok y.
Proof.
  intros Hwf Hsz Hs HC _.
  assert (0 <= b /\ 0 <= h /\ 0 <= w) as (Hb & Hh & Hw)
    by (destruct (well_formed_sizes _ _ _ _ _ Hwf Hsz); tauto).
  eexists. split; [exact (transform_value CRD x b C h w s Hwf Hsz Hs HC)|].
  rewrite (canonical_pixel_shuffle_value x b C h w s Hsz Hs).
  f_equal. unfold output_of, tensor_of. f_equal. symmetry.
  pose proof (output_of_well_formed CRD x b C h w s Hwf Hsz Hs HC) as (_ & Hlen & _).
  pose proof (position_bijection_holds CRD x b C h w s (proj2 (proj2 Hwf)) Hsz Hs)
    as [Hpos _].
  apply (tensor_of_ext _ _ [b; C; h * s; w * s]).
  - repeat (constructor; [nia|]). constructor.
  - exact Hlen.
  - rewrite length_fmap, length_seqZ, Z2Nat.id; [reflexivity|].
    apply numel_nonneg. repeat (constructor; [nia|]). constructor.
  - intros o Hr. rewrite canonical_pixel_shuffle_get by exact Hr.
    apply (Hpos o Hr).
Qed.

Lemma CRD_forward_equals_pixel_shuffle_witness :
  exists y,
    DepthToSpace_CRD.forward tt test_x 2 "CRD" = ok y /\
    canonical_pixel_shuffle test_x 2 = ok y.
Proof.
  apply (CRD_forward_equals_pixel_shuffle test_x 1 2 2 2 2 "CRD").
  - exact test_x_well_formed.
  - reflexivity.
  - lia.
  - lia.
  - vm_compute. discriminate.
Defined.

(** X2. The output of either transform on a valid input within the
    64-bit range of the tensor library is again a valid input: its
    sizes are non-negative, its storage has one element per coordinate
    and it is contiguous. *)
Theorem forward_output_well_formed {A} `{!Inhabited A} (md : Mode)
    (x : Tensor A) (b C h w s : Z) (mode : string) :
  well_formed x -> size x = [b; C * s * s; h; w] -> 1 <= s -> 0 <= C ->
  within_int64 (size x) s ->
  exists y, forward_of md x s mode = ok y /\ well_formed y.
Proof.
  intros Hwf Hsz Hs HC _.
  exists (output_of (permuted md x b C h w s) b C h w s). split.
  - pose proof (transform_value md x b C h w s Hwf Hsz Hs HC) as Hy.
    destruct md; exact Hy.
  - apply output_of_well_formed; assumption.
Qed.

Lemma forward_output_well_formed_witness :
  exists y, forward_of DCR test_x 2 "DCR" = ok y /\ well_formed y.
Proof.
  apply (forward_output_well_formed DCR test_x 1 2 2 2 2 "DCR").
  - exact test_x_well_formed.
  - reflexivity.
  - lia.
  - lia.
  - vm_compute. discriminate.
Defined.

(** X3. On a valid input within the 64-bit range of the tensor
    library, the storage of the output of either transform is a
    permutation of the storage of the input: every stored value is
    kept, with its multiplicity. *)
Theorem forward_storage_Permutation {A} `{!Inhabited A} (md : Mode)
    (x : Tensor A) (b C h w s : Z) (mode : string) :
  well_formed x -> size x = [b; C * s * s; h; w] -> 1 <= s -> 0 <= C ->
  within_int64 (size x) s ->
  exists y, forward_of md x s mode = ok y /\ storage y ≡ₚ storage x.
Proof.
  intros Hwf Hsz Hs HC _.
  exists (output_of (permuted md x b C h w s) b C h w s). split.
  - pose proof (transform_value md x b C h w s Hwf Hsz Hs HC) as Hy.
    destruct md; exact Hy.
  - apply output_storage_Permutation; assumption.
Qed.

Lemma forward_storage_Permutation_witness :
  exists y, forward_of CRD test_x 2 "CRD" = ok y /\ storage y ≡ₚ storage test_x.
Proof.
  apply (forward_storage_Permutation CRD test_x 1 2 2 2 2 "CRD").
  - exact test_x_well_formed.
  - reflexivity.
  - lia.
  - lia.
  - vm_compute. discriminate.
Defined.

(** X4. An input that is not four-dimensional is refused by both
    transforms with the [ValueError] of the unpacking of [input.size()],
    whatever the block size, before any division or view. *)
Theorem forward_wrong_rank {A} `{!Inhabited A} (x : Tensor A) (s : Z)
    (mode : string) :
  length (size x) <> 4%nat ->
  exists msg,
    unpack4 (size x) = raise ValueError msg /\
    DepthToSpace_DCR.forward tt x s mode = raise ValueError msg /\
    DepthToSpace_CRD.forward tt x s mode = raise ValueError msg.
Proof.
  intros Hlen. unfold DepthToSpace_DCR.forward, DepthToSpace_CRD.forward.
  destruct (size x) as [|? [|? [|? [|? [|? ?]]]]]; simpl in *;
    try (eexists; repeat split; reflexivity).
  contradiction.
Qed.

Lemma forward_wrong_rank_witness :
  exists msg,
    unpack4 (size (tensor_of (Qz [1; 2; 3; 4]) [2; 2])) = raise ValueError msg /\
    DepthToSpace_DCR.forward tt (tensor_of (Qz [1; 2; 3; 4]) [2; 2]) 0 "DCR" =
      raise ValueError msg /\
    DepthToSpace_CRD.forward tt (tensor_of (Qz [1; 2; 3; 4]) [2; 2]) 0 "DCR" =
      raise ValueError msg.
Proof.
  apply (forward_wrong_rank (tensor_of (Qz [1; 2; 3; 4]) [2; 2]) 0 "DCR").
  simpl. lia.
Defined.

(** X5. With block size 0 both transforms fail on every
    four-dimensional input with the [ZeroDivisionError] of
    [c // (block_size ** 2)]: the block size is not validated, the
    division is simply the first thing to fail. *)
Theorem forward_block_size_zero {A} `{!Inhabited A} (x : Tensor A)
    (b c h w : Z) (mode : string) :
  size x = [b; c; h; w] ->
  DepthToSpace_DCR.forward tt x 0 mode =
    raise ZeroDivisionError "integer division or modulo by zero" /\
  DepthToSpace_CRD.forward tt x 0 mode =
    raise ZeroDivisionError "integer division or modulo by zero".
Proof.
  intros Hsz. unfold DepthToSpace_DCR.forward, DepthToSpace_CRD.forward.
  rewrite Hsz. split; reflexivity.
Qed.

Lemma forward_block_size_zero_witness :
  DepthToSpace_DCR.forward tt test_x 0 "DCR" =
    raise ZeroDivisionError "integer division or modulo by zero" /\
  DepthToSpace_CRD.forward tt test_x 0 "DCR" =
    raise ZeroDivisionError "integer division or modulo by zero".
Proof.
  apply (forward_block_size_zero test_x 1 8 2 2 "DCR"). reflexivity.
Defined.

(** X6. With a negative block size within the 64-bit range of the
    tensor library both transforms fail on every four-dimensional input
    with a [RuntimeError] of their first [view], which refuses the
    negative sizes it is asked for; the input is never permuted or
    copied. *)
Theorem forward_negative_block_size {A} `{!Inhabited A} (x : Tensor A)
    (b c h w s : Z) (mode : string) :
  size x = [b; c; h; w] -> 0 <= b -> 0 <= c -> s < 0 ->
  within_int64 (size x) s ->
  exists msg,
    view x [b; s; s; c / s ^ 2; h; w] = raise RuntimeError msg /\
    DepthToSpace_DCR.forward tt x s mode = raise RuntimeError msg /\
    view x [b; c / s ^ 2; s; s; h; w] = raise RuntimeError msg /\
    DepthToSpace_CRD.forward tt x s mode = raise RuntimeError msg.
Proof.
  intros Hsz Hb Hc Hs _. rewrite Z.pow_2_r.
  assert (0 <= c / (s * s)) as HC by (apply Z.div_pos; nia).
  unfold DepthToSpace_DCR.forward, DepthToSpace_CRD.forward.
  rewrite Hsz. cbn [unpack4 bind ok]. rewrite floordiv_square by lia.
  cbn [bind ok]. unfold view, infer_size. cbn [scan_shape].
  destruct (Z.eqb_spec b (-1)); [lia|].
  destruct (Z.leb_spec 0 b); [|lia].
  destruct (Z.eqb_spec (c / (s * s)) (-1)); [lia|].
  destruct (Z.leb_spec 0 (c / (s * s))); [|lia].
  destruct (Z.eqb_spec s (-1)).
  - eexists. repeat split; reflexivity.
  - destruct (Z.leb_spec 0 s); [lia|].
    eexists. repeat split; reflexivity.
Qed.

Lemma forward_negative_block_size_witness :
  exists msg,
    view test_x [1; -2; -2; 8 / (-2) ^ 2; 2; 2] = raise RuntimeError msg /\
    DepthToSpace_DCR.forward tt test_x (-2) "DCR" = raise RuntimeError msg /\
    view test_x [1; 8 / (-2) ^ 2; -2; -2; 2; 2] = raise RuntimeError msg /\
    DepthToSpace_CRD.forward tt test_x (-2) "DCR" = raise RuntimeError msg.
Proof.
  apply (forward_negative_block_size test_x 1 8 2 2 (-2) "DCR").
  - reflexivity.
  - lia.
  - lia.
  - lia.
  - vm_compute. discriminate.
Defined.

(** X7. The two modes really differ beyond one output channel: on every
    valid non-empty input with pairwise distinct elements, block size at
    least 2 and at least 2 output channels, the DCR and CRD outputs
    differ at coordinate [(0, 0, 0, 1)]. *)
Theorem DCR_CRD_differ_on_distinct_elements {A} `{!Inhabited A}
    (x : Tensor A) (b C h w s : Z) (m1 m2 : string) :
  well_formed x -> size x = [b; C * s * s; h; w] ->
  2 <= s -> 2 <= C -> 1 <= b -> 1 <= h -> 1 <= w ->
  NoDup (storage x) ->
  exists yd yc,
    DepthToSpace_DCR.forward tt x s m1 = ok yd /\
    DepthToSpace_CRD.forward tt x s m2 = ok yc /\
    in_range (size yd) [0; 0; 0; 1] /\ in_range (size yc) [0; 0; 0; 1] /\
    get yd [0; 0; 0; 1] <> get yc [0; 0; 0; 1].
Proof.
  intros Hwf Hsz Hs HC Hb Hh Hw Hnd.
  exists (output_of (permuted DCR x b C h w s) b C h w s),
         (output_of (permuted CRD x b C h w s) b C h w s).
  split; [exact (transform_value DCR x b C h w s Hwf Hsz ltac:(lia) ltac:(lia))|].
  split; [exact (transform_value CRD x b C h w s Hwf Hsz ltac:(lia) ltac:(lia))|].
  assert (in_range [b; C; h * s; w * s] [0; 0; 0; 1]) as Hr
    by (repeat (constructor; [nia|]); constructor).
  split; [exact Hr|]. split; [exact Hr|].
  destruct (position_bijection_holds DCR x b C h w s (proj2 (proj2 Hwf)) Hsz ltac:(lia))
    as [Hd _].
  destruct (position_bijection_holds CRD x b C h w s (proj2 (proj2 Hwf)) Hsz ltac:(lia))
    as [Hc _].
  destruct (Hd _ Hr) as [Hrd ->]. destruct (Hc _ Hr) as [Hrc ->].
  cbn [source_coord input_channel] in *.
  rewrite (Z.mod_small 0 s), (Z.mod_small 1 s), (Z.div_small 0 s), (Z.div_small 1 s)
    in * by lia.
  rewrite (get_contiguous x _ (proj2 (proj2 Hwf)) Hrd).
  rewrite (get_contiguous x _ (proj2 (proj2 Hwf)) Hrc).
  pose proof (ravel_bounds _ _ Hrd) as Bd. pose proof (ravel_bounds _ _ Hrc) as Bc.
  destruct Hwf as (_ & Hlen & _). rewrite <- Hlen in Bd, Bc.
  intros E.
  assert (Z.to_nat (ravel (size x) [0; 0 * s * C + 1 * C + 0; 0; 0]) =
          Z.to_nat (ravel (size x) [0; 0 * s * s + 0 * s + 1; 0; 0])) as Ek.
  { eapply NoDup_lookup; [exact Hnd | |].
    - apply list_lookup_lookup_total_lt. lia.
    - rewrite E. apply list_lookup_lookup_total_lt. lia. }
  apply Z2Nat.inj in Ek; [|lia|lia].
  rewrite Hsz in Ek. unfold numel in Ek; simpl in Ek. nia.
Qed.

Lemma DCR_CRD_differ_on_distinct_elements_witness :
  exists yd yc,
    DepthToSpace_DCR.forward tt (tensor_of (seqZ 0 32) [1; 2 * 2 * 2; 2; 2]) 2 "DCR" = ok yd /\
    DepthToSpace_CRD.forward tt (tensor_of (seqZ 0 32) [1; 2 * 2 * 2; 2; 2]) 2 "CRD" = ok yc /\
    in_range (size yd) [0; 0; 0; 1] /\ in_range (size yc) [0; 0; 0; 1] /\
    get yd [0; 0; 0; 1] <> get yc [0; 0; 0; 1].
Proof.
  apply (DCR_CRD_differ_on_distinct_elements
           (tensor_of (seqZ 0 32) [1; 2 * 2 * 2; 2; 2]) 1 2 2 2 2 "DCR" "CRD").
  - repeat split. repeat constructor; lia.
  - reflexivity.
  - lia.
  - lia.
  - lia.
  - lia.
  - lia.
  - apply NoDup_seqZ.
Defined.

(** * The path patcher: scanning *)

#[local] Arguments Ascii.eqb : simpl never.

Section PathScan.

Lemma starts_with_app p l : starts_with p (p ++ l) = true.
Proof. induction p as [|a p IH]; simpl; [reflexivity|]. rewrite Ascii.eqb_refl. exact IH. Qed.

Lemma starts_with_inv p l : starts_with p l = true -> exists l', l = p ++ l'.
Proof.
  revert l. induction p as [|a p IH]; intros l; simpl.
  - intros _. exists l. reflexivity.
  - destruct l as [|c l]; [discriminate|].
    intros [Hac Hp]%andb_true_iff. apply Ascii.eqb_eq in Hac as ->.
    destruct (IH _ Hp) as [l' ->]. exists l'. reflexivity.
Qed.

Lemma plain_literal_usr : plain_literal pattern_usr.
Proof.
  exists (list_ascii_of_string "usr"). split; [reflexivity|].
  repeat constructor; discriminate.
Qed.

Lemma plain_literal_opt : plain_literal pattern_opt.
Proof.
  exists (list_ascii_of_string "opt"). split; [reflexivity|].
  repeat constructor; discriminate.
Qed.

Lemma sysroot_guard_no_slash : Forall (fun c => c <> slash) sysroot_guard.
Proof. repeat constructor; discriminate. Qed.

Lemma plain_literal_tail lit :
  plain_literal lit ->
  exists tail, lit = slash :: tail /\ Forall (fun c => c <> slash) tail.
Proof.
  intros (tail & -> & H). exists tail. split; [reflexivity|].
  eapply Forall_impl; [exact H|]. intros c [? _]. assumption.
Qed.

(** No match starts at a character that is not a slash. *)
Lemma matches_at_not_slash lit b c r :
  plain_literal lit -> c <> slash -> matches_at lit b (c :: r) = false.
Proof.
  intros (tail & -> & _) Hc. unfold matches_at. simpl.
  destruct (Ascii.eqb_spec slash c) as [E|_]; [congruence|].
  simpl. rewrite andb_false_r. reflexivity.
Qed.

Lemma has_match_app_plain lit b p t :
  plain_literal lit -> Forall (fun c => c <> slash) p ->
  has_match lit b (p ++ t) = has_match lit (rev p ++ b) t.
Proof.
  intros Hlit Hp. revert b. induction Hp as [|a p Ha _ IH]; intros b; simpl.
  - reflexivity.
  - rewrite matches_at_not_slash by assumption. simpl. rewrite IH.
    rewrite <- app_assoc. reflexivity.
Qed.

Lemma insert_scan_app_plain v lit b p t :
  plain_literal lit -> Forall (fun c => c <> slash) p ->
  insert_scan v lit b (p ++ t) = p ++ insert_scan v lit (rev p ++ b) t.
Proof.
  intros Hlit Hp. revert b. induction Hp as [|a p Ha _ IH]; intros b; simpl.
  - reflexivity.
  - rewrite matches_at_not_slash by assumption. simpl. rewrite IH.
    rewrite <- app_assoc. reflexivity.
Qed.

Lemma insert_scan_nil v lit b r : insert_scan v lit b r = [] -> r = [].
Proof.
  destruct r as [|c r]; [reflexivity|]. simpl. intros E.
  apply app_eq_nil in E as [_ E]. discriminate.
Qed.

(** Without a match the text is copied. *)
Lemma insert_scan_no_match_id v lit b r :
  has_match lit b r = false -> insert_scan v lit b r = r.
Proof.
  revert b. induction r as [|c r IH]; intros b; simpl; [reflexivity|].
  intros [Hm Hr]%orb_false_iff. rewrite Hm. simpl. rewrite IH by exact Hr.
  reflexivity.
Qed.

(** The characters of a literal being skipped are passed over. *)
Lemma subn_scan_skip repl lit t b r :
  subn_scan repl lit (length t) b (t ++ r) = subn_scan repl lit 0 (rev t ++ b) r.
Proof.
  revert b. induction t as [|a t IH]; intros b; simpl; [reflexivity|].
  rewrite IH, <- app_assoc. reflexivity.
Qed.

(** The scan of [re.subn] writes the insertion reading of the text, and
    counts no replacement only when the pattern matches nowhere. *)
Lemma subn_scan_insert_scan v lit :
  plain_literal lit ->
  forall n r b,
    (length r <= n)%nat ->
    fst (subn_scan (v ++ lit) lit 0 b r) = insert_scan v lit b r /\
    (snd (subn_scan (v ++ lit) lit 0 b r) = 0%nat -> has_match lit b r = false).
Proof.
  intros Hlit. destruct (plain_literal_tail lit Hlit) as (tail & Elit & Htail).
  induction n as [|n IH]; intros r b Hlen.
  - destruct r; [split; reflexivity | simpl in Hlen; lia].
  - destruct r as [|c r]; [split; reflexivity|].
    cbn [subn_scan insert_scan has_match].
    destruct (matches_at lit b (c :: r)) eqn:Hm.
    + assert (exists r2, c :: r = lit ++ r2) as [r2 Er].
      { unfold matches_at in Hm. apply andb_true_iff in Hm as [Hm _].
        apply andb_true_iff in Hm as [_ Hm]. exact (starts_with_inv _ _ Hm). }
      rewrite Elit in Er. simpl in Er. injection Er as -> ->.
      replace (length lit - 1)%nat with (length tail) by (rewrite Elit; simpl; lia).
      rewrite subn_scan_skip.
      destruct (IH r2 (rev tail ++ slash :: b)) as [IH1 _].
      { simpl in Hlen. rewrite length_app in Hlen. lia. }
      destruct (subn_scan (v ++ lit) lit 0 (rev tail ++ slash :: b) r2) as [out k].
      simpl in IH1. subst out. split; [|discriminate].
      simpl. rewrite insert_scan_app_plain by assumption.
      rewrite Elit, <- !app_assoc. reflexivity.
    + destruct (IH r (c :: b)) as [IH1 IH2]; [simpl in Hlen; lia|].
      destruct (subn_scan (v ++ lit) lit 0 (c :: b) r) as [out k].
      simpl in *. subst out. split; [reflexivity|]. exact IH2.
Qed.

Lemma expand_template_plain te var lit :
  existsb (Ascii.eqb backslash) var = false ->
  expand_template te var lit = Some (var ++ lit).
Proof. intros H. unfold expand_template. rewrite H. reflexivity. Qed.

(** One turn of the loop inserts the prefix before every match. *)
Lemma replace_pattern_insert_scan te var lit content :
  existsb (Ascii.eqb backslash) var = false -> plain_literal lit ->
  replace_pattern te var lit content = Some (insert_scan var lit [] content).
Proof.
  intros Hvar Hlit. unfold replace_pattern, subn.
  rewrite expand_template_plain by assumption.
  destruct (subn_scan_insert_scan var lit Hlit (length content) content [])
    as [H1 H2]; [lia|].
  destruct (subn_scan (var ++ lit) lit 0 [] content) as [out k].
  simpl in *. subst out. destruct k as [|k]; simpl; [|reflexivity].
  rewrite insert_scan_no_match_id by (apply H2; reflexivity). reflexivity.
Qed.

Lemma replace_paths_insert_scan te var content :
  existsb (Ascii.eqb backslash) var = false ->
  replace_paths te (PathReplacer_init var) content =
    Some (insert_scan var pattern_opt []
            (insert_scan var pattern_usr [] content)).
Proof.
  intros Hvar. unfold replace_paths, PathReplacer_init. cbn [patterns cmake_sysroot_var].
  cbn [replace_patterns].
  rewrite (replace_pattern_insert_scan te var pattern_usr content Hvar plain_literal_usr).
  rewrite (replace_pattern_insert_scan te var pattern_opt _ Hvar plain_literal_opt).
  reflexivity.
Qed.

End PathScan.

(** * The path patcher: what a pass leaves behind *)

Section PathMatches.

Lemma starts_with_prefix p l : starts_with p l = true <-> p `prefix_of` l.
Proof.
  split.
  - intros [l' ->]%starts_with_inv. apply prefix_app_r. reflexivity.
  - intros [l' ->]. apply starts_with_app.
Qed.

Lemma sysroot_guard_head : exists g, sysroot_guard = dollar :: g.
Proof. eexists. reflexivity. Qed.

Lemma lookbehind_guard_app b : lookbehind_guard (rev sysroot_guard ++ b) = true.
Proof. apply starts_with_app. Qed.

Lemma agree_behind_cons b b' c : agree_behind b b' -> agree_behind (c :: b) (c :: b').
Proof.
  intros H p Hp Hpre. destruct p as [|a p]; [apply prefix_nil|].
  pose proof (prefix_cons_inv_1 _ _ _ _ Hpre) as ->.
  apply prefix_cons. apply H.
  - inversion Hp; assumption.
  - exact (prefix_cons_inv_2 _ _ _ _ Hpre).
Qed.

Lemma agree_behind_slash b b' : agree_behind (slash :: b) b'.
Proof.
  intros p Hp Hpre. destruct p as [|a p]; [apply prefix_nil|].
  pose proof (prefix_cons_inv_1 _ _ _ _ Hpre) as ->.
  inversion Hp; subst. congruence.
Qed.

Lemma agree_behind_guard b b' :
  agree_behind b b' -> lookbehind_guard b = true -> lookbehind_guard b' = true.
Proof.
  unfold lookbehind_guard. intros H Hg. apply starts_with_prefix.
  apply H; [|apply starts_with_prefix; exact Hg].
  apply Forall_rev. exact sysroot_guard_no_slash.
Qed.

(** Characters of a literal that show after the scan were there
    before it: an inserted prefix starts with a dollar. *)
Lemma starts_with_insert_scan lit q :
  plain_literal lit -> Forall (fun c => c <> slash /\ c <> dollar) q ->
  forall r b,
    starts_with q (insert_scan sysroot_guard lit b r) = true ->
    starts_with q r = true.
Proof.
  intros Hlit Hq. induction Hq as [|a q [Ha1 Ha2] _ IH]; intros r b; [reflexivity|].
  destruct r as [|d r]; [discriminate|]. cbn [insert_scan].
  destruct (matches_at lit b (d :: r)) eqn:Hm.
  - destruct sysroot_guard_head as [g ->]. cbn [app starts_with].
    destruct (Ascii.eqb_spec a dollar); [contradiction | discriminate].
  - cbn [app starts_with]. intros [Had Hrest]%andb_true_iff.
    rewrite Had. simpl. exact (IH _ _ Hrest).
Qed.

Lemma lookahead_insert_scan v lit b r :
  plain_literal lit -> lookahead r = false ->
  lookahead (insert_scan v lit b r) = false.
Proof.
  intros Hlit. unfold lookahead. destruct r as [|d r]; [discriminate|].
  cbn [starts_with]. intros [Hd Hend]%orb_false_iff.
  rewrite andb_true_r in Hd. apply Ascii.eqb_neq in Hd.
  cbn [insert_scan]. rewrite matches_at_not_slash by (assumption || congruence).
  cbn [app starts_with]. apply orb_false_iff. split.
  - rewrite andb_true_r. apply Ascii.eqb_neq. exact Hd.
  - cbn [at_dollar] in *. destruct r as [|e r]; [exact Hend|].
    cbn [insert_scan]. destruct (matches_at lit (d :: b) (e :: r)); [|reflexivity].
    destruct v; reflexivity.
Qed.

(** After a pass that inserts the guard before the matches of [lit],
    no pattern whose matches were all matches of [lit] matches. *)
Lemma insert_scan_kills_matches lit lit' :
  plain_literal lit -> plain_literal lit' ->
  forall r b b',
    agree_behind b b' -> covered lit lit' b r ->
    has_match lit' b' (insert_scan sysroot_guard lit b r) = false.
Proof.
  intros Hlit Hlit'. induction r as [|c r IH]; intros b b' Hag Hcov; [reflexivity|].
  destruct Hcov as [Hc0 Hcov]. cbn [insert_scan].
  destruct (matches_at lit b (c :: r)) eqn:Hm.
  - rewrite has_match_app_plain by (assumption || apply sysroot_guard_no_slash).
    cbn [has_match]. apply orb_false_iff. split.
    + unfold matches_at. rewrite lookbehind_guard_app. reflexivity.
    + apply IH; [|exact Hcov].
      assert (c = slash) as ->.
      { destruct (Ascii.eqb_spec c slash) as [|Hne]; [assumption|].
        rewrite (matches_at_not_slash lit b c r Hlit Hne) in Hm. discriminate. }
      apply agree_behind_slash.
  - cbn [app has_match]. apply orb_false_iff. split;
      [|apply IH; [apply agree_behind_cons|]; assumption].
    assert (matches_at lit' b (c :: r) = false) as Hm'.
    { destruct (matches_at lit' b (c :: r)); [|reflexivity].
      specialize (Hc0 eq_refl). congruence. }
    unfold matches_at in Hm' |- *.
    destruct (lookbehind_guard b) eqn:Hg.
    { rewrite (agree_behind_guard _ _ Hag Hg). reflexivity. }
    cbn [negb andb] in Hm'.
    destruct Hlit' as (tail' & -> & Htail').
    assert (Forall (fun c => c <> slash) tail') as Htail''
      by (eapply Forall_impl; [exact Htail'|]; intros ? [? _]; assumption).
    destruct (starts_with (slash :: tail') (c :: r)) eqn:Hs.
    + cbn [andb] in Hm'.
      destruct (starts_with_inv _ _ Hs) as [r3 Er]. simpl in Er. injection Er as -> ->.
      rewrite insert_scan_app_plain by assumption.
      replace (drop (length (slash :: tail')) (slash :: tail' ++ r3)) with r3 in Hm'
        by (symmetry; apply (drop_app_length (slash :: tail') r3)).
      replace (drop (length (slash :: tail'))
                 (slash :: tail' ++ insert_scan sysroot_guard lit (rev tail' ++ slash :: b) r3))
        with (insert_scan sysroot_guard lit (rev tail' ++ slash :: b) r3)
        by (symmetry; apply (drop_app_length (slash :: tail'))).
      rewrite (lookahead_insert_scan _ _ _ _ Hlit Hm'). apply andb_false_r.
    + destruct (starts_with (slash :: tail')
                  (c :: insert_scan sysroot_guard lit (c :: b) r)) eqn:Hs';
        [|rewrite andb_false_r; reflexivity].
      cbn [starts_with] in Hs, Hs'. apply andb_true_iff in Hs' as [Hc Hrest].
      rewrite Hc in Hs. cbn [andb] in Hs.
      rewrite (starts_with_insert_scan lit tail' Hlit Htail' _ _ Hrest) in Hs.
      discriminate.
Qed.

Lemma covered_refl lit b r : covered lit lit b r.
Proof. revert b. induction r as [|c r IH]; intros b; simpl; auto. Qed.

Lemma covered_no_match lit lit' b r :
  has_match lit' b r = false -> covered lit lit' b r.
Proof.
  revert b. induction r as [|c r IH]; intros b; simpl; [auto|].
  intros [Hm Hr]%orb_false_iff. split; [rewrite Hm; discriminate | auto].
Qed.

Lemma agree_behind_refl b : agree_behind b b.
Proof. intros p _ H. exact H. Qed.

End PathMatches.

(** * The path patcher: properties of [replace_paths] *)

Section PathProperties.

Lemma default_sysroot_var_plain :
  existsb (Ascii.eqb backslash) default_sysroot_var = false.
Proof. reflexivity. Qed.

(** The value of [replace_paths] with the default prefix, and the
    matches it leaves. *)
Lemma replace_paths_default te content :
  let out := insert_scan sysroot_guard pattern_opt []
               (insert_scan sysroot_guard pattern_usr [] content) in
  replace_paths te (PathReplacer_init default_sysroot_var) content = Some out /\
  has_match pattern_usr [] out = false /\
  has_match pattern_opt [] out = false.
Proof.
  intros out. split; [|split].
  - apply (replace_paths_insert_scan te default_sysroot_var content).
    exact default_sysroot_var_plain.
  - apply (insert_scan_kills_matches pattern_opt pattern_usr
             plain_literal_opt plain_literal_usr); [apply agree_behind_refl|].
    apply covered_no_match.
    apply (insert_scan_kills_matches pattern_usr pattern_usr
             plain_literal_usr plain_literal_usr);
      [apply agree_behind_refl | apply covered_refl].
  - apply (insert_scan_kills_matches pattern_opt pattern_opt
             plain_literal_opt plain_literal_opt);
      [apply agree_behind_refl | apply covered_refl].
Qed.

Lemma replace_paths_no_match te var content :
  existsb (Ascii.eqb backslash) var = false ->
  has_match pattern_usr [] content = false ->
  has_match pattern_opt [] content = false ->
  replace_paths te (PathReplacer_init var) content = Some content.
Proof.
  intros Hvar Hu Ho. rewrite replace_paths_insert_scan by exact Hvar.
  rewrite (insert_scan_no_match_id var pattern_usr [] content Hu).
  rewrite (insert_scan_no_match_id var pattern_opt [] content Ho).
  reflexivity.
Qed.

Lemma insert_scan_sublist v lit b r : r `sublist_of` insert_scan v lit b r.
Proof.
  revert b. induction r as [|c r IH]; intros b; simpl; [constructor|].
  apply sublist_inserts_l. apply sublist_skip. apply IH.
Qed.

Lemma insert_scan_length v lit b r :
  exists n, length (insert_scan v lit b r) = (length r + n * length v)%nat.
Proof.
  revert b. induction r as [|c r IH]; intros b; simpl.
  - exists 0%nat. reflexivity.
  - destruct (IH (c :: b)) as [n Hn].
    destruct (matches_at lit b (c :: r)).
    + exists (S n). rewrite length_app. simpl. rewrite Hn. lia.
    + exists n. simpl. rewrite Hn. lia.
Qed.

Lemma matches_at_starts_false lit b r :
  starts_with lit r = false -> matches_at lit b r = false.
Proof.
  intros H. unfold matches_at. rewrite H, andb_false_r. reflexivity.
Qed.

End PathProperties.

(** X9. [replace_paths] with the default prefix leaves no path to
    patch: in its output neither pattern matches anywhere, that is,
    every [/usr] or [/opt] followed by a slash or ending the text has
    [${CMAKE_SYSROOT}] before it. *)
Theorem replace_paths_leaves_no_match (template_escape : text -> text -> option text)
    (content : text) :
  exists out,
    replace_paths template_escape (PathReplacer_init default_sysroot_var) content
      = Some out /\
    has_match pattern_usr [] out = false /\
    has_match pattern_opt [] out = false.
Proof. eexists. apply replace_paths_default. Qed.

(** X10. [replace_paths] with the default prefix is idempotent: applied
    to its own output it changes nothing, so a patched file is not
    patched twice. *)
Theorem replace_paths_idempotent (template_escape : text -> text -> option text)
    (content : text) :
  exists out,
    replace_paths template_escape (PathReplacer_init default_sysroot_var) content
      = Some out /\
    replace_paths template_escape (PathReplacer_init default_sysroot_var) out
      = Some out.
Proof.
  destruct (replace_paths_default template_escape content) as (H & Hu & Ho).
  eexists. split; [exact H|].
  apply replace_paths_no_match; [exact default_sysroot_var_plain | exact Hu | exact Ho].
Qed.

(** X11. [replace_paths] only inserts: for a prefix without backslash
    the input is a subsequence of the output, and the output is longer
    by a whole number of prefixes. *)
Theorem replace_paths_only_inserts (template_escape : text -> text -> option text)
    (var content : text) :
  existsb (Ascii.eqb backslash) var = false ->
  exists out n,
    replace_paths template_escape (PathReplacer_init var) content = Some out /\
    content `sublist_of` out /\
    length out = (length content + n * length var)%nat.
Proof.
  intros Hvar.
  destruct (insert_scan_length var pattern_usr [] content) as [n1 H1].
  destruct (insert_scan_length var pattern_opt []
              (insert_scan var pattern_usr [] content)) as [n2 H2].
  exists (insert_scan var pattern_opt [] (insert_scan var pattern_usr [] content)),
         (n1 + n2)%nat.
  split; [apply replace_paths_insert_scan; exact Hvar|]. split.
  - etransitivity; apply insert_scan_sublist.
  - rewrite H2, H1. lia.
Qed.

Lemma replace_paths_only_inserts_witness :
  exists out n,
    replace_paths (fun _ _ => None) (PathReplacer_init (list_ascii_of_string "/sysroot"))
      (list_ascii_of_string "-I/usr/include -L/opt/lib") = Some out /\
    list_ascii_of_string "-I/usr/include -L/opt/lib" `sublist_of` out /\
    length out =
      (length (list_ascii_of_string "-I/usr/include -L/opt/lib")
       + n * length (list_ascii_of_string "/sysroot"))%nat.
Proof.
  apply (replace_paths_only_inserts (fun _ _ => None)
           (list_ascii_of_string "/sysroot")
           (list_ascii_of_string "-I/usr/include -L/opt/lib")).
  reflexivity.
Defined.

(** X12. The lookbehind always looks for [${CMAKE_SYSROOT}], not for the
    configured prefix: with a prefix that has no slash and does not end
    with [${CMAKE_SYSROOT}], a path that was prefixed once is prefixed
    again. *)
Theorem replace_paths_custom_prefix_twice (template_escape : text -> text -> option text)
    (var : text) :
  existsb (Ascii.eqb backslash) var = false ->
  Forall (fun c => c <> slash) var ->
  lookbehind_guard (rev var) = false ->
  replace_paths template_escape (PathReplacer_init var) pattern_usr
    = Some (var ++ pattern_usr) /\
  replace_paths template_escape (PathReplacer_init var) (var ++ pattern_usr)
    = Some (var ++ var ++ pattern_usr).
Proof.
  intros Hbs Hsl Hg.
  assert (forall b, insert_scan var pattern_usr (slash :: b) (list_ascii_of_string "usr")
                    = list_ascii_of_string "usr") as Htail.
  { intros b. apply insert_scan_no_match_id.
    apply (has_match_app_plain pattern_usr (slash :: b) (list_ascii_of_string "usr") []
             plain_literal_usr).
    repeat constructor; discriminate. }
  assert (forall b, has_match pattern_opt b pattern_usr = false) as Hopt.
  { intros b. change pattern_usr with (slash :: list_ascii_of_string "usr").
    cbn [has_match]. rewrite matches_at_starts_false by reflexivity.
    apply (has_match_app_plain pattern_opt (slash :: b) (list_ascii_of_string "usr") []
             plain_literal_opt).
    repeat constructor; discriminate. }
  split.
  - rewrite replace_paths_insert_scan by exact Hbs.
    change pattern_usr with (slash :: list_ascii_of_string "usr") at 2.
    cbn [insert_scan]. rewrite Htail.
    replace (matches_at pattern_usr [] (slash :: list_ascii_of_string "usr")) with true
      by reflexivity.
    rewrite insert_scan_no_match_id; [reflexivity|].
    rewrite (has_match_app_plain pattern_opt [] var _ plain_literal_opt Hsl).
    apply Hopt.
  - rewrite replace_paths_insert_scan by exact Hbs.
    rewrite (insert_scan_app_plain var pattern_usr [] var _ plain_literal_usr Hsl).
    change pattern_usr with (slash :: list_ascii_of_string "usr") at 2.
    cbn [insert_scan]. rewrite Htail.
    replace (matches_at pattern_usr (rev var ++ []) (slash :: list_ascii_of_string "usr"))
      with true; cycle 1.
    { unfold matches_at. rewrite app_nil_r, Hg. reflexivity. }
    rewrite insert_scan_no_match_id; [reflexivity|].
    rewrite (has_match_app_plain pattern_opt [] var _ plain_literal_opt Hsl).
    rewrite (has_match_app_plain pattern_opt _ var _ plain_literal_opt Hsl).
    apply Hopt.
Qed.

Lemma replace_paths_custom_prefix_twice_witness :
  replace_paths (fun _ _ => None) (PathReplacer_init (list_ascii_of_string "${SYSROOT}"))
    pattern_usr
    = Some (list_ascii_of_string "${SYSROOT}" ++ pattern_usr) /\
  replace_paths (fun _ _ => None) (PathReplacer_init (list_ascii_of_string "${SYSROOT}"))
    (list_ascii_of_string "${SYSROOT}" ++ pattern_usr)
    = Some (list_ascii_of_string "${SYSROOT}" ++ list_ascii_of_string "${SYSROOT}"
            ++ pattern_usr).
Proof.
  apply (replace_paths_custom_prefix_twice (fun _ _ => None)
           (list_ascii_of_string "${SYSROOT}")).
  - reflexivity.
  - repeat constructor; discriminate.
  - reflexivity.
Defined.

(** * Paths *)

Section PathLemmas.

Lemma text_eqb_eq s t : text_eqb s t = true <-> s = t.
Proof. apply bool_decide_eq_true. Qed.

Lemma text_eqb_neq s t : text_eqb s t = false <-> s <> t.
Proof. apply bool_decide_eq_false. Qed.

Lemma is_nil_true {X} (l : list X) : is_nil l = true <-> l = [].
Proof. destruct l; simpl; split; congruence. Qed.

Lemma is_nil_false {X} (l : list X) : is_nil l = false <-> l <> [].
Proof. destruct l; simpl; split; congruence. Qed.

Lemma split_sep_nonempty s : split_sep s <> [].
Proof.
  destruct s as [|c s]; simpl; [discriminate|].
  destruct (Ascii.eqb c slash); [discriminate|].
  destruct (split_sep s); discriminate.
Qed.

Lemma split_sep_app_slash a b :
  split_sep (a ++ slash :: b) = split_sep a ++ split_sep b.
Proof.
  induction a as [|c a IH]; simpl.
  - reflexivity.
  - destruct (Ascii.eqb c slash); [rewrite IH; reflexivity|].
    rewrite IH. pose proof (split_sep_nonempty a).
    destruct (split_sep a); [contradiction | reflexivity].
Qed.

Lemma split_sep_plain s : Forall (fun c => c <> slash) s -> split_sep s = [s].
Proof.
  induction 1 as [|c s Hc _ IH]; simpl; [reflexivity|].
  destruct (Ascii.eqb_spec c slash); [contradiction|]. rewrite IH. reflexivity.
Qed.

Lemma split_join comps :
  comps <> [] -> Forall (Forall (fun c => c <> slash)) comps ->
  split_sep (join_sep comps) = comps.
Proof.
  intros Hne H. induction H as [|comp comps Hc Hcs IH]; [contradiction|].
  destruct comps as [|comp' comps'].
  - simpl. apply split_sep_plain. exact Hc.
  - change (join_sep (comp :: comp' :: comps'))
      with (comp ++ slash :: join_sep (comp' :: comps')).
    rewrite split_sep_app_slash, split_sep_plain, IH by (assumption || discriminate).
    reflexivity.
Qed.

Lemma split_sep_no_slash s : Forall (Forall (fun c => c <> slash)) (split_sep s).
Proof.
  induction s as [|c s IH]; simpl; [repeat constructor|].
  destruct (Ascii.eqb_spec c slash); [constructor; [constructor | exact IH]|].
  destruct (split_sep s) as [|comp comps]; [repeat constructor; assumption|].
  inversion IH; subst. constructor; [constructor; assumption | assumption].
Qed.

Lemma initial_slashes_abs p : isabs p = true -> initial_slashes p <> 0%nat.
Proof.
  unfold isabs, initial_slashes. intros ->.
  destruct (starts_with [slash; slash] p && negb (starts_with [slash; slash; slash] p));
    discriminate.
Qed.

Lemma clean_component_pardir x : clean_component x -> text_eqb x pardir = false.
Proof. intros (_ & _ & H & _). apply text_eqb_neq. exact H. Qed.

Lemma norm_step_skip_nil init stack : norm_step init stack [] = stack.
Proof. reflexivity. Qed.

Lemma norm_step_skip_curdir init stack : norm_step init stack curdir = stack.
Proof. reflexivity. Qed.

Lemma norm_step_push init stack comp :
  clean_component comp -> norm_step init stack comp = stack ++ [comp].
Proof.
  intros (H1 & H2 & H3 & _). unfold norm_step.
  apply is_nil_false in H1. apply text_eqb_neq in H2, H3.
  rewrite H1, H2, H3. reflexivity.
Qed.

Lemma norm_step_pop init stack x :
  init <> 0%nat -> clean_component x ->
  norm_step init (stack ++ [x]) pardir = stack.
Proof.
  intros Hi Hx. unfold norm_step.
  replace (is_nil pardir || text_eqb pardir curdir) with false by reflexivity.
  replace (text_eqb pardir pardir) with true by reflexivity.
  rewrite last_snoc, (clean_component_pardir x Hx).
  destruct init; [contradiction|]. simpl. apply removelast_last.
Qed.

Lemma fold_norm_push init stack comps :
  Forall clean_component comps ->
  fold_left (norm_step init) comps stack = stack ++ comps.
Proof.
  intros H. revert stack. induction H as [|c comps Hc _ IH]; intros stack; simpl.
  - rewrite app_nil_r. reflexivity.
  - rewrite norm_step_push by exact Hc. rewrite IH, <- app_assoc. reflexivity.
Qed.

Lemma fold_norm_pop init stack tail :
  init <> 0%nat -> Forall clean_component tail ->
  fold_left (norm_step init) (repeat pardir (length tail)) (stack ++ tail) = stack.
Proof.
  intros Hi. induction tail as [|x tail IH] using rev_ind; intros H.
  - simpl. apply app_nil_r.
  - apply Forall_app in H as [Ht Hx]. inversion Hx; subst.
    rewrite length_app. simpl. rewrite Nat.add_1_r. simpl.
    rewrite app_assoc, norm_step_pop by assumption. apply IH. exact Ht.
Qed.

Lemma Forall_removelast {X} (P : X -> Prop) l : Forall P l -> Forall P (removelast l).
Proof.
  induction 1 as [|x l Hx Hl IH]; simpl; [constructor|].
  destruct l; [constructor | constructor; assumption].
Qed.

Lemma norm_step_clean init stack comp :
  init <> 0%nat -> Forall clean_component stack ->
  Forall (fun c => c <> slash) comp ->
  Forall clean_component (norm_step init stack comp).
Proof.
  intros Hi Hs Hc. unfold norm_step.
  destruct (is_nil comp) eqn:E1; [exact Hs|].
  destruct (text_eqb comp curdir) eqn:E2; [exact Hs|]. simpl.
  destruct (text_eqb comp pardir) eqn:E3; simpl.
  - destruct init; [contradiction|]. simpl.
    destruct (last stack) as [l|] eqn:El.
    + apply last_Some in El as [stack' ->].
      apply Forall_app in Hs as [Hs Hl]. inversion Hl; subst.
      rewrite (clean_component_pardir l) by assumption.
      rewrite removelast_last. exact Hs.
    + apply Forall_removelast. exact Hs.
  - apply Forall_app. split; [exact Hs|]. constructor; [|constructor].
    apply is_nil_false in E1. apply text_eqb_neq in E2, E3. repeat split; assumption.
Qed.

Lemma fold_norm_clean init comps stack :
  init <> 0%nat -> Forall clean_component stack ->
  Forall (Forall (fun c => c <> slash)) comps ->
  Forall clean_component (fold_left (norm_step init) comps stack).
Proof.
  intros Hi Hs Hc. revert stack Hs.
  induction Hc as [|c comps Hc _ IH]; intros stack Hs; simpl; [exact Hs|].
  apply IH. apply norm_step_clean; assumption.
Qed.

Lemma norm_components_clean p :
  isabs p = true -> Forall clean_component (norm_components p).
Proof.
  intros Hp. apply fold_norm_clean;
    [apply initial_slashes_abs; exact Hp | constructor | apply split_sep_no_slash].
Qed.

Lemma normpath_abs p :
  isabs p = true ->
  normpath p = repeat slash (initial_slashes p) ++ join_sep (norm_components p).
Proof.
  intros Hp. unfold normpath.
  destruct p as [|c p]; [discriminate|]. simpl is_nil. cbv iota.
  pose proof (initial_slashes_abs _ Hp) as Hi. fold (norm_components (c :: p)).
  destruct (initial_slashes (c :: p)); [contradiction | reflexivity].
Qed.

Lemma filter_all {X} (P : X -> Prop) `{!forall x, Decision (P x)} l :
  Forall P l -> filter P l = l.
Proof.
  induction 1 as [|x l Hx _ IH]; [reflexivity|].
  rewrite filter_cons_True by exact Hx. rewrite IH. reflexivity.
Qed.

Lemma clean_component_no_slash comps :
  Forall clean_component comps -> Forall (Forall (fun c => c <> slash)) comps.
Proof. intros H. eapply Forall_impl; [exact H|]. intros x (_ & _ & _ & Hx). exact Hx. Qed.

Lemma clean_component_nonempty comps :
  Forall clean_component comps -> Forall (fun x => is_nil x = false) comps.
Proof. intros H. eapply Forall_impl; [exact H|]. intros x (Hx & _). apply is_nil_false. exact Hx. Qed.

(** The components of a normalized absolute path are the components
    [normpath] ended with. *)
Lemma path_components_slashes k comps :
  Forall clean_component comps ->
  path_components (repeat slash k ++ join_sep comps) = comps.
Proof.
  intros Hc. unfold path_components. induction k as [|k IH]; simpl.
  - destruct comps as [|c comps]; [reflexivity|].
    rewrite split_join by (discriminate || apply clean_component_no_slash; exact Hc).
    apply filter_all. apply clean_component_nonempty. exact Hc.
  - rewrite filter_cons_False by (simpl; congruence). exact IH.
Qed.

Lemma path_components_normpath p :
  isabs p = true -> path_components (normpath p) = norm_components p.
Proof.
  intros Hp. rewrite normpath_abs by exact Hp.
  apply path_components_slashes. apply norm_components_clean. exact Hp.
Qed.

Lemma common_prefix_split l1 l2 :
  exists pre t1 t2,
    l1 = pre ++ t1 /\ l2 = pre ++ t2 /\ length pre = common_prefix_length l1 l2.
Proof.
  revert l2. induction l1 as [|a l1 IH]; intros l2.
  - exists [], [], l2. repeat split.
  - destruct l2 as [|b l2]; [exists [], (a :: l1), []; repeat split|].
    simpl. destruct (text_eqb a b) eqn:E.
    + apply text_eqb_eq in E as ->.
      destruct (IH l2) as (pre & t1 & t2 & -> & -> & Hl).
      exists (b :: pre), t1, t2. simpl. rewrite Hl. repeat split.
    + exists [], (a :: l1), (b :: l2). repeat split.
Qed.

(** ** Joining *)

Lemma starts_with_slash_false c r : c <> slash -> starts_with [slash] (c :: r) = false.
Proof.
  intros Hc. simpl. destruct (Ascii.eqb_spec slash c); [congruence | reflexivity].
Qed.

Lemma ends_with_sep_app a c b :
  Forall (fun x => x <> slash) (c :: b) -> ends_with_sep (a ++ c :: b) = false.
Proof.
  intros H. unfold ends_with_sep.
  destruct (last (a ++ c :: b)) as [l|] eqn:El; [|reflexivity].
  rewrite last_app_cons in El.
  apply Ascii.eqb_neq. apply last_Some_elem_of in El.
  rewrite Forall_forall in H. apply H. exact El.
Qed.

(** Joining a path that does not end with a slash with a relative
    component puts a slash between them. *)
Lemma path_join_component a b :
  a <> [] -> ends_with_sep a = false ->
  b <> [] -> Forall (fun x => x <> slash) b ->
  path_join a b = a ++ slash :: b.
Proof.
  intros Ha Hsep Hb Hbs. unfold path_join.
  destruct b as [|c b]; [contradiction|]. inversion Hbs; subst.
  rewrite starts_with_slash_false by assumption.
  apply is_nil_false in Ha. rewrite Ha, Hsep. reflexivity.
Qed.

Lemma path_join_all_components acc ps :
  acc <> [] -> ends_with_sep acc = false ->
  Forall (fun b => b <> [] /\ Forall (fun x => x <> slash) b) ps ->
  path_join_all acc ps = acc ++ concat ((fun b => slash :: b) <$> ps).
Proof.
  intros Hacc Hsep Hps. revert acc Hacc Hsep. unfold path_join_all.
  induction Hps as [|b ps [Hb Hbs] _ IH]; intros acc Hacc Hsep; simpl.
  - rewrite app_nil_r. reflexivity.
  - rewrite path_join_component by assumption.
    rewrite IH.
    + rewrite <- app_assoc. reflexivity.
    + destruct acc; discriminate.
    + destruct b as [|c b]; [contradiction|].
      change (acc ++ slash :: c :: b) with (acc ++ [slash] ++ c :: b).
      rewrite app_assoc. apply ends_with_sep_app. exact Hbs.
Qed.

Lemma join_sep_concat a ps :
  join_sep (a :: ps) = a ++ concat ((fun b => slash :: b) <$> ps).
Proof.
  revert a. induction ps as [|b ps IH]; intros a.
  - simpl. rewrite app_nil_r. reflexivity.
  - change (join_sep (a :: b :: ps)) with (a ++ slash :: join_sep (b :: ps)).
    rewrite IH. reflexivity.
Qed.

Lemma ends_with_sep_component a :
  a <> [] -> Forall (fun x => x <> slash) a -> ends_with_sep a = false.
Proof.
  intros Ha Hs. destruct a as [|c a]; [contradiction|].
  apply (ends_with_sep_app [] c a Hs).
Qed.

(** The relative path [relpath] builds from its components. *)
Lemma path_join_all_join_sep a ps :
  Forall (fun b => b <> [] /\ Forall (fun x => x <> slash) b) (a :: ps) ->
  path_join_all a ps = join_sep (a :: ps).
Proof.
  intros H. inversion H as [|? ? [Ha Has] Hps]; subst.
  rewrite join_sep_concat. apply path_join_all_components; try assumption.
  apply ends_with_sep_component; assumption.
Qed.

Lemma join_sep_head a ps c r :
  a = c :: r -> exists r', join_sep (a :: ps) = c :: r'.
Proof. intros ->. rewrite join_sep_concat. simpl. eauto. Qed.

Lemma initial_slashes_path_join start c r :
  isabs start = true -> c <> slash ->
  initial_slashes (path_join start (c :: r)) = initial_slashes start.
Proof.
  intros Hs Hc. unfold path_join. rewrite starts_with_slash_false by exact Hc.
  destruct start as [|c0 start]; [discriminate|].
  unfold isabs in Hs. cbn [starts_with] in Hs. rewrite andb_true_r in Hs.
  apply Ascii.eqb_eq in Hs. subst c0. cbn [is_nil orb].
  unfold ends_with_sep, initial_slashes.
  destruct start as [|c1 [|c2 start]]; cbn [last app starts_with];
    repeat match goal with
           | |- context [Ascii.eqb ?a ?b] => destruct (Ascii.eqb_spec a b); subst
           end; cbn [andb negb orb]; try reflexivity; try congruence;
    repeat match goal with
           | |- context [match last ?l with _ => _ end] => destruct (last l)
           | |- context [Ascii.eqb ?a ?b] => destruct (Ascii.eqb_spec a b); subst
           end; cbn [app starts_with andb negb orb];
    repeat match goal with
           | |- context [Ascii.eqb ?a ?b] => destruct (Ascii.eqb_spec a b); subst
           end; cbn [andb negb orb]; try reflexivity; try congruence.
Qed.

Lemma isabs_path_join start c r :
  isabs start = true -> c <> slash -> isabs (path_join start (c :: r)) = true.
Proof.
  intros Hs Hc. unfold path_join. rewrite starts_with_slash_false by exact Hc.
  destruct start as [|c0 start]; [discriminate|].
  destruct (is_nil (c0 :: start) || ends_with_sep (c0 :: start)); exact Hs.
Qed.

(** Normalizing a joined path goes on from the components of the first
    path with the components of the second. *)
Lemma norm_components_path_join start c r :
  isabs start = true -> c <> slash ->
  norm_components (path_join start (c :: r)) =
  fold_left (norm_step (initial_slashes start)) (split_sep (c :: r))
    (norm_components start).
Proof.
  intros Hs Hc. unfold norm_components.
  rewrite initial_slashes_path_join by assumption.
  unfold path_join. rewrite starts_with_slash_false by exact Hc.
  destruct start as [|c0 start]; [discriminate|]. cbn [is_nil orb].
  destruct (ends_with_sep (c0 :: start)) eqn:Hsep.
  - unfold ends_with_sep in Hsep.
    destruct (last (c0 :: start)) as [l|] eqn:El; [|discriminate].
    apply Ascii.eqb_eq in Hsep. subst l.
    apply last_Some in El as [start' El]. rewrite El.
    replace ((start' ++ [slash]) ++ c :: r) with (start' ++ slash :: c :: r)
      by (rewrite <- app_assoc; reflexivity).
    rewrite !split_sep_app_slash, !fold_left_app. reflexivity.
  - rewrite split_sep_app_slash, fold_left_app. reflexivity.
Qed.

(** The path [relpath] returns is relative and not empty. *)
Lemma relpath_relative cwd path start r :
  relpath cwd path start = Some r ->
  exists c r', r = c :: r' /\ c <> slash.
Proof.
  unfold relpath. destruct (is_nil path); [discriminate|].
  set (start_list := path_components (abspath cwd start)).
  set (path_list := path_components (abspath cwd path)).
  set (i := common_prefix_length start_list path_list).
  assert (Forall (fun b => b <> [] /\ Forall (fun x => x <> slash) b)
            (repeat pardir (length start_list - i) ++ drop i path_list)) as Hrel.
  { apply Forall_app. split.
    - apply Forall_forall. intros x Hx. apply list_elem_of_In, repeat_spec in Hx.
      subst x. split; [discriminate | repeat constructor; discriminate].
    - apply Forall_drop. unfold path_list, path_components.
      apply Forall_forall. intros x Hx. apply list_elem_of_filter in Hx as [Hx1 Hx2].
      split; [apply is_nil_false; exact Hx1|].
      pose proof (split_sep_no_slash (abspath cwd path)) as H.
      rewrite Forall_forall in H. apply H. exact Hx2. }
  destruct (repeat pardir (length start_list - i) ++ drop i path_list) as [|a ps].
  - intros [= <-]. exists "."%char, []. split; [reflexivity | discriminate].
  - intros [= <-]. rewrite path_join_all_join_sep by exact Hrel.
    inversion Hrel as [|? ? [Ha Has] _]; subst.
    destruct a as [|c a]; [contradiction|].
    destruct (join_sep_head (c :: a) ps c a eq_refl) as [r' ->].
    exists c, r'. split; [reflexivity|]. inversion Has; assumption.
Qed.

(** Followed from [start], the path [relpath] returns leads to [path]:
    for absolute paths with the same kind of leading slashes, joining
    and normalizing gives the normalized [path]. *)
Lemma relpath_resolves cwd path start r :
  isabs start = true -> isabs path = true ->
  initial_slashes start = initial_slashes path ->
  relpath cwd path start = Some r ->
  normpath (path_join start r) = normpath path.
Proof.
  intros Hs Hp Hinit Hrel.
  destruct (relpath_relative _ _ _ _ Hrel) as (c & r' & -> & Hc).
  rewrite (normpath_abs _ (isabs_path_join start c r' Hs Hc)), (normpath_abs _ Hp).
  rewrite initial_slashes_path_join, norm_components_path_join by assumption.
  rewrite Hinit. f_equal. f_equal. rewrite <- Hinit.
  pose proof (initial_slashes_abs _ Hs) as Hi.
  unfold relpath in Hrel. destruct (is_nil path); [discriminate|].
  unfold abspath in Hrel. rewrite Hs, Hp in Hrel.
  rewrite !path_components_normpath in Hrel by assumption.
  pose proof (norm_components_clean _ Hs) as HS.
  pose proof (norm_components_clean _ Hp) as HP.
  destruct (common_prefix_split (norm_components start) (norm_components path))
    as (pre & t1 & t2 & E1 & E2 & Hl).
  rewrite <- Hl in Hrel. rewrite E1 in HS. rewrite E2 in HP.
  rewrite E1, E2 in Hrel. rewrite E1, E2.
  rewrite length_app, drop_app_length in Hrel.
  replace (length pre + length t1 - length pre)%nat with (length t1) in Hrel by lia.
  apply Forall_app in HS as [Hpre Ht1]. apply Forall_app in HP as [_ Ht2].
  assert (Forall (fun b => b <> [] /\ Forall (fun x => x <> slash) b)
            (repeat pardir (length t1) ++ t2)) as Hparts.
  { apply Forall_app. split.
    - apply Forall_forall. intros x Hx. apply list_elem_of_In, repeat_spec in Hx.
      subst x. split; [discriminate | repeat constructor; discriminate].
    - eapply Forall_impl; [exact Ht2|]. intros x (H1 & _ & _ & H4). split; assumption. }
  destruct (repeat pardir (length t1) ++ t2) as [|a ps] eqn:Erel.
  - injection Hrel as Hr Hr'.
    apply app_eq_nil in Erel as [Et1 ->].
    destruct t1; [|discriminate]. rewrite !app_nil_r.
    subst c r'. reflexivity.
  - injection Hrel as Hr. rewrite path_join_all_join_sep in Hr by exact Hparts.
    rewrite <- Hr.
    rewrite split_join;
      [| discriminate
       | eapply Forall_impl; [exact Hparts|]; intros x [_ Hx]; exact Hx].
    transitivity (fold_left (norm_step (initial_slashes start))
                    (repeat pardir (length t1) ++ t2) (pre ++ t1));
      [rewrite Erel; reflexivity|].
    rewrite fold_left_app.
    rewrite fold_norm_pop by assumption. apply fold_norm_push. exact Ht2.
Qed.

End PathLemmas.

(** * The symlink tool *)

Section SymlinkLemmas.
Context {FS : Type}.
Variable readlink : FS -> text -> option text.
Variable unlink : FS -> text -> option FS.
Variable symlink : FS -> text -> text -> option FS.
Variable cwd : text.

Lemma single_slash_prefix c t x :
  c <> slash ->
  isabs (slash :: c :: t ++ x) = true /\
  initial_slashes (slash :: c :: t ++ x) = 1%nat.
Proof.
  intros Hc. unfold isabs, initial_slashes. cbn [starts_with].
  rewrite Ascii.eqb_refl. cbn [andb].
  destruct (Ascii.eqb_spec slash c); [congruence|]. split; reflexivity.
Qed.

Lemma handle_link_replace (self : SymlinkConverter) fs filep subdir link c t fs1 :
  topdir self = slash :: c :: t -> c <> slash -> topdir self `prefix_of` subdir ->
  readlink fs filep = Some link ->
  starts_with [slash] link = true -> starts_with (topdir self) link = false ->
  unlink fs filep = Some fs1 ->
  exists new_link,
    relpath cwd (topdir self ++ link) subdir = Some new_link /\
    isabs new_link = false /\
    normpath (path_join subdir new_link) = normpath (topdir self ++ link) /\
    handle_link readlink unlink symlink cwd self fs filep subdir =
      Some (match symlink fs1 new_link filep with
            | Some fs2 => fs2
            | None => fs1
            end).
Proof.
  intros Etop Hc [x Esub] Hread Habs Hin Hun.
  destruct (relpath cwd (topdir self ++ link) subdir) as [new_link|] eqn:Erel.
  - exists new_link. split; [reflexivity|].
    destruct (relpath_relative _ _ _ _ Erel) as (c' & r' & -> & Hc').
    split; [apply starts_with_slash_false; exact Hc'|]. split.
    + rewrite Esub, Etop in Erel |- *.
      destruct (single_slash_prefix c t x Hc) as [A1 I1].
      destruct (single_slash_prefix c t link Hc) as [A2 I2].
      apply (relpath_resolves cwd); simpl; try assumption. congruence.
    + unfold handle_link. rewrite Hread, Habs, Hin. cbn [negb orb].
      rewrite Erel, Hun. destruct (symlink fs1 (c' :: r') filep); reflexivity.
  - unfold relpath in Erel. rewrite Etop in Erel. simpl in Erel.
    match type of Erel with
    | match ?l with _ => _ end = None => destruct l; discriminate
    end.
Qed.

Lemma handle_link_again (self : SymlinkConverter) fs fs' filep subdir :
  (forall fs0 t p fs2, symlink fs0 t p = Some fs2 -> readlink fs2 p = Some t) ->
  (forall fs0 p fs1, unlink fs0 p = Some fs1 -> readlink fs1 p = None) ->
  handle_link readlink unlink symlink cwd self fs filep subdir = Some fs' ->
  is_Some (readlink fs' filep) ->
  handle_link readlink unlink symlink cwd self fs' filep subdir = Some fs'.
Proof.
  intros Hsym Hun H Hlink. unfold handle_link in H.
  destruct (readlink fs filep) as [link|] eqn:Hread; [|discriminate].
  destruct (negb (starts_with [slash] link) || starts_with (topdir self) link) eqn:Hskip.
  { injection H as <-. unfold handle_link. rewrite Hread, Hskip. reflexivity. }
  destruct (relpath cwd (topdir self ++ link) subdir) as [new_link|] eqn:Erel;
    [|discriminate].
  destruct (unlink fs filep) as [fs1|] eqn:Hu.
  - destruct (symlink fs1 new_link filep) as [fs2|] eqn:Hs; injection H as <-.
    + unfold handle_link. rewrite (Hsym _ _ _ _ Hs).
      destruct (relpath_relative _ _ _ _ Erel) as (c' & r' & -> & Hc').
      rewrite starts_with_slash_false by exact Hc'. reflexivity.
    + rewrite (Hun _ _ _ Hu) in Hlink. destruct Hlink as [? ?]. discriminate.
  - injection H as <-. unfold handle_link. rewrite Hread, Hskip, Erel, Hu. reflexivity.
Qed.

End SymlinkLemmas.

(** ** Stores *)

Lemma text_eqb_refl s : text_eqb s s = true.
Proof. apply text_eqb_eq. reflexivity. Qed.

Lemma store_set_same fs p v : store_set fs p v p = v.
Proof. unfold store_set. rewrite text_eqb_refl. reflexivity. Qed.

Lemma store_set_other fs p v q : q <> p -> store_set fs p v q = fs q.
Proof.
  intros H. unfold store_set. apply text_eqb_neq in H. rewrite H. reflexivity.
Qed.

Lemma universal_newlines_no_cr t : cr ∉ universal_newlines t.
Proof.
  remember (length t) as n eqn:Hn. revert t Hn.
  induction n as [n IH] using lt_wf_ind. intros t ->.
  destruct t as [|c t]; [apply not_elem_of_nil|].
  cbn [universal_newlines]. destruct (Ascii.eqb_spec c cr) as [->|Hc].
  - apply not_elem_of_cons. split; [discriminate|].
    destruct t as [|d t]; [apply not_elem_of_nil|].
    destruct (Ascii.eqb d lf).
    + apply (IH (length t)); [simpl; lia | reflexivity].
    + apply (IH (length (d :: t))); [simpl; lia | reflexivity].
  - apply not_elem_of_cons. split; [congruence|].
    apply (IH (length t)); [simpl; lia | reflexivity].
Qed.

Lemma universal_newlines_id t : cr ∉ t -> universal_newlines t = t.
Proof.
  induction t as [|c t IH]; intros H; [reflexivity|].
  apply not_elem_of_cons in H as [Hc Ht]. cbn [universal_newlines].
  destruct (Ascii.eqb_spec c cr) as [->|_]; [congruence|].
  rewrite IH by exact Ht. reflexivity.
Qed.

Lemma store_read_text_no_cr (fs : store) q t :
  store_read_text fs q = Some t -> cr ∉ t.
Proof.
  unfold store_read_text. destruct (fs q); [|discriminate].
  intros [= <-]. apply universal_newlines_no_cr.
Qed.

Lemma store_read_write (fs : store) q t fs1 :
  cr ∉ t -> store_write fs q t = (fs1, true) -> store_read_text fs1 q = Some t.
Proof.
  intros Ht [= <-]. unfold store_read_text. rewrite store_set_same. simpl.
  rewrite universal_newlines_id by exact Ht. reflexivity.
Qed.

Lemma store_write_frame (fs : store) q t fs1 b q' :
  store_write fs q t = (fs1, b) -> q' <> q ->
  store_read_text fs1 q' = store_read_text fs q'.
Proof.
  intros [= <- _] Hq. unfold store_read_text. rewrite store_set_other by exact Hq.
  reflexivity.
Qed.

Lemma store_copy2_read (fs : store) src dst fs1 :
  store_copy2 fs src dst = (fs1, true) ->
  store_read_text fs1 dst = store_read_text fs src.
Proof.
  unfold store_copy2, store_read_text. destruct (fs src) eqn:E; [|discriminate].
  intros [= <-]. rewrite store_set_same. reflexivity.
Qed.

Lemma store_symlink_read (fs : store) t p fs2 :
  store_symlink fs t p = Some fs2 -> store_read fs2 p = Some t.
Proof.
  unfold store_symlink, store_read. destruct (fs p); [discriminate|].
  intros [= <-]. apply store_set_same.
Qed.

Lemma store_symlink_frame (fs : store) t p fs2 q :
  store_symlink fs t p = Some fs2 -> q <> p -> store_read fs2 q = store_read fs q.
Proof.
  unfold store_symlink, store_read. destruct (fs p); [discriminate|].
  intros [= <-] Hq. apply store_set_other. exact Hq.
Qed.

Lemma store_unlink_read (fs : store) p fs1 :
  store_unlink fs p = Some fs1 -> store_read fs1 p = None.
Proof.
  unfold store_unlink, store_read. destruct (fs p); [|discriminate].
  intros [= <-]. apply store_set_same.
Qed.

Lemma store_unlink_frame (fs : store) p fs1 q :
  store_unlink fs p = Some fs1 -> q <> p -> store_read fs1 q = store_read fs q.
Proof.
  unfold store_unlink, store_read. destruct (fs p); [|discriminate].
  intros [= <-] Hq. apply store_set_other. exact Hq.
Qed.

Lemma store_unlink_link (fs : store) p :
  is_Some (store_read fs p) -> is_Some (store_unlink fs p).
Proof.
  unfold store_unlink, store_read. intros [t ->]. eexists. reflexivity.
Qed.

Lemma store_islink_readlink (fs : store) p :
  store_islink fs p = true <-> is_Some (store_read fs p).
Proof.
  unfold store_islink, store_read. destruct (fs p); split; intros H;
    try reflexivity; try discriminate; [eexists; reflexivity|].
  destruct H as [? ?]. discriminate.
Qed.

(** ** A run of the symlink tool *)

Lemma relpath_is_Some cwd path start : path <> [] -> is_Some (relpath cwd path start).
Proof.
  intros H. unfold relpath. destruct path as [|c path]; [congruence|].
  cbn [is_nil]. cbv zeta.
  match goal with |- is_Some (match ?l with _ => _ end) => destruct l end;
    eexists; reflexivity.
Qed.

Section SymlinkRun.
Context {FS : Type}.
Variable readlink : FS -> text -> option text.
Variable unlink : FS -> text -> option FS.
Variable symlink : FS -> text -> text -> option FS.
Variable islink : FS -> text -> bool.
Variable cwd : text.
Variable self : SymlinkConverter.

Hypothesis symlink_read :
  forall fs t p fs2, symlink fs t p = Some fs2 -> readlink fs2 p = Some t.
Hypothesis symlink_frame :
  forall fs t p fs2 q, symlink fs t p = Some fs2 -> q <> p -> readlink fs2 q = readlink fs q.
Hypothesis unlink_read :
  forall fs p fs1, unlink fs p = Some fs1 -> readlink fs1 p = None.
Hypothesis unlink_frame :
  forall fs p fs1 q, unlink fs p = Some fs1 -> q <> p -> readlink fs1 q = readlink fs q.
Hypothesis unlink_link :
  forall fs p, is_Some (readlink fs p) -> is_Some (unlink fs p).
Hypothesis islink_readlink :
  forall fs p, islink fs p = true <-> is_Some (readlink fs p).

Lemma handle_link_post fs p subdir :
  is_Some (readlink fs p) ->
  exists fs',
    handle_link readlink unlink symlink cwd self fs p subdir = Some fs' /\ stays_inside readlink self fs' p /\
    forall q, q <> p -> readlink fs' q = readlink fs q.
Proof using All.
  intros [link Hread]. unfold handle_link. rewrite Hread.
  destruct (negb (starts_with [slash] link) || starts_with (topdir self) link) eqn:Hskip.
  { exists fs. split; [reflexivity|]. split; [|reflexivity].
    intros link' H. rewrite Hread in H. injection H as <-. exact Hskip. }
  assert (Hne : topdir self ++ link <> []).
  { destruct link; [discriminate|]. destruct (topdir self); discriminate. }
  destruct (relpath_is_Some cwd _ subdir Hne) as [new_link Erel]. rewrite Erel.
  destruct (unlink_link fs p) as [fs1 Hu]; [eexists; exact Hread|]. rewrite Hu.
  destruct (symlink fs1 new_link p) as [fs2|] eqn:Hs.
  - exists fs2. split; [reflexivity|]. split.
    + intros link' H. rewrite (symlink_read _ _ _ _ Hs) in H. injection H as <-.
      destruct (relpath_relative _ _ _ _ Erel) as (c' & r' & -> & Hc').
      rewrite starts_with_slash_false by exact Hc'. reflexivity.
    + intros q Hq. rewrite (symlink_frame _ _ _ _ q Hs Hq). apply (unlink_frame _ _ _ _ Hu Hq).
  - exists fs1. split; [reflexivity|]. split.
    + intros link' H. rewrite (unlink_read _ _ _ Hu) in H. discriminate.
    + intros q Hq. apply (unlink_frame _ _ _ _ Hu Hq).
Qed.

Lemma convert_files_post subdir files : forall fs done,
  Forall (stays_inside readlink self fs) done ->
  exists fs',
    convert_files readlink unlink symlink islink cwd self subdir files fs = Some fs' /\
    Forall (stays_inside readlink self fs') (map (path_join subdir) files ++ done).
Proof using All.
  induction files as [|f files IH]; intros fs done Hdone.
  { exists fs. split; [reflexivity | exact Hdone]. }
  cbn [convert_files]. cbv zeta.
  assert (Hstep : exists fs1,
    (if islink fs (path_join subdir f)
     then handle_link readlink unlink symlink cwd self fs (path_join subdir f) subdir else Some fs) = Some fs1 /\
    Forall (stays_inside readlink self fs1) (path_join subdir f :: done)).
  { destruct (islink fs (path_join subdir f)) eqn:Hl.
    - apply islink_readlink in Hl.
      destruct (handle_link_post fs _ subdir Hl) as (fs1 & H1 & Hin & Hfr).
      exists fs1. split; [exact H1|]. constructor; [exact Hin|].
      eapply Forall_impl; [exact Hdone|]. intros q Hq.
      destruct (decide (q = path_join subdir f)) as [->|Hne]; [exact Hin|].
      intros link H. rewrite (Hfr q Hne) in H. apply (Hq link H).
    - exists fs. split; [reflexivity|]. constructor; [|exact Hdone].
      intros link H. assert (Hs : is_Some (readlink fs (path_join subdir f)))
        by (eexists; exact H).
      apply islink_readlink in Hs. congruence. }
  destruct Hstep as (fs1 & H1 & Hinv).
  destruct (IH fs1 _ Hinv) as (fs' & H' & Hall). exists fs'. split.
  - destruct (islink fs (path_join subdir f)); [rewrite H1; exact H'|].
    injection H1 as <-. exact H'.
  - apply Forall_app in Hall as [Ha Hb]. apply Forall_cons in Hb as [Hb Hc].
    cbn [map app]. constructor; [exact Hb|]. apply Forall_app. split; assumption.
Qed.

Lemma convert_symlinks_post walk : forall fs done,
  Forall (stays_inside readlink self fs) done ->
  exists fs',
    convert_symlinks readlink unlink symlink islink cwd self walk fs = Some fs' /\
    Forall (stays_inside readlink self fs') (walked_paths walk ++ done).
Proof using All.
  induction walk as [|[subdir files] walk IH]; intros fs done Hdone.
  { exists fs. split; [reflexivity | exact Hdone]. }
  cbn [convert_symlinks].
  destruct (convert_files_post subdir files fs done Hdone) as (fs1 & H1 & Hinv).
  rewrite H1. destruct (IH fs1 _ Hinv) as (fs' & H' & Hall).
  exists fs'. split; [exact H'|].
  unfold walked_paths in *. cbn [flat_map].
  apply Forall_app in Hall as [Ha Hb]. apply Forall_app in Hb as [Hb Hc].
  rewrite <- app_assoc. repeat (apply Forall_app; split); assumption.
Qed.

End SymlinkRun.

(** ** Processing a file *)

Lemma insert_scan_elem v lit b r x :
  x ∈ insert_scan v lit b r -> x ∈ v \/ x ∈ r.
Proof.
  revert b. induction r as [|c r IH]; intros b; cbn [insert_scan]; intros H.
  - right. exact H.
  - apply elem_of_app in H as [H|H].
    + destruct (matches_at lit b (c :: r)); [left; exact H|].
      apply elem_of_nil in H. contradiction.
    + apply elem_of_cons in H as [->|H]; [right; left|].
      destruct (IH _ H) as [?|?]; [left; assumption | right; right; assumption].
Qed.

Lemma default_sysroot_var_no_cr : cr ∉ default_sysroot_var.
Proof.
  intros H. apply list_elem_of_In in H. vm_compute in H.
  repeat (destruct H as [H|H]; [discriminate H|]). exact H.
Qed.

Lemma replace_paths_default_no_cr te content :
  cr ∉ content ->
  exists out,
    replace_paths te (PathReplacer_init default_sysroot_var) content = Some out /\
    replace_paths te (PathReplacer_init default_sysroot_var) out = Some out /\
    cr ∉ out.
Proof.
  intros Hc. destruct (replace_paths_default te content) as (H & Hu & Ho).
  eexists. split; [exact H|]. split.
  - apply replace_paths_no_match; [exact default_sysroot_var_plain | exact Hu | exact Ho].
  - intros Hin. apply insert_scan_elem in Hin as [Hin|Hin];
      [exact (default_sysroot_var_no_cr Hin)|].
    apply insert_scan_elem in Hin as [Hin|Hin];
      [exact (default_sysroot_var_no_cr Hin) | exact (Hc Hin)].
Qed.

Lemma bak_path_differs (p : text) : p ++ bak_suffix <> p.
Proof.
  intros H. apply (f_equal length) in H. rewrite length_app in H.
  change (length bak_suffix) with 4%nat in H. lia.
Qed.

(** X13. When [handle_link] replaces a link, the new target is a
    relative path which, joined to the directory of the link,
    normalizes to the same path as [topdir] with the old target
    appended.  For a [topdir] that
    starts with one slash and a directory [subdir] below it, a link at
    [filep] whose target is absolute and does not start with [topdir],
    and which can be removed, is replaced by a link to
    [relpath (topdir + link) subdir]; if the new link cannot be created
    the file stays removed. *)
Theorem handle_link_converts {FS : Type}
    (readlink : FS -> text -> option text) (unlink : FS -> text -> option FS)
    (symlink : FS -> text -> text -> option FS) (cwd : text)
    (self : SymlinkConverter) (fs fs1 : FS) (filep subdir link : text)
    (c : ascii) (t : text) :
  topdir self = slash :: c :: t -> c <> slash -> topdir self `prefix_of` subdir ->
  readlink fs filep = Some link ->
  starts_with [slash] link = true -> starts_with (topdir self) link = false ->
  unlink fs filep = Some fs1 ->
  exists new_link,
    relpath cwd (topdir self ++ link) subdir = Some new_link /\
    isabs new_link = false /\
    normpath (path_join subdir new_link) = normpath (topdir self ++ link) /\
    handle_link readlink unlink symlink cwd self fs filep subdir =
      Some (match symlink fs1 new_link filep with
            | Some fs2 => fs2
            | None => fs1
            end).
Proof. apply handle_link_replace. Qed.

Lemma handle_link_converts_witness :
  exists new_link,
    relpath [] (topdir example_sysroot ++ list_ascii_of_string "/lib/libc.so.6")
      (list_ascii_of_string "/sysroot/usr/lib") = Some new_link /\
    isabs new_link = false /\
    normpath (path_join (list_ascii_of_string "/sysroot/usr/lib") new_link) =
      normpath (topdir example_sysroot ++ list_ascii_of_string "/lib/libc.so.6") /\
    handle_link store_read store_unlink store_symlink [] example_sysroot
      example_link_store example_link (list_ascii_of_string "/sysroot/usr/lib") =
      Some (match store_symlink (store_set example_link_store example_link None)
                    new_link example_link with
            | Some fs2 => fs2
            | None => store_set example_link_store example_link None
            end).
Proof.
  apply (handle_link_converts store_read store_unlink store_symlink [] example_sysroot
           example_link_store (store_set example_link_store example_link None)
           example_link (list_ascii_of_string "/sysroot/usr/lib")
           (list_ascii_of_string "/lib/libc.so.6") "s"%char
           (list_ascii_of_string "ysroot")).
  - reflexivity.
  - discriminate.
  - exists (list_ascii_of_string "/usr/lib"). reflexivity.
  - reflexivity.
  - reflexivity.
  - reflexivity.
  - reflexivity.
Defined.

(** X14. [handle_link] run again on a link it has handled changes
    nothing: in a file system where a created link reads back as its
    target and a removed file is no link, if the first call returns and
    leaves a link at [filep], a second call returns the same file
    system. *)
Theorem handle_link_twice {FS : Type}
    (readlink : FS -> text -> option text) (unlink : FS -> text -> option FS)
    (symlink : FS -> text -> text -> option FS) (cwd : text)
    (self : SymlinkConverter) (fs fs' : FS) (filep subdir : text) :
  (forall fs0 t p fs2, symlink fs0 t p = Some fs2 -> readlink fs2 p = Some t) ->
  (forall fs0 p fs1, unlink fs0 p = Some fs1 -> readlink fs1 p = None) ->
  handle_link readlink unlink symlink cwd self fs filep subdir = Some fs' ->
  is_Some (readlink fs' filep) ->
  handle_link readlink unlink symlink cwd self fs' filep subdir = Some fs'.
Proof. apply handle_link_again. Qed.

Lemma handle_link_twice_witness :
  let fs' := store_set (store_set example_link_store example_link None) example_link
               (Some (list_ascii_of_string "../../lib/libc.so.6")) in
  handle_link store_read store_unlink store_symlink [] example_sysroot
    fs' example_link (list_ascii_of_string "/sysroot/usr/lib") = Some fs'.
Proof.
  intros fs'.
  apply (handle_link_twice store_read store_unlink store_symlink [] example_sysroot
           example_link_store fs' example_link (list_ascii_of_string "/sysroot/usr/lib")).
  - exact store_symlink_read.
  - exact store_unlink_read.
  - reflexivity.
  - exists (list_ascii_of_string "../../lib/libc.so.6"). reflexivity.
Defined.

(** X15. A run of [convert_symlinks] returns and leaves every path it
    was given converted: in a file system where a created link reads
    back as its target, a removed file is no link, removing and creating
    at one path leave the links at other paths alone, a link can be
    removed, and [islink] holds of the paths that [readlink] reads, then
    whatever [os.walk] yields, no exception leaves [convert_symlinks],
    and afterwards a link at any path joined from the yield is relative
    or starts with [topdir]. *)
Theorem convert_symlinks_all_inside {FS : Type}
    (readlink : FS -> text -> option text) (unlink : FS -> text -> option FS)
    (symlink : FS -> text -> text -> option FS) (islink : FS -> text -> bool)
    (cwd : text) (self : SymlinkConverter)
    (walk : list (text * list text)) (fs : FS) :
  (forall fs0 t p fs2, symlink fs0 t p = Some fs2 -> readlink fs2 p = Some t) ->
  (forall fs0 t p fs2 q,
     symlink fs0 t p = Some fs2 -> q <> p -> readlink fs2 q = readlink fs0 q) ->
  (forall fs0 p fs1, unlink fs0 p = Some fs1 -> readlink fs1 p = None) ->
  (forall fs0 p fs1 q,
     unlink fs0 p = Some fs1 -> q <> p -> readlink fs1 q = readlink fs0 q) ->
  (forall fs0 p, is_Some (readlink fs0 p) -> is_Some (unlink fs0 p)) ->
  (forall fs0 p, islink fs0 p = true <-> is_Some (readlink fs0 p)) ->
  exists fs',
    convert_symlinks readlink unlink symlink islink cwd self walk fs = Some fs' /\
    forall p, p ∈ walked_paths walk -> stays_inside readlink self fs' p.
Proof.
  intros H1 H2 H3 H4 H5 H6.
  destruct (convert_symlinks_post readlink unlink symlink islink cwd self
              H1 H2 H3 H4 H5 H6 walk fs [] (Forall_nil_2 _)) as (fs' & Hrun & Hall).
  exists fs'. split; [exact Hrun|]. intros p Hp.
  rewrite app_nil_r in Hall. rewrite Forall_forall in Hall. apply Hall. exact Hp.
Qed.

Lemma convert_symlinks_all_inside_witness :
  exists fs',
    convert_symlinks store_read store_unlink store_symlink store_islink []
      example_sysroot example_walk example_link_store = Some fs' /\
    forall p, p ∈ walked_paths example_walk ->
      stays_inside store_read example_sysroot fs' p.
Proof.
  apply (convert_symlinks_all_inside store_read store_unlink store_symlink store_islink
           [] example_sysroot example_walk example_link_store).
  - exact store_symlink_read.
  - exact store_symlink_frame.
  - exact store_unlink_read.
  - exact store_unlink_frame.
  - exact store_unlink_link.
  - exact store_islink_readlink.
Defined.

(** X16. A file patched by [process_file] with the default prefix is
    not patched again: in a file system where a text is read without
    carriage returns (they are translated on reading) and a text without
    them that was written is read back as it was written, if
    [process_file] returns [True], a second call on the same file
    returns [False] and leaves the file system as it is: nothing is
    written and no backup is made. *)
Theorem process_file_twice {FS : Type}
    (read_text : FS -> text -> option text)
    (write_text : FS -> text -> text -> FS * bool)
    (copy2 : FS -> text -> text -> FS * bool)
    (template_escape : text -> text -> option text)
    (with_backup : bool) (fs fs' : FS) (file_path : text) :
  let self := mkCMakeFileProcessor (PathReplacer_init default_sysroot_var) with_backup in
  (forall fs0 q t, read_text fs0 q = Some t -> cr ∉ t) ->
  (forall fs0 q t fs1,
     cr ∉ t -> write_text fs0 q t = (fs1, true) -> read_text fs1 q = Some t) ->
  process_file read_text write_text copy2 template_escape self fs file_path
    = Some (true, fs') ->
  process_file read_text write_text copy2 template_escape self fs' file_path
    = Some (false, fs').
Proof.
  intros self Hnocr Hrw H. unfold process_file in H |- *. cbn [self replacer backup] in *.
  destruct (read_text fs file_path) as [content|] eqn:Hr; [|discriminate].
  destruct (replace_paths_default_no_cr template_escape content (Hnocr _ _ _ Hr))
    as (out & H1 & H2 & Hcr).
  rewrite H1 in H. destruct (negb (text_eqb out content)); [|discriminate].
  destruct (write_text _ file_path out) as [fs2 written] eqn:Hw.
  injection H as -> ->. rewrite (Hrw _ _ _ _ Hcr Hw), H2, text_eqb_refl. reflexivity.
Qed.

Lemma process_file_twice_witness :
  exists fs',
    process_file store_read_text store_write store_copy2 (fun _ _ => None)
      example_processor example_cmake_store example_cmake_file = Some (true, fs') /\
    process_file store_read_text store_write store_copy2 (fun _ _ => None)
      example_processor fs' example_cmake_file = Some (false, fs').
Proof.
  eexists. split; [reflexivity|].
  apply (process_file_twice store_read_text store_write store_copy2 (fun _ _ => None)
           true example_cmake_store).
  - exact store_read_text_no_cr.
  - exact store_read_write.
  - reflexivity.
Defined.

(** X17. The backup holds the text the file had before it was patched:
    with backups on, in a file system where a copy reads as its source
    and writing one file leaves the texts of the files at other paths
    alone, if [process_file] returns [True] and the copy to
    [file_path + ".bak"] succeeded, then afterwards the backup reads as
    the file read before the call.  This holds for every prefix. *)
Theorem process_file_backup_keeps_original {FS : Type}
    (read_text : FS -> text -> option text)
    (write_text : FS -> text -> text -> FS * bool)
    (copy2 : FS -> text -> text -> FS * bool)
    (template_escape : text -> text -> option text)
    (self : CMakeFileProcessor) (fs fs' : FS) (file_path : text) :
  (forall fs0 src dst fs1,
     copy2 fs0 src dst = (fs1, true) -> read_text fs1 dst = read_text fs0 src) ->
  (forall fs0 q t fs1 written q',
     write_text fs0 q t = (fs1, written) -> q' <> q ->
     read_text fs1 q' = read_text fs0 q') ->
  backup self = true ->
  snd (copy2 fs file_path (file_path ++ bak_suffix)) = true ->
  process_file read_text write_text copy2 template_escape self fs file_path
    = Some (true, fs') ->
  read_text fs' (file_path ++ bak_suffix) = read_text fs file_path.
Proof.
  intros Hcopy Hframe Hb Hok H. unfold process_file in H. rewrite Hb in H.
  destruct (read_text fs file_path) as [content|] eqn:Hr; [|discriminate].
  destruct (replace_paths template_escape (replacer self) content) as [out|];
    [|discriminate].
  destruct (negb (text_eqb out content)); [|discriminate].
  unfold _create_backup in H.
  destruct (copy2 fs file_path (file_path ++ bak_suffix)) as [fs1 ok] eqn:Hc.
  cbn [fst snd] in *. subst ok.
  destruct (write_text fs1 file_path out) as [fs2 written] eqn:Hw.
  injection H as -> ->.
  rewrite (Hframe _ _ _ _ _ _ Hw (bak_path_differs file_path)).
  rewrite (Hcopy _ _ _ _ Hc). exact Hr.
Qed.

Lemma process_file_backup_keeps_original_witness :
  exists fs',
    process_file store_read_text store_write store_copy2 (fun _ _ => None)
      example_processor example_cmake_store example_cmake_file = Some (true, fs') /\
    store_read_text fs' (example_cmake_file ++ bak_suffix) =
      store_read_text example_cmake_store example_cmake_file.
Proof.
  eexists. split; [reflexivity|].
  apply (process_file_backup_keeps_original store_read_text store_write store_copy2
           (fun _ _ => None) example_processor example_cmake_store).
  - exact store_copy2_read.
  - exact store_write_frame.
  - reflexivity.
  - reflexivity.
  - reflexivity.
Defined.

(** X18. A file with nothing to patch is left alone: for a prefix
    without backslash, if the file cannot be read, or neither pattern
    matches anywhere in its text, [process_file] returns [False] and
    the file system is as before: nothing is written and no backup is
    made. *)
Theorem process_file_nothing_to_patch {FS : Type}
    (read_text : FS -> text -> option text)
    (write_text : FS -> text -> text -> FS * bool)
    (copy2 : FS -> text -> text -> FS * bool)
    (template_escape : text -> text -> option text)
    (var : text) (with_backup : bool) (fs : FS) (file_path : text) :
  existsb (Ascii.eqb backslash) var = false ->
  (forall content, read_text fs file_path = Some content ->
     has_match pattern_usr [] content = false /\
     has_match pattern_opt [] content = false) ->
  process_file read_text write_text copy2 template_escape
    (mkCMakeFileProcessor (PathReplacer_init var) with_backup) fs file_path
    = Some (false, fs).
Proof.
  intros Hvar Hno. unfold process_file. cbn [replacer backup].
  destruct (read_text fs file_path) as [content|]; [|reflexivity].
  destruct (Hno content eq_refl) as [Hu Ho].
  rewrite (replace_paths_no_match template_escape var content Hvar Hu Ho).
  rewrite text_eqb_refl. reflexivity.
Qed.

Lemma process_file_nothing_to_patch_witness :
  process_file store_read_text store_write store_copy2 (fun _ _ => None)
    (mkCMakeFileProcessor (PathReplacer_init (list_ascii_of_string "/sysroot")) true)
    (store_set (fun _ => None) example_cmake_file
       (Some (list_ascii_of_string "set(FOO_DIR ${CMAKE_SYSROOT}/usr/share/foo)")))
    example_cmake_file
  = Some (false,
          store_set (fun _ => None) example_cmake_file
            (Some (list_ascii_of_string "set(FOO_DIR ${CMAKE_SYSROOT}/usr/share/foo)"))).
Proof.
  apply (process_file_nothing_to_patch store_read_text store_write store_copy2
           (fun _ _ => None) (list_ascii_of_string "/sysroot") true).
  - reflexivity.
  - intros content H. vm_compute in H. injection H as <-. split; reflexivity.
Defined.

(** ** A run of the path patcher *)

Lemma endswith_inv suffix s : endswith suffix s = true -> exists pre, s = pre ++ suffix.
Proof.
  unfold endswith. intros [l' H]%starts_with_inv. exists (rev l').
  apply (f_equal (@rev ascii)) in H. rewrite rev_involutive, rev_app_distr in H.
  rewrite rev_involutive in H. exact H.
Qed.

Lemma last_app_cons {X} (l1 l2 : list X) x :
  last (l1 ++ x :: l2) = last (x :: l2).
Proof.
  induction l1 as [|a l1 IH]; [reflexivity|].
  cbn [app]. destruct (l1 ++ x :: l2) eqn:E; [destruct l1; discriminate|].
  cbn [last]. exact IH.
Qed.

Lemma cmake_or_pc_last file :
  cmake_or_pc file = true ->
  file <> [] /\ (last file = Some "e"%char \/ last file = Some "c"%char).
Proof.
  unfold cmake_or_pc. intros [H|H]%orb_true_iff; apply endswith_inv in H as [pre ->].
  - split; [destruct pre; discriminate|]. left.
    change (list_ascii_of_string ".cmake")
      with ("."%char :: list_ascii_of_string "cmake").
    rewrite last_app_cons. reflexivity.
  - split; [destruct pre; discriminate|]. right.
    change (list_ascii_of_string ".pc") with ("."%char :: list_ascii_of_string "pc").
    rewrite last_app_cons. reflexivity.
Qed.

Lemma last_path_join a b : b <> [] -> last (path_join a b) = last b.
Proof.
  intros Hb. destruct b as [|c b]; [congruence|]. unfold path_join.
  destruct (starts_with [slash] (c :: b)); [reflexivity|].
  destruct (is_nil a || ends_with_sep a).
  - apply last_app_cons.
  - change (a ++ slash :: c :: b) with (a ++ [slash] ++ c :: b).
    rewrite app_assoc. apply last_app_cons.
Qed.

Lemma path_join_nonempty a b : b <> [] -> path_join a b <> [].
Proof.
  intros Hb H. apply (f_equal last) in H. rewrite last_path_join in H by exact Hb.
  change (last (@nil ascii)) with (@None ascii) in H. apply last_None in H. congruence.
Qed.

Lemma last_bak p : last (p ++ bak_suffix) = Some "k"%char.
Proof.
  change bak_suffix with ("."%char :: list_ascii_of_string "bak").
  rewrite last_app_cons. reflexivity.
Qed.

Lemma last_log_file_path r : last (log_file_path (LogWriter_init r)) = Some "g"%char.
Proof.
  cbn [LogWriter_init log_file_path]. rewrite last_path_join by discriminate. reflexivity.
Qed.

Lemma log_modified_file_path cwd lw p lw' :
  log_modified_file cwd lw p = Some lw' -> log_file_path lw' = log_file_path lw.
Proof.
  unfold log_modified_file. destruct (relpath cwd p (rootfs_dir lw)); [|discriminate].
  intros [= <-]. reflexivity.
Qed.

Section RunFrame.
Context {FS : Type}.
Variable read_text : FS -> text -> option text.
Variable write_text : FS -> text -> text -> FS * bool.
Variable copy2 : FS -> text -> text -> FS * bool.
Variable append_text : FS -> text -> list text -> FS * bool.
Variable template_escape : text -> text -> option text.
Variable cwd : text.
Variable now : text.

Hypothesis write_frame :
  forall fs q t fs1 written q',
    write_text fs q t = (fs1, written) -> q' <> q -> read_text fs1 q' = read_text fs q'.
Hypothesis copy2_frame :
  forall fs src dst fs1 copied q',
    copy2 fs src dst = (fs1, copied) -> q' <> dst -> read_text fs1 q' = read_text fs q'.
Hypothesis append_frame :
  forall fs q chunks fs1 appended q',
    append_text fs q chunks = (fs1, appended) -> q' <> q ->
    read_text fs1 q' = read_text fs q'.

Lemma process_file_frame proc fs p r fs' q :
  process_file read_text write_text copy2 template_escape proc fs p = Some (r, fs') ->
  q <> p -> q <> p ++ bak_suffix -> read_text fs' q = read_text fs q.
Proof using write_frame copy2_frame.
  intros H Hp Hb. unfold process_file in H.
  destruct (read_text fs p) as [content|]; [|injection H as _ <-; reflexivity].
  destruct (replace_paths template_escape (replacer proc) content) as [out|];
    [|discriminate].
  destruct (negb (text_eqb out content)); [|injection H as _ <-; reflexivity].
  match type of H with
  | (let '(_, _) := write_text ?f _ _ in _) = _ =>
      destruct (write_text f p out) as [fs2 written] eqn:Hw; set (fs1 := f) in *
  end.
  injection H as _ <-. rewrite (write_frame _ _ _ _ _ q Hw Hp).
  subst fs1. destruct (backup proc); [|reflexivity].
  unfold _create_backup.
  destruct (copy2 fs p (p ++ bak_suffix)) as [fs1 copied] eqn:Hc.
  apply (copy2_frame _ _ _ _ _ q Hc Hb).
Qed.

Lemma run_files_frame proc subdir files : forall fs lw fs' lw' q,
  run_files read_text write_text copy2 template_escape cwd proc subdir files fs lw
    = Some (fs', lw') ->
  Forall (fun p => q <> p /\ q <> p ++ bak_suffix)
    (map (path_join subdir) (List.filter cmake_or_pc files)) ->
  read_text fs' q = read_text fs q /\ log_file_path lw' = log_file_path lw.
Proof using write_frame copy2_frame.
  induction files as [|file files IH]; intros fs lw fs' lw' q H Hq.
  { injection H as <- <-. split; reflexivity. }
  cbn [run_files List.filter] in H, Hq. destruct (cmake_or_pc file).
  - cbn [map] in Hq. apply Forall_cons in Hq as [[Hp Hb] Hq]. cbv zeta in H.
    destruct (process_file read_text write_text copy2 template_escape proc fs
                (path_join subdir file)) as [[r fs1]|] eqn:Hproc; [|discriminate].
    pose proof (process_file_frame _ _ _ _ _ q Hproc Hp Hb) as Hfr.
    destruct r.
    + destruct (log_modified_file cwd lw (path_join subdir file)) as [lw1|] eqn:Hl;
        [|discriminate].
      destruct (IH _ _ _ _ q H Hq) as [H1 H2]. split; [congruence|].
      rewrite H2. apply (log_modified_file_path _ _ _ _ Hl).
    + destruct (IH _ _ _ _ q H Hq) as [H1 H2]. split; [congruence | exact H2].
  - apply (IH _ _ _ _ q H Hq).
Qed.

Lemma run_walk_frame proc walk : forall fs lw fs' lw' q,
  run_walk read_text write_text copy2 template_escape cwd proc walk fs lw
    = Some (fs', lw') ->
  Forall (fun p => q <> p /\ q <> p ++ bak_suffix) (processed_paths walk) ->
  read_text fs' q = read_text fs q /\ log_file_path lw' = log_file_path lw.
Proof using write_frame copy2_frame.
  induction walk as [|[subdir files] walk IH]; intros fs lw fs' lw' q H Hq.
  { injection H as <- <-. split; reflexivity. }
  cbn [run_walk] in H. unfold processed_paths in Hq. cbn [flat_map] in Hq.
  apply Forall_app in Hq as [Hq1 Hq2].
  destruct (run_files read_text write_text copy2 template_escape cwd proc subdir files
              fs lw) as [[fs1 lw1]|] eqn:Hf; [|discriminate].
  destruct (run_files_frame _ _ _ _ _ _ _ q Hf Hq1) as [H1 H2].
  destruct (IH _ _ _ _ q H Hq2) as [H3 H4]. split; congruence.
Qed.

Lemma run_frame self walk fs fs' lw q :
  run read_text write_text copy2 append_text template_escape cwd now self walk fs
    = Some (fs', lw) ->
  Forall (fun p => q <> p /\ q <> p ++ bak_suffix) (processed_paths walk) ->
  q <> log_file_path (log_writer self) ->
  log_file_path lw = log_file_path (log_writer self) /\
  read_text fs' q = read_text fs q.
Proof using All.
  intros H Hq Hlog. unfold run in H.
  destruct (run_walk read_text write_text copy2 template_escape cwd (processor self)
              walk fs (log_writer self)) as [[fs1 lw1]|] eqn:Hw; [|discriminate].
  injection H as <- <-.
  destruct (run_walk_frame _ _ _ _ _ _ q Hw Hq) as [H1 H2]. split; [exact H2|].
  unfold write_log.
  destruct (append_text fs1 (log_file_path lw1) (log_chunks now lw1)) as [fs2 b] eqn:Ha.
  cbn [fst]. rewrite <- H1. apply (append_frame _ _ _ _ _ q Ha). congruence.
Qed.

End RunFrame.

Lemma replace_paths_default_out te content :
  cr ∉ content ->
  exists out,
    replace_paths te (PathReplacer_init default_sysroot_var) content = Some out /\
    has_match pattern_usr [] out = false /\
    has_match pattern_opt [] out = false /\
    cr ∉ out.
Proof.
  intros Hc. destruct (replace_paths_default te content) as (H & Hu & Ho).
  eexists. split; [exact H|]. split; [exact Hu|]. split; [exact Ho|].
  intros Hin. apply insert_scan_elem in Hin as [Hin|Hin];
    [exact (default_sysroot_var_no_cr Hin)|].
  apply insert_scan_elem in Hin as [Hin|Hin];
    [exact (default_sysroot_var_no_cr Hin) | exact (Hc Hin)].
Qed.

Lemma store_write_ok (fs : store) q t : snd (store_write fs q t) = true.
Proof. reflexivity. Qed.

Lemma store_copy2_frame (fs : store) src dst fs1 copied q' :
  store_copy2 fs src dst = (fs1, copied) -> q' <> dst ->
  store_read_text fs1 q' = store_read_text fs q'.
Proof.
  unfold store_copy2, store_read_text. destruct (fs src); intros [= <- _] Hq;
    [|reflexivity].
  rewrite store_set_other by exact Hq. reflexivity.
Qed.

Lemma store_append_frame (fs : store) q chunks fs1 appended q' :
  store_append fs q chunks = (fs1, appended) -> q' <> q ->
  store_read_text fs1 q' = store_read_text fs q'.
Proof.
  intros [= <- _] Hq. unfold store_read_text. rewrite store_set_other by exact Hq.
  reflexivity.
Qed.

Section RunPatched.
Context {FS : Type}.
Variable read_text : FS -> text -> option text.
Variable write_text : FS -> text -> text -> FS * bool.
Variable copy2 : FS -> text -> text -> FS * bool.
Variable append_text : FS -> text -> list text -> FS * bool.
Variable template_escape : text -> text -> option text.
Variable cwd : text.
Variable now : text.

Hypothesis read_no_cr : forall fs q t, read_text fs q = Some t -> cr ∉ t.
Hypothesis read_write :
  forall fs q t fs1,
    cr ∉ t -> write_text fs q t = (fs1, true) -> read_text fs1 q = Some t.
Hypothesis write_ok : forall fs q t, snd (write_text fs q t) = true.
Hypothesis write_frame :
  forall fs q t fs1 written q',
    write_text fs q t = (fs1, written) -> q' <> q -> read_text fs1 q' = read_text fs q'.
Hypothesis copy2_frame :
  forall fs src dst fs1 copied q',
    copy2 fs src dst = (fs1, copied) -> q' <> dst -> read_text fs1 q' = read_text fs q'.
Hypothesis append_frame :
  forall fs q chunks fs1 appended q',
    append_text fs q chunks = (fs1, appended) -> q' <> q ->
    read_text fs1 q' = read_text fs q'.

Variable proc : CMakeFileProcessor.
Hypothesis proc_default : replacer proc = PathReplacer_init default_sysroot_var.

Lemma process_file_default_post fs p :
  exists r fs',
    process_file read_text write_text copy2 template_escape proc fs p = Some (r, fs') /\
    patched read_text fs' p.
Proof using read_no_cr read_write write_ok proc_default.
  unfold process_file. rewrite proc_default.
  destruct (read_text fs p) as [content|] eqn:Hr.
  2:{ exists false, fs. split; [reflexivity|]. intros t H. congruence. }
  destruct (replace_paths_default_out template_escape content (read_no_cr _ _ _ Hr))
    as (out & H1 & Hu & Ho & Hcr).
  rewrite H1. destruct (text_eqb out content) eqn:Heq; cbn [negb].
  - apply text_eqb_eq in Heq. subst out. exists false, fs. split; [reflexivity|].
    intros t H. rewrite Hr in H. injection H as <-. split; assumption.
  - match goal with
    | |- context [write_text ?f p out] =>
        pose proof (write_ok f p out) as Hok;
        destruct (write_text f p out) as [fs2 written] eqn:Hw
    end.
    cbn [snd] in Hok. subst written. exists true, fs2. split; [reflexivity|].
    intros t H. rewrite (read_write _ _ _ _ Hcr Hw) in H. injection H as <-.
    split; assumption.
Qed.

Lemma run_files_post subdir files : forall fs lw done,
  Forall (fun q => (last q = Some "e"%char \/ last q = Some "c"%char) /\
                   patched read_text fs q) done ->
  exists fs' lw',
    run_files read_text write_text copy2 template_escape cwd proc subdir files fs lw
      = Some (fs', lw') /\
    log_file_path lw' = log_file_path lw /\
    Forall (fun q => (last q = Some "e"%char \/ last q = Some "c"%char) /\
                     patched read_text fs' q)
      (map (path_join subdir) (List.filter cmake_or_pc files) ++ done).
Proof using read_no_cr read_write write_ok write_frame copy2_frame proc_default.
  induction files as [|file files IH]; intros fs lw done Hdone.
  { exists fs, lw. split; [reflexivity|]. split; [reflexivity | exact Hdone]. }
  cbn [run_files List.filter]. destruct (cmake_or_pc file) eqn:Hsuf.
  2:{ apply IH. exact Hdone. }
  cbv zeta. apply cmake_or_pc_last in Hsuf as [Hne Hlast].
  set (p := path_join subdir file).
  assert (Hp : last p = Some "e"%char \/ last p = Some "c"%char).
  { unfold p. rewrite last_path_join by exact Hne. exact Hlast. }
  destruct (process_file_default_post fs p) as (r & fs1 & Hproc & Hpat).
  rewrite Hproc.
  assert (Hinv : Forall (fun q => (last q = Some "e"%char \/ last q = Some "c"%char) /\
                                  patched read_text fs1 q) (p :: done)).
  { constructor; [split; assumption|].
    eapply Forall_impl; [exact Hdone|]. intros q [Hq Hpq]. split; [exact Hq|].
    destruct (decide (q = p)) as [->|Hqp]; [exact Hpat|].
    assert (Hqb : q <> p ++ bak_suffix).
    { intros ->. rewrite last_bak in Hq. destruct Hq; discriminate. }
    intros t H.
    rewrite (process_file_frame read_text write_text copy2 template_escape
               write_frame copy2_frame _ _ _ _ _ q Hproc Hqp Hqb) in H.
    apply (Hpq t H). }
  assert (Hrest : forall lw1, log_file_path lw1 = log_file_path lw ->
    exists fs' lw',
      run_files read_text write_text copy2 template_escape cwd proc subdir files fs1 lw1
        = Some (fs', lw') /\
      log_file_path lw' = log_file_path lw /\
      Forall (fun q => (last q = Some "e"%char \/ last q = Some "c"%char) /\
                       patched read_text fs' q)
        ((p :: map (path_join subdir) (List.filter cmake_or_pc files)) ++ done)).
  { intros lw1 Hlw1. destruct (IH fs1 lw1 _ Hinv) as (fs' & lw' & H' & Hl & Hall).
    exists fs', lw'. split; [exact H'|]. split; [congruence|].
    apply Forall_app in Hall as [Ha Hb]. apply Forall_cons in Hb as [Hb Hc].
    cbn [app]. constructor; [exact Hb|]. apply Forall_app. split; assumption. }
  destruct r.
  - destruct (relpath_is_Some cwd p (rootfs_dir lw)) as [rel Hrel].
    { unfold p. apply path_join_nonempty. exact Hne. }
    unfold log_modified_file. rewrite Hrel. apply Hrest. reflexivity.
  - apply Hrest. reflexivity.
Qed.

Lemma run_walk_post walk : forall fs lw done,
  Forall (fun q => (last q = Some "e"%char \/ last q = Some "c"%char) /\
                   patched read_text fs q) done ->
  exists fs' lw',
    run_walk read_text write_text copy2 template_escape cwd proc walk fs lw
      = Some (fs', lw') /\
    log_file_path lw' = log_file_path lw /\
    Forall (fun q => (last q = Some "e"%char \/ last q = Some "c"%char) /\
                     patched read_text fs' q)
      (processed_paths walk ++ done).
Proof using read_no_cr read_write write_ok write_frame copy2_frame proc_default.
  induction walk as [|[subdir files] walk IH]; intros fs lw done Hdone.
  { exists fs, lw. split; [reflexivity|]. split; [reflexivity | exact Hdone]. }
  cbn [run_walk].
  destruct (run_files_post subdir files fs lw done Hdone) as (fs1 & lw1 & H1 & Hl1 & Hinv).
  rewrite H1. destruct (IH fs1 lw1 _ Hinv) as (fs' & lw' & H' & Hl & Hall).
  exists fs', lw'. split; [exact H'|]. split; [congruence|].
  unfold processed_paths in *. cbn [flat_map].
  apply Forall_app in Hall as [Ha Hb]. apply Forall_app in Hb as [Hb Hc].
  rewrite <- app_assoc. repeat (apply Forall_app; split); assumption.
Qed.

Lemma run_post self walk fs :
  processor self = proc ->
  last (log_file_path (log_writer self)) = Some "g"%char ->
  exists fs' lw,
    run read_text write_text copy2 append_text template_escape cwd now self walk fs
      = Some (fs', lw) /\
    Forall (patched read_text fs') (processed_paths walk).
Proof using All.
  intros Hproc Hlog. unfold run. rewrite Hproc.
  destruct (run_walk_post walk fs (log_writer self) [] (Forall_nil_2 _))
    as (fs1 & lw1 & H1 & Hl & Hall).
  rewrite H1. eexists _, lw1. split; [reflexivity|].
  rewrite app_nil_r in Hall. eapply Forall_impl; [exact Hall|].
  intros q [Hq Hpat] t H. unfold write_log in H.
  destruct (append_text fs1 (log_file_path lw1) (log_chunks now lw1)) as [fs2 b] eqn:Ha.
  cbn [fst] in H. rewrite (append_frame _ _ _ _ _ q Ha) in H; [apply (Hpat t H)|].
  intros ->. rewrite Hl, Hlog in Hq. destruct Hq; discriminate.
Qed.

End RunPatched.

(** X19. After a run with the default prefix no file that [run] handed
    to [process_file] has a path left to patch.  In a file system where
    text is read without carriage returns, a written text without them
    reads back as written, writing succeeds, and writing, copying and
    appending to one file leave the texts at other paths alone: for the
    application as [main] builds it with the default [--sysroot], and
    whatever [os.walk] yields, [run] returns, and afterwards in every
    file [subdir/file] of the yield whose name ends with [.cmake] or
    [.pc], if it can be read, neither pattern matches anywhere. *)
Theorem run_patches_every_file {FS : Type}
    (read_text : FS -> text -> option text)
    (write_text : FS -> text -> text -> FS * bool)
    (copy2 : FS -> text -> text -> FS * bool)
    (append_text : FS -> text -> list text -> FS * bool)
    (template_escape : text -> text -> option text)
    (cwd now directory : text) (no_backup : bool)
    (walk : list (text * list text)) (fs : FS) :
  (forall fs0 q t, read_text fs0 q = Some t -> cr ∉ t) ->
  (forall fs0 q t fs1,
     cr ∉ t -> write_text fs0 q t = (fs1, true) -> read_text fs1 q = Some t) ->
  (forall fs0 q t, snd (write_text fs0 q t) = true) ->
  (forall fs0 q t fs1 written q',
     write_text fs0 q t = (fs1, written) -> q' <> q ->
     read_text fs1 q' = read_text fs0 q') ->
  (forall fs0 src dst fs1 copied q',
     copy2 fs0 src dst = (fs1, copied) -> q' <> dst ->
     read_text fs1 q' = read_text fs0 q') ->
  (forall fs0 q chunks fs1 appended q',
     append_text fs0 q chunks = (fs1, appended) -> q' <> q ->
     read_text fs1 q' = read_text fs0 q') ->
  exists fs' lw,
    run read_text write_text copy2 append_text template_escape cwd now
      (main_app cwd directory no_backup default_sysroot_var) walk fs = Some (fs', lw) /\
    forall p, p ∈ processed_paths walk -> patched read_text fs' p.
Proof.
  intros H1 H2 H3 H4 H5 H6.
  destruct (run_post read_text write_text copy2 append_text template_escape cwd now
              H1 H2 H3 H4 H5 H6
              (processor (main_app cwd directory no_backup default_sysroot_var))
              eq_refl
              (main_app cwd directory no_backup default_sysroot_var) walk fs eq_refl
              (last_log_file_path _)) as (fs' & lw & Hrun & Hall).
  exists fs', lw. split; [exact Hrun|]. intros p Hp.
  rewrite Forall_forall in Hall. apply Hall. exact Hp.
Qed.

Lemma run_patches_every_file_witness :
  exists fs' lw,
    run store_read_text store_write store_copy2 store_append (fun _ _ => None)
      (list_ascii_of_string "/home/u") (list_ascii_of_string "2025-01-01 00:00:00")
      (main_app (list_ascii_of_string "/home/u") (list_ascii_of_string "/sysroot")
         false default_sysroot_var)
      example_cmake_walk example_cmake_store = Some (fs', lw) /\
    forall p, p ∈ processed_paths example_cmake_walk -> patched store_read_text fs' p.
Proof.
  apply (run_patches_every_file store_read_text store_write store_copy2 store_append).
  - exact store_read_text_no_cr.
  - exact store_read_write.
  - exact store_write_ok.
  - exact store_write_frame.
  - exact store_copy2_frame.
  - exact store_append_frame.
Defined.

(** X20. A run changes no file but those it processes, their backups
    and its log: in a file system where writing, copying and appending
    to one file leave the texts at other paths alone, if [run] returns,
    then a path that is none of the paths [subdir/file] with a name
    ending in [.cmake] or [.pc], none of these with [.bak] appended and
    not the log file reads afterwards as it read before.  This holds
    for every prefix. *)
Theorem run_leaves_other_files {FS : Type}
    (read_text : FS -> text -> option text)
    (write_text : FS -> text -> text -> FS * bool)
    (copy2 : FS -> text -> text -> FS * bool)
    (append_text : FS -> text -> list text -> FS * bool)
    (template_escape : text -> text -> option text)
    (cwd now : text) (self : FixCMakeFilesApp)
    (walk : list (text * list text)) (fs fs' : FS) (lw : LogWriter) (q : text) :
  (forall fs0 p t fs1 written q',
     write_text fs0 p t = (fs1, written) -> q' <> p ->
     read_text fs1 q' = read_text fs0 q') ->
  (forall fs0 src dst fs1 copied q',
     copy2 fs0 src dst = (fs1, copied) -> q' <> dst ->
     read_text fs1 q' = read_text fs0 q') ->
  (forall fs0 p chunks fs1 appended q',
     append_text fs0 p chunks = (fs1, appended) -> q' <> p ->
     read_text fs1 q' = read_text fs0 q') ->
  run read_text write_text copy2 append_text template_escape cwd now self walk fs
    = Some (fs', lw) ->
  (forall p, p ∈ processed_paths walk -> q <> p /\ q <> p ++ bak_suffix) ->
  q <> log_file_path (log_writer self) ->
  read_text fs' q = read_text fs q.
Proof.
  intros H1 H2 H3 Hrun Hq Hlog.
  apply (run_frame read_text write_text copy2 append_text template_escape cwd now
           H1 H2 H3 self walk fs fs' lw q Hrun); [|exact Hlog].
  apply Forall_forall. exact Hq.
Qed.

Lemma run_leaves_other_files_witness :
  exists fs' lw,
    run store_read_text store_write store_copy2 store_append (fun _ _ => None)
      (list_ascii_of_string "/home/u") (list_ascii_of_string "2025-01-01 00:00:00")
      (main_app (list_ascii_of_string "/home/u") (list_ascii_of_string "/sysroot")
         false (list_ascii_of_string "/sysroot"))
      example_cmake_walk example_cmake_store = Some (fs', lw) /\
    store_read_text fs' (list_ascii_of_string "/sysroot/usr/lib/cmake/README") =
      store_read_text example_cmake_store
        (list_ascii_of_string "/sysroot/usr/lib/cmake/README").
Proof.
  eexists. eexists. split; [reflexivity|].
  eapply (run_leaves_other_files store_read_text store_write store_copy2 store_append
           (fun _ _ => None)
           (list_ascii_of_string "/home/u") (list_ascii_of_string "2025-01-01 00:00:00")
           (main_app (list_ascii_of_string "/home/u") (list_ascii_of_string "/sysroot")
              false (list_ascii_of_string "/sysroot"))
           example_cmake_walk example_cmake_store).
  - exact store_write_frame.
  - exact store_copy2_frame.
  - exact store_append_frame.
  - reflexivity.
  - intros p Hp. apply list_elem_of_In in Hp. vm_compute in Hp.
    destruct Hp as [<-|[]]. split; discriminate.
  - discriminate.
Defined.

Section RunPatchedFiles.
Context {FS : Type}.
Variable read_text : FS -> text -> option text.
Variable write_text : FS -> text -> text -> FS * bool.
Variable copy2 : FS -> text -> text -> FS * bool.
Variable template_escape : text -> text -> option text.
Variable cwd : text.
Variable proc : CMakeFileProcessor.
Variable var : text.
Hypothesis var_plain : existsb (Ascii.eqb backslash) var = false.
Hypothesis proc_var : replacer proc = PathReplacer_init var.

Lemma process_file_patched fs p :
  patched read_text fs p ->
  process_file read_text write_text copy2 template_escape proc fs p = Some (false, fs).
Proof using var_plain proc_var.
  intros Hpat. unfold process_file. rewrite proc_var.
  destruct (read_text fs p) as [content|] eqn:Hr; [|reflexivity].
  destruct (Hpat content Hr) as [Hu Ho].
  rewrite (replace_paths_no_match template_escape var content var_plain Hu Ho).
  rewrite text_eqb_refl. reflexivity.
Qed.

Lemma run_files_patched subdir files fs lw :
  Forall (patched read_text fs) (map (path_join subdir) (List.filter cmake_or_pc files)) ->
  run_files read_text write_text copy2 template_escape cwd proc subdir files fs lw
    = Some (fs, lw).
Proof using var_plain proc_var.
  induction files as [|file files IH]; intros H; [reflexivity|].
  cbn [run_files List.filter] in *. destruct (cmake_or_pc file); [|apply IH; exact H].
  cbn [map] in H. apply Forall_cons in H as [Hp H]. cbv zeta.
  rewrite (process_file_patched _ _ Hp). apply IH. exact H.
Qed.

Lemma run_walk_patched walk fs lw :
  Forall (patched read_text fs) (processed_paths walk) ->
  run_walk read_text write_text copy2 template_escape cwd proc walk fs lw = Some (fs, lw).
Proof using var_plain proc_var.
  induction walk as [|[subdir files] walk IH]; intros H; [reflexivity|].
  unfold processed_paths in H. cbn [flat_map] in H. apply Forall_app in H as [H1 H2].
  cbn [run_walk]. rewrite (run_files_patched _ _ _ _ H1). apply IH. exact H2.
Qed.

End RunPatchedFiles.

(** X21. A run over files that have nothing left to patch changes
    nothing but the log: for a prefix without backslash, if every file
    [subdir/file] of the yield whose name ends with [.cmake] or [.pc]
    cannot be read or has no match of either pattern, [run] reads the
    files, writes none, makes no backup and records no file, and still
    appends to the log what [write_log] writes, which for a fresh
    application is the line of the run alone. *)
Theorem run_on_patched_files {FS : Type}
    (read_text : FS -> text -> option text)
    (write_text : FS -> text -> text -> FS * bool)
    (copy2 : FS -> text -> text -> FS * bool)
    (append_text : FS -> text -> list text -> FS * bool)
    (template_escape : text -> text -> option text)
    (cwd now directory sysroot : text) (no_backup : bool)
    (walk : list (text * list text)) (fs : FS) :
  let self := main_app cwd directory no_backup sysroot in
  existsb (Ascii.eqb backslash) sysroot = false ->
  (forall p, p ∈ processed_paths walk -> patched read_text fs p) ->
  run read_text write_text copy2 append_text template_escape cwd now self walk fs
    = Some (fst (append_text fs (log_file_path (log_writer self))
                   [lf :: list_ascii_of_string "--- Run at " ++ now
                       ++ list_ascii_of_string " ---" ++ [lf]]),
            log_writer self).
Proof.
  intros self Hvar Hpat. unfold run.
  rewrite (run_walk_patched read_text write_text copy2 template_escape cwd
             (processor self) sysroot Hvar eq_refl walk fs (log_writer self)).
  - reflexivity.
  - apply Forall_forall. exact Hpat.
Qed.

Lemma run_on_patched_files_witness :
  let self := main_app (list_ascii_of_string "/home/u") (list_ascii_of_string "/sysroot")
                false default_sysroot_var in
  run store_read_text store_write store_copy2 store_append (fun _ _ => None)
    (list_ascii_of_string "/home/u") (list_ascii_of_string "2025-01-01 00:00:00")
    self example_cmake_walk example_patched_store
  = Some (fst (store_append example_patched_store (log_file_path (log_writer self))
                 [lf :: list_ascii_of_string "--- Run at "
                     ++ list_ascii_of_string "2025-01-01 00:00:00"
                     ++ list_ascii_of_string " ---" ++ [lf]]),
          log_writer self).
Proof.
  apply (run_on_patched_files store_read_text store_write store_copy2 store_append
           (fun _ _ => None)
           (list_ascii_of_string "/home/u") (list_ascii_of_string "2025-01-01 00:00:00")
           (list_ascii_of_string "/sysroot") default_sysroot_var false
           example_cmake_walk example_patched_store).
  - reflexivity.
  - intros p Hp. apply list_elem_of_In in Hp. vm_compute in Hp.
    destruct Hp as [<-|[]]. intros t H. vm_compute in H. injection H as <-.
    split; reflexivity.
Defined.
